(** * UMATO layout optimizers: a shallow embedding of [umato/layouts.py]

    The two layout passes of [src/umato/layouts.py] are embedded as Rocq
    functions:

    - [nn_layout_optimize] and its kernel [_nn_layout_optimize_single_epoch]
      (here [nn_layout_optimize_single_epoch]), the Local Layout Optimizer;
    - [optimize_global_layout], the Global Layout Refiner.

    Modelling choices.

    - The coordinates and the gradients are exact rationals ([Q]): their
      rounding is not modelled.
    - The two counter arrays decide which edge fires and how many negative
      samples it draws, and there rounding matters.  Their elements are
      doubles: a rational, an infinity or NaN ([xfloat]), and an operation
      on them returns the rounding [fl] of its exact result, as IEEE 754
      prescribes.  The rounding [fl] is a parameter of the kernel; so is the
      integer that the compiled conversion [int(x)] yields for a NaN, an
      infinity or a value outside the 64-bit integers, which the language
      does not define.
    - numpy arrays are mutable objects: the coordinate arrays live in a
      [heap] and are named by references ([aref]), so that
      [head_embedding] and [tail_embedding] may be one and the same array.
    - Python exceptions are an outcome of the computation, next to normal
      return; the state reached at the raise is kept.  The unbounded
      [while True] rejection loop runs on fuel.
    - The state carries a ghost [trace] of the coordinate updates performed
      (one entry per [x[d] += g * alpha * s]).  The code never reads it. *)

From Stdlib Require Import QArith ZArith List Lia Lqa Qround Qabs Bool.
From Stdlib Require Import Qpower Qreduction.
Import ListNotations.
Open Scope Q_scope.

(** ** Numbers *)

(** A double: a finite value, an infinity or NaN. *)
Inductive xfloat : Type :=
| Fin (q : Q)
| PInf
| NInf
| NaN.

Definition xneg (x : xfloat) : xfloat :=
  match x with
  | Fin q => Fin (- q)
  | PInf => NInf
  | NInf => PInf
  | NaN => NaN
  end.

Definition xadd (x y : xfloat) : xfloat :=
  match x, y with
  | NaN, _ | _, NaN => NaN
  | Fin p, Fin q => Fin (p + q)
  | PInf, NInf | NInf, PInf => NaN
  | PInf, _ | _, PInf => PInf
  | NInf, _ | _, NInf => NInf
  end.

Definition xsub (x y : xfloat) : xfloat := xadd x (xneg y).

(** Sign of an extended rational that is not NaN. *)
Definition xsign (x : xfloat) : comparison :=
  match x with
  | Fin q => q ?= 0
  | PInf => Gt
  | NInf => Lt
  | NaN => Eq
  end.

Definition inf_of_sign (c : comparison) : xfloat :=
  match c with
  | Gt => PInf
  | Lt => NInf
  | Eq => NaN
  end.

Definition sign_mul (c1 c2 : comparison) : comparison :=
  match c1, c2 with
  | Eq, _ | _, Eq => Eq
  | Gt, c | c, Gt => c
  | Lt, Lt => Gt
  end.

Definition xmul (x y : xfloat) : xfloat :=
  match x, y with
  | NaN, _ | _, NaN => NaN
  | Fin p, Fin q => Fin (p * q)
  | _, _ => inf_of_sign (sign_mul (xsign x) (xsign y))
  end.

(** IEEE quotient; the divisor is not zero where the kernel uses it. *)
Definition xquot (x y : xfloat) : xfloat :=
  match x, y with
  | NaN, _ | _, NaN => NaN
  | Fin p, Fin q => Fin (p / q)
  | Fin _, _ => Fin 0
  | _, Fin _ => inf_of_sign (sign_mul (xsign x) (xsign y))
  | _, _ => NaN
  end.

Definition xis_zero (x : xfloat) : bool :=
  match x with
  | Fin q => Qeq_bool q 0
  | _ => false
  end.

(** The order of the doubles; NaN is comparable with nothing. *)
Definition xle (x y : xfloat) : Prop :=
  match x, y with
  | NaN, _ | _, NaN => False
  | Fin p, Fin q => p <= q
  | NInf, _ | _, PInf => True
  | _, _ => False
  end.

(** [x <= y] as the kernel tests it. *)
Definition xle_bool (x y : xfloat) : bool :=
  match x, y with
  | NaN, _ | _, NaN => false
  | Fin p, Fin q => Qle_bool p q
  | NInf, _ | _, PInf => true
  | _, _ => false
  end.

(** *** Rounded operations

    [fl q] is the double nearest to the real [q], an infinity when [q] is
    beyond the largest double.  Each operation on doubles is the exact
    operation followed by [fl]. *)
Definition xround (fl : Q -> xfloat) (x : xfloat) : xfloat :=
  match x with
  | Fin q => fl q
  | _ => x
  end.

Definition fadd (fl : Q -> xfloat) (x y : xfloat) : xfloat :=
  xround fl (xadd x y).

Definition fsub (fl : Q -> xfloat) (x y : xfloat) : xfloat :=
  xround fl (xsub x y).

Definition fmul (fl : Q -> xfloat) (x y : xfloat) : xfloat :=
  xround fl (xmul x y).

Definition fquot (fl : Q -> xfloat) (x y : xfloat) : xfloat :=
  xround fl (xquot x y).

(** [x / y] on a numpy array [x] and a Python float [y]: division by zero
    gives an infinity or NaN, it does not raise. *)
Definition np_divide (fl : Q -> xfloat) (x y : Q) : xfloat :=
  if Qeq_bool y 0 then inf_of_sign (x ?= 0) else fl (x / y).

(** [float(n)] and [n] used as a float. *)
Definition float_of_nat (n : nat) : Q := inject_Z (Z.of_nat n).
Definition float_of_Z (z : Z) : Q := inject_Z z.

(** [int(x)] on a finite float: truncation towards zero. *)
Definition Qtruncate (q : Q) : Z := Z.quot (Qnum q) (Zpos (Qden q)).

(** [int(x)] in the compiled kernel: a conversion to a 64-bit integer that
    never raises.  [unrepresentable x] is what the conversion yields when
    [x] is NaN, an infinity or beyond the 64-bit integers. *)
Definition in_int64 (z : Z) : bool :=
  ((- 2 ^ 63 <=? z) && (z <? 2 ^ 63))%Z.

Definition int64_of_float (unrepresentable : xfloat -> Z) (x : xfloat) : Z :=
  match x with
  | Fin q =>
      if in_int64 (Qtruncate q) then Qtruncate q else unrepresentable x
  | _ => unrepresentable x
  end.

(** [x > 0.0] and [x <= y] on floats. *)
Definition Qgt0 (x : Q) : bool := negb (Qle_bool x 0).

(** ** Exceptions, outcomes and the state monad *)

Inductive exn : Type :=
| NameError            (* includes UnboundLocalError *)
| IndexError
| ZeroDivisionError.

Inductive outcome (A : Type) : Type :=
| Ok (a : A)
| Raise (e : exn)
| OutOfFuel.

Arguments Ok {A} a.
Arguments Raise {A} e.
Arguments OutOfFuel {A}.

(** ** Arrays and the heap *)

Definition vec := list Q.
Definition matrix := list vec.

(** Identity of a coordinate array.  At most two arrays are live. *)
Inductive aref : Type := ArrA | ArrB.

Definition aref_eqb (r1 r2 : aref) : bool :=
  match r1, r2 with
  | ArrA, ArrA | ArrB, ArrB => true
  | _, _ => false
  end.

Record heap : Type := mkHeap { arrA : matrix; arrB : matrix }.

Definition load (h : heap) (r : aref) : matrix :=
  match r with ArrA => arrA h | ArrB => arrB h end.

Definition store (h : heap) (r : aref) (m : matrix) : heap :=
  match r with
  | ArrA => mkHeap m (arrB h)
  | ArrB => mkHeap (arrA h) m
  end.

(** [m.shape] of a two-dimensional array held as a list of rows. *)
Definition shape (m : matrix) : nat * nat :=
  (length m, length (hd [] m)).

Fixpoint list_set {A : Type} (l : list A) (i : nat) (v : A) : list A :=
  match l, i with
  | [], _ => []
  | _ :: t, O => v :: t
  | x :: t, S i' => x :: list_set t i' v
  end.

Definition get2 (m : matrix) (j d : nat) : option Q :=
  match nth_error m j with
  | Some row => nth_error row d
  | None => None
  end.

Definition set2 (m : matrix) (j d : nat) (v : Q) : matrix :=
  match nth_error m j with
  | Some row => list_set m j (list_set row d v)
  | None => m
  end.

(** ** The ghost trace of coordinate updates *)

Inductive update_kind : Type := AttractHead | AttractTail | Repulse.

Record update : Type := mkUpdate {
  u_kind : update_kind;
  u_epoch : nat;      (* the epoch [n] of the kernel call *)
  u_array : aref;     (* the array written *)
  u_row : nat;        (* the row written *)
  u_dim : nat;        (* the column written *)
  u_disp : Q;         (* displacement before scaling *)
  u_alpha : Q;        (* learning rate *)
  u_scale : Q         (* endpoint scale factor *)
}.

(** ** Program state *)

Record state : Type := mkState {
  st_heap : heap;
  epoch_of_next_sample : list xfloat;
  epoch_of_next_negative_sample : list xfloat;
  rng_state : list Z;
  trace : list update
}.

Definition M (A : Type) : Type := state -> outcome A * state.

Definition ret {A : Type} (a : A) : M A := fun s => (Ok a, s).

Definition bind {A B : Type} (m : M A) (f : A -> M B) : M B :=
  fun s =>
    match m s with
    | (Ok a, s') => f a s'
    | (Raise e, s') => (Raise e, s')
    | (OutOfFuel, s') => (OutOfFuel, s')
    end.

Definition raise {A : Type} (e : exn) : M A := fun s => (Raise e, s).
Definition diverge {A : Type} : M A := fun s => (OutOfFuel, s).

Declare Scope monad_scope.
Delimit Scope monad_scope with monad.
Notation "x <- m ;; k" := (bind m (fun x => k))
  (at level 61, m at next level, right associativity) : monad_scope.
Notation "m ;; k" := (bind m (fun _ => k))
  (at level 61, right associativity) : monad_scope.
Open Scope monad_scope.

(** [for x in xs: body(x)] *)
Fixpoint for_each {A : Type} (xs : list A) (body : A -> M unit) : M unit :=
  match xs with
  | [] => ret tt
  | x :: xs' => body x ;; for_each xs' body
  end.

(** [range(n)] *)
Definition range (n : nat) : list nat := seq 0 n.

(** Lift an option to the monad: [None] is an index out of range. *)
Definition index {A : Type} (o : option A) : M A :=
  match o with
  | Some a => ret a
  | None => raise IndexError
  end.

(** ** State access *)

(** [arr[j][d]] *)
Definition read_coord (r : aref) (j d : nat) : M Q :=
  fun s => index (get2 (load (st_heap s) r) j d) s.

(** [arr[j]]: taking a row view only checks the row index. *)
Definition row_view (r : aref) (j : nat) : M vec :=
  fun s => index (nth_error (load (st_heap s) r) j) s.

(** The heap after [arr[j][d] = v]. *)
Definition heap_set (h : heap) (r : aref) (j d : nat) (v : Q) : heap :=
  store h r (set2 (load h r) j d v).

(** [arr[j][d] += g * alpha * scale] during epoch [n], recorded in the
    trace. *)
Definition iadd_coord (kind : update_kind) (n : nat) (r : aref) (j d : nat)
    (g alpha scale : Q) : M unit :=
  fun s =>
    match get2 (load (st_heap s) r) j d with
    | Some old =>
        (Ok tt,
         mkState (heap_set (st_heap s) r j d (old + g * alpha * scale))
                 (epoch_of_next_sample s)
                 (epoch_of_next_negative_sample s)
                 (rng_state s)
                 (trace s ++ [mkUpdate kind n r j d g alpha scale]))
    | None => (Raise IndexError, s)
    end.

Definition get_next_sample (i : nat) : M xfloat :=
  fun s => index (nth_error (epoch_of_next_sample s) i) s.

Definition get_next_negative_sample (i : nat) : M xfloat :=
  fun s => index (nth_error (epoch_of_next_negative_sample s) i) s.

(** [epoch_of_next_sample[i] += v] *)
Definition iadd_next_sample (fl : Q -> xfloat) (i : nat) (v : Q) : M unit :=
  fun s =>
    match nth_error (epoch_of_next_sample s) i with
    | Some old =>
        (Ok tt,
         mkState (st_heap s)
                 (list_set (epoch_of_next_sample s) i (fadd fl old (Fin v)))
                 (epoch_of_next_negative_sample s)
                 (rng_state s)
                 (trace s))
    | None => (Raise IndexError, s)
    end.

(** [epoch_of_next_negative_sample[i] += v] *)
Definition iadd_next_negative_sample (fl : Q -> xfloat) (i : nat)
    (v : xfloat) : M unit :=
  fun s =>
    match nth_error (epoch_of_next_negative_sample s) i with
    | Some old =>
        (Ok tt,
         mkState (st_heap s)
                 (epoch_of_next_sample s)
                 (list_set (epoch_of_next_negative_sample s) i
                    (fadd fl old v))
                 (rng_state s)
                 (trace s))
    | None => (Raise IndexError, s)
    end.

(** Scalar float division in the kernel: a zero divisor raises. *)
Definition fdiv (x y : Q) : M Q :=
  if Qeq_bool y 0 then raise ZeroDivisionError else ret (x / y).

Definition xdiv (fl : Q -> xfloat) (x y : xfloat) : M xfloat :=
  if xis_zero y then raise ZeroDivisionError else ret (fquot fl x y).

(** ** Helpers imported from [umato.utils] *)

(** Modelled from the spec: [clip] of [umato.utils] is not among the
    sources; the spec gives the per-dimension displacement as
    [clip(coeff * (current_d - other_d), +-10)], a value cut to the interval
    from [-cutoff] to [cutoff]. *)
Definition clip (val cutoff : Q) : Q :=
  if negb (Qle_bool val cutoff) then cutoff
  else if negb (Qle_bool (- cutoff) val) then - cutoff
  else val.

(** Modelled from the spec: [rdist] of [umato.utils] is not among the
    sources; the spec calls it the squared Euclidean distance between the
    two positions. *)
Definition rdist (x y : vec) : Q :=
  fold_left (fun acc p => acc + (fst p - snd p) * (fst p - snd p))
            (combine x y) 0.

(** ** The Local Layout Optimizer *)

Section Layout.

(** [pow] on floats with a real exponent is left abstract. *)
Variable pow : Q -> Q -> Q.

(** [tau_rand_int] of [umato.utils] is not among the sources: a
    deterministic generator that returns an integer and advances the state
    vector. *)
Variable tau_rand_int : list Z -> Z * list Z.

(** The bound on the iterations of one [while True] loop. *)
Variable fuel : nat.

(** The rounding of the counter arithmetic, and the integer that [int(x)]
    yields for an [x] that no 64-bit integer represents. *)
Variable fl : Q -> xfloat.
Variable int_of_unrepresentable : xfloat -> Z.

Definition draw (_ : unit) : M Z :=
  fun s =>
    let (r, rng') := tau_rand_int (rng_state s) in
    (Ok r,
     mkState (st_heap s) (epoch_of_next_sample s)
             (epoch_of_next_negative_sample s) rng' (trace s)).

Section LocalInputs.

Variable head_embedding : aref.
Variable tail_embedding : aref.
Variable head : list nat.
Variable tail : list nat.
Variable hub_info : list Z.
Variable n_vertices : nat.
Variable epochs_per_sample : list Q.
Variable a : Q.
Variable b : Q.
Variable gamma : Q.

Section SingleEpoch.

Variable dim : nat.
Variable move_other : bool.
Variable alpha : Q.
Variable epochs_per_negative_sample : list xfloat.
Variable n : nat.

(** Lines 177-181: the attractive gradient coefficient. *)
Definition attract_coeff (dist_squared : Q) : M Q :=
  if Qgt0 dist_squared then
    fdiv ((-2) * a * b * pow dist_squared (b - 1))
         (a * pow dist_squared b + 1)
  else ret 0.

(** Lines 186-194: [(grad_current, grad_other)] from the hub label of the
    tail vertex. *)
Definition hub_scale (label : Z) : Q * Q :=
  if (label =? 1)%Z then (0.01, 0.01)
  else if (label =? 2)%Z then (0.01, 0.001)
  else (0, 0).

(** Line 184. *)
Definition attract_grad_d (grad_coeff cur oth : Q) : Q :=
  clip (grad_coeff * (cur - oth)) 10.

(** Lines 183-199: the body of the attractive loop over [d]. *)
Definition attract_dim (j k : nat) (grad_coeff : Q) (d : nat) : M unit :=
  cur <- read_coord head_embedding j d ;;
  oth <- read_coord tail_embedding k d ;;
  let grad_d := attract_grad_d grad_coeff cur oth in
  label <- index (nth_error hub_info k) ;;
  let grad_current := fst (hub_scale label) in
  let grad_other := snd (hub_scale label) in
  iadd_coord AttractHead n head_embedding j d grad_d alpha grad_current ;;
  if move_other then
    iadd_coord AttractTail n tail_embedding k d (- grad_d) alpha grad_other
  else ret tt.

(** Lines 208-211: draw until a vertex with a positive hub label comes. *)
Fixpoint draw_hub (steps : nat) : M nat :=
  match steps with
  | O => diverge
  | S steps' =>
      r <- draw tt ;;
      if (n_vertices =? 0)%nat then raise ZeroDivisionError
      else
        let k := Z.to_nat (r mod Z.of_nat n_vertices) in
        label <- index (nth_error hub_info k) ;;
        if (label >? 0)%Z then ret k else draw_hub steps'
  end.

(** Lines 217-220. *)
Definition repulse_coeff (dist_squared : Q) : M Q :=
  fdiv (2 * gamma * b)
       ((0.001 + dist_squared) * (a * pow dist_squared b + 1)).

(** Lines 227-230. *)
Definition repulse_grad_d (grad_coeff : Q) (j k d : nat) : M Q :=
  if Qgt0 grad_coeff then
    cur <- read_coord head_embedding j d ;;
    oth <- read_coord tail_embedding k d ;;
    ret (clip (grad_coeff * (cur - oth)) 10)
  else ret 10.

(** Lines 226-232: the body of the repulsive loop over [d]; [grad_neg] is
    the constant 0.001 of line 188. *)
Definition repulse_dim (j k : nat) (grad_coeff : Q) (d : nat) : M unit :=
  grad_d <- repulse_grad_d grad_coeff j k d ;;
  iadd_coord Repulse n head_embedding j d grad_d alpha 0.001.

(** Lines 213-232: one negative sample against the drawn vertex [k]. *)
Definition repulse (j k : nat) : M unit :=
  other <- row_view tail_embedding k ;;
  current <- row_view head_embedding j ;;
  let dist_squared := rdist current other in
  if Qgt0 dist_squared then
    grad_coeff <- repulse_coeff dist_squared ;;
    for_each (range dim) (repulse_dim j k grad_coeff)
  else if (j =? k)%nat then ret tt            (* continue *)
  else for_each (range dim) (repulse_dim j k 0).

(** Lines 207-232: the body of the loop over [p]. *)
Definition negative_sample (j : nat) (p : nat) : M unit :=
  k <- draw_hub fuel ;;
  repulse j k.

(** Lines 169-236: the edge [i] fires.  The epoch number [n] is an integer
    below 2^53 and converts to a double exactly; [n_neg_samples] is a
    64-bit integer and its conversion rounds. *)
Definition fire_edge (i : nat) : M unit :=
  j <- index (nth_error head i) ;;
  k <- index (nth_error tail i) ;;
  current <- row_view head_embedding j ;;
  other <- row_view tail_embedding k ;;
  let dist_squared := rdist current other in
  grad_coeff <- attract_coeff dist_squared ;;
  for_each (range dim) (attract_dim j k grad_coeff) ;;
  eps_i <- index (nth_error epochs_per_sample i) ;;
  iadd_next_sample fl i eps_i ;;
  next_neg <- get_next_negative_sample i ;;
  epns_i <- index (nth_error epochs_per_negative_sample i) ;;
  quo <- xdiv fl (fsub fl (Fin (float_of_nat n)) next_neg) epns_i ;;
  let n_neg_samples := int64_of_float int_of_unrepresentable quo in
  for_each (range (Z.to_nat n_neg_samples)) (negative_sample j) ;;
  iadd_next_negative_sample fl i
    (fmul fl (fl (float_of_Z n_neg_samples)) epns_i).

(** Lines 167-168: the body of the loop over the edges. *)
Definition edge_step (i : nat) : M unit :=
  next <- get_next_sample i ;;
  if xle_bool next (Fin (float_of_nat n)) then fire_edge i else ret tt.

(** [_nn_layout_optimize_single_epoch]; [numba.prange] runs as [range]
    ([parallel=False]). *)
Definition nn_layout_optimize_single_epoch : M unit :=
  for_each (range (length epochs_per_sample)) edge_step.

End SingleEpoch.

(** *** The driver *)

Variable n_epochs : nat.
Variable initial_alpha : Q.
Variable negative_sample_rate : Q.
Variable verbose : bool.

(** Line 132. *)
Definition next_alpha (n : nat) : Q :=
  initial_alpha * (1 - float_of_nat n / float_of_nat n_epochs).

(** Lines 103-105: the driver's fresh counter arrays. *)
Definition epochs_per_negative_sample_of : list xfloat :=
  map (fun e => np_divide fl e negative_sample_rate) epochs_per_sample.

Definition reset_counters : M unit :=
  fun s =>
    (Ok tt,
     mkState (st_heap s) (map Fin epochs_per_sample)
             epochs_per_negative_sample_of (rng_state s) (trace s)).

(** Lines 110-141.  The loop carries the local variable [alpha] and whether
    the name [plot_tmptmp] has been bound by the import of line 135.  The
    plotting and printing themselves are outside the model. *)
Fixpoint epoch_loop (dim : nat) (move_other : bool) (ns : list nat)
    (alpha : Q) (plot_bound : bool) : M (Q * bool) :=
  match ns with
  | [] => ret (alpha, plot_bound)
  | n :: ns' =>
      nn_layout_optimize_single_epoch dim move_other alpha
        epochs_per_negative_sample_of n ;;
      epoch_loop dim move_other ns' (next_alpha n)
        (plot_bound || (verbose && (n mod 10 =? 0)%nat))
  end.

(** Lines 99-141 with the loop cut after its first [k] iterations. *)
Definition run_first_epochs (k : nat) : M (Q * bool) :=
  fun s =>
    let dim := snd (shape (load (st_heap s) head_embedding)) in
    let move_other :=
      (fst (shape (load (st_heap s) head_embedding))
       =? fst (shape (load (st_heap s) tail_embedding)))%nat in
    (reset_counters ;;
     epoch_loop dim move_other (range k) initial_alpha false) s.

(** Lines 99-141: [nn_layout_optimize] up to the end of its loop. *)
Definition run_epochs : M (Q * bool) := run_first_epochs n_epochs.

(** [nn_layout_optimize]: line 143 looks the name [plot_tmptmp] up before
    line 144 returns. *)
Definition nn_layout_optimize : M aref :=
  r <- run_epochs ;;
  if snd r then ret head_embedding else raise NameError.

End LocalInputs.
End Layout.

(** ** The Global Layout Refiner *)

(** *** numpy operations on nested lists *)

Definition tensor3 := list matrix.

Fixpoint zip_with {A B C : Type} (f : A -> B -> C) (xs : list A)
    (ys : list B) : list C :=
  match xs, ys with
  | x :: xs', y :: ys' => f x y :: zip_with f xs' ys'
  | _, _ => []
  end.

(** One axis of numpy broadcasting: an axis of length one is stretched.
    Shapes that numpy would refuse are not told apart. *)
Definition broadcast {A B C : Type} (f : A -> B -> C) (xs : list A)
    (ys : list B) : list C :=
  match xs, ys with
  | [x], _ => map (f x) ys
  | _, [y] => map (fun x => f x y) xs
  | _, _ => zip_with f xs ys
  end.

Definition bop2 (f : Q -> Q -> Q) : matrix -> matrix -> matrix :=
  broadcast (broadcast f).

Definition bop3 (f : Q -> Q -> Q) : tensor3 -> tensor3 -> tensor3 :=
  broadcast (broadcast (broadcast f)).

(** An operation between a scalar and an array. *)
Definition smap (f : Q -> Q) (m : matrix) : matrix := map (map f) m.

Definition np_square (m : matrix) : matrix := smap (fun x => x * x) m.

Definition expand_dims_0 (m : matrix) : tensor3 := [m].
Definition expand_dims_1 (m : matrix) : tensor3 := map (fun r => [r]) m.
Definition expand_dims_2 (m : matrix) : tensor3 :=
  map (map (fun x => [x])) m.

Definition sumQ (l : list Q) : Q := fold_left Qplus l 0.

(** [np.fill_diagonal(m, v)] *)
Definition fill_diagonal (m : matrix) (v : Q) : matrix :=
  zip_with (fun i row => list_set row i v) (range (length m)) m.

Definition column (m : matrix) (j : nat) : vec :=
  map (fun row => nth j row 0) m.

(** [np.dot] of two matrices. *)
Definition dot (x y : matrix) : matrix :=
  map (fun xi =>
         map (fun j => sumQ (zip_with Qmult xi (column y j)))
             (range (length (hd [] y))))
      x.

(** [np.sum(m, axis=1, keepdims=True)] *)
Definition sum_axis1_keepdims (m : matrix) : matrix :=
  map (fun row => [sumQ row]) m.

(** [np.sum(t, axis=1)] of a three-dimensional array. *)
Definition sum_axis1 (t : tensor3) : matrix :=
  map (fun ti => map (fun d => sumQ (column ti d))
                     (range (length (hd [] ti))))
      t.

Section GlobalRefiner.

Variable pow : Q -> Q -> Q.

(** [adjacency_matrix] of [umato.utils] is not among the sources: the
    matrix of pairwise distances of the rows. *)
Variable adjacency_matrix : matrix -> matrix.

Variable P : matrix.
Variable a : Q.
Variable b : Q.
Variable alpha : Q.

Definition np_power (m : matrix) (e : Q) : matrix :=
  smap (fun x => pow x e) m.

(** Line 46. *)
Definition d_squared_of (Z : matrix) : matrix :=
  np_square (adjacency_matrix Z).

(** Line 47. *)
Definition z_diff_of (Z : matrix) : tensor3 :=
  bop3 Qminus (expand_dims_1 Z) (expand_dims_0 Z).

(** Line 48. *)
Definition d_inverse_of (d_squared : matrix) : tensor3 :=
  expand_dims_2
    (np_power (smap (fun x => 1 + x) (smap (fun x => a * x)
                                           (np_power d_squared b)))
              (-1)).

(** Lines 51-54.  The quotients are exact where no row sum is zero; a zero
    row sum, which gives NaN or an infinity in numpy, is excluded where a
    property depends on the quotient. *)
Definition Q_of (d_squared : matrix) : matrix :=
  let Q0 := np_power (smap (fun x => 0.001 + x) d_squared) (-1) in
  let Q1 := fill_diagonal Q0 0 in
  let Q2 := dot (smap (fun x => 1 - x) P) Q1 in
  bop2 Qdiv Q2 (sum_axis1_keepdims Q2).

(** Lines 57-59. *)
Definition grad_of (d_squared Qm : matrix) : tensor3 :=
  expand_dims_2
    (bop2 Qminus
       (bop2 Qmult
          (smap (fun x => 2 * a * b * x) P)
          (np_power (smap (fun x => 1e-12 + x) d_squared) (b - 1)))
       (smap (fun x => 2 * b * x) Qm)).

(** Lines 46-61: one iteration, as the new value of [Z]. *)
Definition global_iteration (Z : matrix) : matrix :=
  let d_squared := d_squared_of Z in
  let z_diff := z_diff_of Z in
  let d_inverse := d_inverse_of d_squared in
  let Qm := Q_of d_squared in
  let grad := grad_of d_squared Qm in
  let dZ := sum_axis1 (bop3 Qmult (bop3 Qmult grad z_diff) d_inverse) in
  bop2 Qminus Z (smap (fun x => alpha * x) dZ).

(** [optimize_global_layout]: the logging of [verbose] and the plotting of
    [savefig] do not touch [Z] and are left out. *)
Definition optimize_global_layout (max_iter : nat) (Z : matrix) : matrix :=
  fold_left (fun Z' _ => global_iteration Z') (range max_iter) Z.

(** *** The iteration in the words of the specification *)

Definition at2 (m : matrix) (i j : nat) : Q := nth j (nth i m []) 0.

Definition sum_over (N : nat) (f : nat -> Q) : Q := sumQ (map f (range N)).

Section SpecIteration.

Variable Z : matrix.
Let N := length Z.

(** The pairwise squared distances [D2] of the current positions. *)
Definition spec_D2 (i j : nat) : Q := rdist (nth i Z []) (nth j Z []).

(** [(0.001 + D2)^-1] with the diagonal zeroed. *)
Definition spec_recip (i j : nat) : Q :=
  if (i =? j)%nat then 0 else / (0.001 + spec_D2 i j).

(** Left-multiplied by [1 - P]. *)
Definition spec_pressure (i j : nat) : Q :=
  sum_over N (fun k => (1 - at2 P i k) * spec_recip k j).

(** Row-normalized to sum 1. *)
Definition spec_Q (i j : nat) : Q :=
  spec_pressure i j / sum_over N (spec_pressure i).

(** [2ab P (1e-12 + D2)^(b-1) - 2b Q] *)
Definition spec_grad (i j : nat) : Q :=
  2 * a * b * at2 P i j * pow (1e-12 + spec_D2 i j) (b - 1)
  - 2 * b * spec_Q i j.

(** The kernel value [(1 + a D2^b)^-1]. *)
Definition spec_kernel (i j : nat) : Q :=
  / (1 + a * pow (spec_D2 i j) b).

(** Summed over the neighbour axis. *)
Definition spec_dZ (i d : nat) : Q :=
  sum_over N (fun j =>
    spec_grad i j * (at2 Z i d - at2 Z j d) * spec_kernel i j).

Definition spec_iteration : matrix :=
  map (fun i =>
         map (fun d => at2 Z i d - alpha * spec_dZ i d)
             (range (length (nth i Z []))))
      (range N).

End SpecIteration.

End GlobalRefiner.

(** ** The density cost logged by the refiner *)

Section Density.

(** [np.exp] is left abstract. *)
Variable exp : Q -> Q.

(** [calc_DTM], lines 25-27: the row sums of [exp(-(adj ** 2) / sigma)],
    divided by their total.  [sigma] and the total are not zero where the
    properties below use the quotients. *)
Definition calc_DTM (adj : matrix) (sigma : Q) : vec :=
  let density :=
    map sumQ
        (smap exp
           (smap (fun x => x / sigma)
              (smap Qopp (smap (fun x => x * x) adj)))) in
  map (fun x => x / sumQ density) density.

(** [get_DTM], lines 19-22. *)
Definition get_DTM (adj_x adj_z : matrix) (sigma : Q) : Q :=
  let density_x := calc_DTM adj_x sigma in
  let density_z := calc_DTM adj_z sigma in
  sumQ (map Qabs (broadcast Qminus density_x density_z)).

End Density.

(** ** Notions used to state the properties *)

(** The learning rate the claim gives to epoch [n] of [N]. *)
Definition alpha_claimed (initial_alpha : Q) (N n : nat) : Q :=
  initial_alpha * (1 - float_of_nat n / float_of_nat N).

(** The learning rate epoch [n] receives from the loop: the value line 132
    left behind in the epoch before, [initial_alpha] in the first. *)
Definition alpha_used (initial_alpha : Q) (N n : nat) : Q :=
  match n with
  | O => initial_alpha
  | S m => alpha_claimed initial_alpha N m
  end.

(** The trace [t'] continues [t] with entries that all satisfy [P]. *)
Definition extends_with (P : update -> Prop) (t t' : list update) : Prop :=
  exists new, t' = t ++ new /\ Forall P new.

(** Two arrays, or heaps, hold equal coordinates. *)
Definition matrix_equiv (m m' : matrix) : Prop :=
  Forall2 (Forall2 Qeq) m m'.

Definition heap_equiv (h h' : heap) : Prop :=
  matrix_equiv (arrA h) (arrA h') /\ matrix_equiv (arrB h) (arrB h').

(** Pointwise order of the two counter arrays of two states. *)
Definition counters_le (s s' : state) : Prop :=
  Forall2 xle (epoch_of_next_sample s) (epoch_of_next_sample s')
  /\ Forall2 xle (epoch_of_next_negative_sample s)
                 (epoch_of_next_negative_sample s').

(** No vertex is eligible for negative sampling. *)
Definition no_hub (hub_info : list Z) : Prop :=
  Forall (fun label => (label <= 0)%Z) hub_info.

(** A matrix with [rows] rows of [cols] entries each. *)
Definition has_shape (rows cols : nat) (m : matrix) : Prop :=
  length m = rows /\ Forall (fun r => length r = cols) m.

(** ** Concrete instances of the abstract parts, for the examples *)

(** A power function that is exact on integer exponents. *)
Definition pow_int (x y : Q) : Q := Qpower x (Qfloor y).

(** A generator that returns the first word of its state and counts on. *)
Definition rng_counter (s : list Z) : Z * list Z :=
  (hd 0%Z s, map Z.succ s).

(** Pairwise city-block distances (the Euclidean ones in one dimension). *)
Definition adjacency_l1 (Z : matrix) : matrix :=
  map (fun zi =>
         map (fun zj => sumQ (zip_with (fun x y => Qabs (x - y)) zi zj)) Z)
      Z.

(** Exact arithmetic: the rounding that rounds nothing. *)
Definition fl_exact (q : Q) : xfloat := Fin q.

(** The nearest integer, ties to the even one. *)
Definition Qround_even (x : Q) : Z :=
  let f := Qfloor x in
  match (x - inject_Z f ?= 1 # 2)%Q with
  | Lt => f
  | Gt => (f + 1)%Z
  | Eq => if Z.even f then f else (f + 1)%Z
  end.

(** The exponent [e] with [2^e <= x < 2^(e+1)], for a positive [x]. *)
Definition Qlog2 (x : Q) : Z :=
  let l := (Z.log2 (Qnum x) - Z.log2 (Zpos (Qden x)))%Z in
  if Qle_bool (2 ^ l)%Q x then l else (l - 1)%Z.

(** The spacing of the doubles around a positive [x]: 53 significant bits,
    and [2^-1074] at the least. *)
Definition ulp (x : Q) : Q := 2 ^ Z.max (Qlog2 x - 52) (- 1074).

(** A positive [x] rounded to 53 significant bits, ties to even. *)
Definition nearest_double (x : Q) : Q :=
  inject_Z (Qround_even (x / ulp x)) * ulp x.

(** IEEE 754 binary64, round to nearest, ties to even; a value that rounds
    to [2^1024] or more overflows to an infinity. *)
Definition binary64 (q : Q) : xfloat :=
  match q ?= 0 with
  | Eq => Fin 0
  | Gt =>
      let v := nearest_double q in
      if Qle_bool (2 ^ 1024) v then PInf else Fin (Qred v)
  | Lt =>
      let v := nearest_double (- q) in
      if Qle_bool (2 ^ 1024) v then NInf else Fin (Qred (- v))
  end.

(** The x86-64 conversion: the "integer indefinite" value [-2^63] for
    everything that is not representable. *)
Definition int64_indefinite (x : xfloat) : Z := (- 2 ^ 63)%Z.

(** Two points on a line held in one array, and a start state. *)
Definition heap_line : heap := mkHeap [[0]; [1]] [].
Definition state_line : state := mkState heap_line [] [] [0%Z] [].

(** Four points on a square held in one array. *)
Definition heap_square : heap :=
  mkHeap [[0; 0]; [1; 0]; [1; 1]; [0; 1]] [].
Definition state_square : state := mkState heap_square [] [] [0%Z] [].

(** Two one-point arrays with different coordinates. *)
Definition heap_split : heap := mkHeap [[0]] [[1]].
Definition state_split : state := mkState heap_split [] [] [0%Z] [].

(** What every coordinate update of one kernel call looks like. *)
Definition kernel_update (alpha : Q) (n : nat) (e : update) : Prop :=
  u_epoch e = n /\ u_alpha e = alpha /\ Qabs (u_disp e) <= 10.

(** The heap after [arr[j][d] += v]; an index out of range changes
    nothing. *)
Definition heap_iadd (h : heap) (r : aref) (j d : nat) (v : Q) : heap :=
  match get2 (load h r) j d with
  | Some old => heap_set h r j d (old + v)
  | None => h
  end.

(** ** Parts of the state *)

(** The counters and the generator: all that a coordinate update leaves
    alone. *)
Definition counters_rng (s : state)
  : list xfloat * list xfloat * list Z :=
  (epoch_of_next_sample s, epoch_of_next_negative_sample s, rng_state s).

(** All but the generator. *)
Definition all_but_rng (s : state)
  : heap * list xfloat * list xfloat * list update :=
  (st_heap s, epoch_of_next_sample s, epoch_of_next_negative_sample s,
   trace s).

Definition counters (s : state) : list xfloat * list xfloat :=
  (epoch_of_next_sample s, epoch_of_next_negative_sample s).

(** ** The counter arithmetic of a fired edge *)

(** Lines 203-205: the number of negative samples of an edge that fires in
    epoch [n] with next-negative-sample counter [next_neg] and period
    [epns_i]. *)
Definition n_neg_samples_at (fl : Q -> xfloat)
    (int_of_unrepresentable : xfloat -> Z) (n : nat)
    (next_neg epns_i : xfloat) : Z :=
  int64_of_float int_of_unrepresentable
    (fquot fl (fsub fl (Fin (float_of_nat n)) next_neg) epns_i).

(** Lines 234-236: the counter that the edge leaves behind. *)
Definition next_negative_sample_after (fl : Q -> xfloat)
    (int_of_unrepresentable : xfloat -> Z) (n : nat)
    (next_neg epns_i : xfloat) : xfloat :=
  fadd fl next_neg
    (fmul fl
       (fl (float_of_Z
              (n_neg_samples_at fl int_of_unrepresentable n next_neg
                 epns_i)))
       epns_i).

Definition finite (x : xfloat) : Prop := exists q, x = Fin q.

(** A value that [fl] leaves alone: a double. *)
Definition is_double (fl : Q -> xfloat) (x : xfloat) : Prop :=
  match x with
  | Fin q => fl q = Fin q
  | _ => True
  end.

(** What the counters of a run satisfy under a monotone rounding: they
    hold doubles, and no next-sample counter is NaN. *)
Definition counters_doubles (fl : Q -> xfloat) (s : state) : Prop :=
  Forall (fun x => is_double fl x /\ x <> NaN) (epoch_of_next_sample s)
  /\ Forall (is_double fl) (epoch_of_next_negative_sample s).

(** What one epoch [n] does to the counters, from [s] to [s']: no
    next-sample counter is lowered; a next-negative-sample counter stays as
    it is or becomes what lines 203-205 and 234-236 make of it, the period
    of the edge not being zero. *)
Definition epoch_counters_step (fl : Q -> xfloat)
    (int_of_unrepresentable : xfloat -> Z)
    (epochs_per_negative_sample : list xfloat) (n : nat) (s s' : state)
  : Prop :=
  Forall2 xle (epoch_of_next_sample s) (epoch_of_next_sample s')
  /\ length (epoch_of_next_negative_sample s')
     = length (epoch_of_next_negative_sample s)
  /\ forall i c c',
       nth_error (epoch_of_next_negative_sample s) i = Some c ->
       nth_error (epoch_of_next_negative_sample s') i = Some c' ->
       c' = c
       \/ exists p,
            nth_error epochs_per_negative_sample i = Some p
            /\ xis_zero p = false
            /\ c' = next_negative_sample_after fl int_of_unrepresentable n
                      c p.

(** The next-sample counter of an edge with period [e] after epoch 0: the
    edge is due when [e <= 0], and line 201 then adds [e] to the counter. *)
Definition advanced_if_due (fl : Q -> xfloat) (e : Q) : xfloat :=
  if Qle_bool e 0 then fadd fl (Fin e) (Fin e) else Fin e.

(** ** Inputs on which the kernel finds every index in range *)

(** Every edge has a head and a tail; they are rows of the two arrays, the
    tail has a hub label, and no row is shorter than [dim], the row length
    of [head_embedding]. *)
Definition indices_in_range (h : heap) (head_embedding tail_embedding : aref)
    (head tail : list nat) (hub_info : list Z) (n_edges : nat) : Prop :=
  length head = n_edges
  /\ length tail = n_edges
  /\ Forall (fun j => (j < length (load h head_embedding))%nat) head
  /\ Forall (fun k => (k < length (load h tail_embedding))%nat
                      /\ (k < length hub_info)%nat) tail
  /\ Forall (fun row => (snd (shape (load h head_embedding))
                         <= length row)%nat)
            (load h head_embedding)
  /\ Forall (fun row => (snd (shape (load h head_embedding))
                         <= length row)%nat)
            (load h tail_embedding).

(** ** Arrays given by their entries *)

(** The [rows] x [cols] matrix with entry [F i j] at row [i], column [j]. *)
Definition tabulate (rows cols : nat) (F : nat -> nat -> Q) : matrix :=
  map (fun i => map (fun j => F i j) (range cols)) (range rows).

Definition tabulate3 (rows cols depth : nat) (F : nat -> nat -> nat -> Q)
  : tensor3 :=
  map (fun i => tabulate cols depth (F i)) (range rows).

(** Two points on a line and the similarity of a single pair. *)
Definition Z_pair : matrix := [[0]; [1]].
Definition P_pair : matrix := [[0; 1]; [1; 0]].

(** A weaker similarity of the pair. *)
Definition P_half : matrix := [[0; 1 # 2]; [1 # 2; 0]].

(** ** Specifications of monadic code *)

(** A Hoare triple with a postcondition [Q] for normal return and a
    postcondition [E] for a raise or a loop that does not end. *)
Definition hoare {A : Type} (P : state -> Prop) (m : M A)
    (Q : A -> state -> Prop) (E : state -> Prop) : Prop :=
  forall s, P s ->
    match m s with
    | (Ok a, s') => Q a s'
    | (_, s') => E s'
    end.

(** The operation leaves the part [proj] of the state alone. *)
Definition preserves {A B : Type} (proj : state -> B) (m : M A) : Prop :=
  forall s, proj (snd (m s)) = proj s.

(** Operations that do not change the state at all. *)
Definition pure {A : Type} (m : M A) : Prop := forall s, snd (m s) = s.


(** The row lengths of an array: what an update in place cannot change. *)
Definition skeleton (m : matrix) : list nat := map (@length Q) m.

(** The array written and the scale factor of an update, by its kind:
    lines 189-199 and 232. *)
Definition update_target (head_embedding tail_embedding : aref)
    (move_other : bool) (e : update) : Prop :=
  match u_kind e with
  | AttractHead =>
      u_array e = head_embedding /\ (u_scale e = 0.01 \/ u_scale e = 0)
  | AttractTail =>
      u_array e = tail_embedding /\ move_other = true
      /\ (u_scale e = 0.01 \/ u_scale e = 0.001 \/ u_scale e = 0)
  | Repulse => u_array e = head_embedding /\ u_scale e = 0.001
  end.

(** Lines 51-53: [Q] before the division by its row sums. *)
Definition pressure_of (pow : Q -> Q -> Q) (P d_squared : matrix) : matrix :=
  dot (smap (fun x => 1 - x) P)
      (fill_diagonal
         (np_power pow (smap (fun x => 0.001 + x) d_squared) (-1)) 0).

(** A two-point array and a one-point array: embeddings of different sizes. *)
Definition heap_uneven : heap := mkHeap [[0]; [1]] [[1]].
Definition state_uneven : state := mkState heap_uneven [] [] [0%Z] [].

(** Line 26: the densities of [calc_DTM] before the division by their
    total. *)
Definition density_of (exp : Q -> Q) (adj : matrix) (sigma : Q) : vec :=
  map sumQ
      (smap exp
         (smap (fun x => x / sigma)
            (smap Qopp (smap (fun x => x * x) adj)))).

(** An exponential that is good enough for the examples. *)
Definition exp_one (x : Q) : Q := 1.


(** * Reasoning about monadic code *)

(** ** A Hoare logic with a postcondition for abrupt termination *)

Lemma hoare_ret {A : Type} (P : state -> Prop) (a : A)
    (Q : A -> state -> Prop) (E : state -> Prop) :
  (forall s, P s -> Q a s) -> hoare P (ret a) Q E.
Proof. intros H s Hs. cbn. auto. Qed.

Lemma hoare_raise {A : Type} (P : state -> Prop) (e : exn)
    (Q : A -> state -> Prop) (E : state -> Prop) :
  (forall s, P s -> E s) -> hoare P (raise e) Q E.
Proof. intros H s Hs. cbn. auto. Qed.

Lemma hoare_diverge {A : Type} (P : state -> Prop)
    (Q : A -> state -> Prop) (E : state -> Prop) :
  (forall s, P s -> E s) -> hoare P diverge Q E.
Proof. intros H s Hs. cbn. auto. Qed.

Lemma hoare_bind {A B : Type} (P : state -> Prop) (m : M A) (f : A -> M B)
    (Q1 : A -> state -> Prop) (Q : B -> state -> Prop) (E : state -> Prop) :
  hoare P m Q1 E ->
  (forall a, hoare (Q1 a) (f a) Q E) ->
  hoare P (bind m f) Q E.
Proof.
  intros Hm Hf s Hs. unfold bind. specialize (Hm s Hs).
  destruct (m s) as [[a | e | ] s1]; auto.
  apply (Hf a s1 Hm).
Qed.

Lemma hoare_conseq {A : Type} (P P' : state -> Prop) (m : M A)
    (Q Q' : A -> state -> Prop) (E E' : state -> Prop) :
  hoare P' m Q' E' ->
  (forall s, P s -> P' s) ->
  (forall a s, Q' a s -> Q a s) ->
  (forall s, E' s -> E s) ->
  hoare P m Q E.
Proof.
  intros H HP HQ HE s Hs. specialize (H s (HP s Hs)).
  destruct (m s) as [[a | e | ] s1]; auto.
Qed.

Lemma hoare_pre {A : Type} (P : state -> Prop) (phi : Prop) (m : M A)
    (Q : A -> state -> Prop) (E : state -> Prop) :
  (phi -> hoare P m Q E) ->
  hoare (fun s => P s /\ phi) m Q E.
Proof. intros H s [Hs Hphi]. apply H; auto. Qed.

Lemma hoare_for_each {A : Type} (I : state -> Prop) (xs : list A)
    (body : A -> M unit) (E : state -> Prop) :
  (forall x, In x xs -> hoare I (body x) (fun _ => I) E) ->
  hoare I (for_each xs body) (fun _ => I) E.
Proof.
  induction xs as [| x xs IH]; intros H.
  - apply hoare_ret. auto.
  - cbn [for_each]. eapply hoare_bind.
    + apply H. now left.
    + intros u. apply IH. intros y Hy. apply H. now right.
Qed.

(** ** Operations that leave a part of the state alone *)

Lemma preserves_bind {A B C : Type} (proj : state -> C) (m : M A)
    (f : A -> M B) :
  preserves proj m -> (forall a, preserves proj (f a)) ->
  preserves proj (bind m f).
Proof.
  intros Hm Hf s. unfold bind. specialize (Hm s).
  destruct (m s) as [[a | e | ] s1]; cbn in *; auto.
  rewrite Hf. exact Hm.
Qed.

Lemma preserves_for_each {A C : Type} (proj : state -> C) (xs : list A)
    (body : A -> M unit) :
  (forall x, preserves proj (body x)) -> preserves proj (for_each xs body).
Proof.
  intros H. induction xs as [| x xs IH]; intros s; [reflexivity |].
  cbn [for_each]. apply preserves_bind; auto.
Qed.

Lemma pure_preserves {A C : Type} (proj : state -> C) (m : M A) :
  pure m -> preserves proj m.
Proof. intros H s. now rewrite H. Qed.

Lemma pure_ret {A : Type} (a : A) : pure (ret a).
Proof. intros s. reflexivity. Qed.

Lemma pure_raise {A : Type} (e : exn) : pure (@raise A e).
Proof. intros s. reflexivity. Qed.

Lemma pure_diverge {A : Type} : pure (@diverge A).
Proof. intros s. reflexivity. Qed.

Lemma pure_index {A : Type} (o : option A) : pure (index o).
Proof. intros s. destruct o; reflexivity. Qed.

Lemma pure_bind {A B : Type} (m : M A) (f : A -> M B) :
  pure m -> (forall a, pure (f a)) -> pure (bind m f).
Proof. intros Hm Hf. apply (preserves_bind (fun s => s)); auto. Qed.

Lemma pure_read_coord (r : aref) (j d : nat) : pure (read_coord r j d).
Proof. intros s. unfold read_coord. apply pure_index. Qed.

Lemma pure_row_view (r : aref) (j : nat) : pure (row_view r j).
Proof. intros s. unfold row_view. apply pure_index. Qed.

Lemma pure_get_next_sample (i : nat) : pure (get_next_sample i).
Proof. intros s. unfold get_next_sample. apply pure_index. Qed.

Lemma pure_get_next_negative_sample (i : nat) :
  pure (get_next_negative_sample i).
Proof. intros s. unfold get_next_negative_sample. apply pure_index. Qed.

Lemma pure_fdiv (x y : Q) : pure (fdiv x y).
Proof. intros s. unfold fdiv. destruct (Qeq_bool y 0); reflexivity. Qed.

Lemma pure_xdiv (fl : Q -> xfloat) (x y : xfloat) : pure (xdiv fl x y).
Proof. intros s. unfold xdiv. destruct (xis_zero y); reflexivity. Qed.

(** A pure operation keeps any precondition and tells its value. *)
Lemma hoare_pure {A : Type} (P : state -> Prop) (m : M A) :
  pure m ->
  hoare P m (fun a s => P s /\ fst (m s) = Ok a) P.
Proof.
  intros Hm s Hs. specialize (Hm s).
  destruct (m s) as [[a | e | ] s1] eqn:Hms; cbn in Hm; subst s1; auto.
  rewrite Hms. auto.
Qed.

(** An operation that preserves [proj] keeps what depends on [proj] only. *)
Lemma hoare_preserves {A C : Type} (proj : state -> C) (P : C -> Prop)
    (m : M A) :
  preserves proj m ->
  hoare (fun s => P (proj s)) m (fun _ s => P (proj s))
        (fun s => P (proj s)).
Proof.
  intros Hm s Hs. specialize (Hm s).
  destruct (m s) as [[a | e | ] s1]; cbn in Hm; rewrite Hm; auto.
Qed.

(** The final state of a [hoare]-specified run satisfies one of the two
    postconditions. *)
Lemma hoare_final {A : Type} (P : state -> Prop) (m : M A)
    (Q : A -> state -> Prop) (E : state -> Prop) (s : state) :
  hoare P m Q E -> P s -> (forall a s', Q a s' -> E s') -> E (snd (m s)).
Proof.
  intros H Hs HQ. specialize (H s Hs).
  destruct (m s) as [[a | e | ] s1]; cbn; eauto.
Qed.


(** * Facts about the helpers *)

Lemma Qle_bool_false (x y : Q) : Qle_bool x y = false -> y < x.
Proof.
  intros H. apply Qnot_le_lt. intros Hle.
  apply Qle_bool_iff in Hle. congruence.
Qed.

Lemma clip_bound (v c : Q) : 0 <= c -> Qabs (clip v c) <= c.
Proof.
  intros Hc. unfold clip.
  destruct (Qle_bool v c) eqn:H1; cbn [negb].
  - destruct (Qle_bool (- c) v) eqn:H2; cbn [negb].
    + apply Qle_bool_iff in H1, H2. apply Qabs_Qle_condition. split; assumption.
    + rewrite Qabs_opp. rewrite Qabs_pos; [apply Qle_refl | exact Hc].
  - rewrite Qabs_pos; [apply Qle_refl | exact Hc].
Qed.

Lemma clip_inside (v c : Q) : - c <= v -> v <= c -> clip v c = v.
Proof.
  intros H1 H2. unfold clip.
  apply Qle_bool_iff in H1, H2. now rewrite H2, H1.
Qed.

Lemma rdist_acc_self (x : vec) (acc : Q) :
  fold_left (fun acc p => acc + (fst p - snd p) * (fst p - snd p))
            (combine x x) acc == acc.
Proof.
  revert acc. induction x as [| v x IH]; intros acc; cbn.
  - reflexivity.
  - rewrite IH. ring.
Qed.

Lemma rdist_self (x : vec) : rdist x x == 0.
Proof. apply rdist_acc_self. Qed.

Lemma rdist_acc_nonneg (l : list (Q * Q)) (acc : Q) :
  0 <= acc ->
  0 <= fold_left (fun acc p => acc + (fst p - snd p) * (fst p - snd p))
                 l acc.
Proof.
  revert acc. induction l as [| p l IH]; intros acc Hacc; cbn.
  - exact Hacc.
  - apply IH. generalize (fst p - snd p). intros x.
    assert (Hx : 0 <= x * x).
    { destruct (Qlt_le_dec x 0) as [Hn | Hp].
      - setoid_replace (x * x) with ((- x) * (- x)) by ring.
        apply Qmult_le_0_compat; lra.
      - apply Qmult_le_0_compat; assumption. }
    lra.
Qed.

Lemma rdist_nonneg (x y : vec) : 0 <= rdist x y.
Proof. apply rdist_acc_nonneg. apply Qle_refl. Qed.

Lemma Qgt0_false (x : Q) : x <= 0 -> Qgt0 x = false.
Proof.
  intros H. unfold Qgt0. apply Qle_bool_iff in H. now rewrite H.
Qed.

Lemma Qgt0_true (x : Q) : Qgt0 x = true -> 0 < x.
Proof.
  unfold Qgt0. intros H. apply Qle_bool_false.
  now destruct (Qle_bool x 0).
Qed.

(** * Traces *)

Lemma extends_with_refl (P : update -> Prop) (t : list update) :
  extends_with P t t.
Proof. exists []. split; [now rewrite app_nil_r | constructor]. Qed.

Lemma extends_with_trans (P : update -> Prop) (t1 t2 t3 : list update) :
  extends_with P t1 t2 -> extends_with P t2 t3 -> extends_with P t1 t3.
Proof.
  intros [n1 [-> H1]] [n2 [-> H2]]. exists (n1 ++ n2). split.
  - now rewrite app_assoc.
  - apply Forall_app. split; assumption.
Qed.

Lemma extends_with_snoc (P : update -> Prop) (t0 t : list update)
    (e : update) :
  extends_with P t0 t -> P e -> extends_with P t0 (t ++ [e]).
Proof.
  intros H He. apply (extends_with_trans P t0 t); [exact H |].
  exists [e]. split; [reflexivity | now constructor].
Qed.

Lemma extends_with_weaken (P P' : update -> Prop) (t t' : list update) :
  (forall e, P e -> P' e) -> extends_with P t t' -> extends_with P' t t'.
Proof.
  intros H [new [-> Hn]]. exists new. split; [reflexivity |].
  eapply Forall_impl; eauto.
Qed.

Lemma hoare_iadd_coord_trace (P : update -> Prop) (t0 : list update)
    (kind : update_kind) (n : nat) (r : aref) (j d : nat)
    (g alpha scale : Q) :
  P (mkUpdate kind n r j d g alpha scale) ->
  hoare (fun s => extends_with P t0 (trace s))
        (iadd_coord kind n r j d g alpha scale)
        (fun _ s => extends_with P t0 (trace s))
        (fun s => extends_with P t0 (trace s)).
Proof.
  intros HP s Hs. unfold iadd_coord.
  destruct (get2 (load (st_heap s) r) j d); cbn; [| exact Hs].
  apply extends_with_snoc; assumption.
Qed.

Lemma preserves_trace_iadd_next_sample (fl : Q -> xfloat) (i : nat)
    (v : Q) :
  preserves trace (iadd_next_sample fl i v).
Proof.
  intros s. unfold iadd_next_sample.
  destruct (nth_error (epoch_of_next_sample s) i); reflexivity.
Qed.

Lemma preserves_trace_iadd_next_negative_sample (fl : Q -> xfloat)
    (i : nat) (v : xfloat) :
  preserves trace (iadd_next_negative_sample fl i v).
Proof.
  intros s. unfold iadd_next_negative_sample.
  destruct (nth_error (epoch_of_next_negative_sample s) i); reflexivity.
Qed.

Lemma preserves_trace_draw (tau : list Z -> Z * list Z) :
  preserves trace (draw tau tt).
Proof. intros s. unfold draw. destruct (tau (rng_state s)). reflexivity. Qed.

Lemma preserves_trace_draw_hub (tau : list Z -> Z * list Z)
    (hub_info : list Z) (n_vertices steps : nat) :
  preserves trace (draw_hub tau hub_info n_vertices steps).
Proof.
  induction steps as [| steps IH]; cbn [draw_hub].
  - apply pure_preserves, pure_diverge.
  - apply preserves_bind; [apply preserves_trace_draw |]. intros r.
    destruct (n_vertices =? 0)%nat; [apply pure_preserves, pure_raise |].
    apply preserves_bind; [apply pure_preserves, pure_index |]. intros label.
    destruct (label >? 0)%Z; [apply pure_preserves, pure_ret | exact IH].
Qed.


(** * The coordinate updates of one kernel call *)

Lemma repulse_grad_d_bound (hd tl : aref) (gc : Q) (j k d : nat)
    (s : state) (g : Q) :
  fst (repulse_grad_d hd tl gc j k d s) = Ok g -> Qabs g <= 10.
Proof.
  unfold repulse_grad_d. destruct (Qgt0 gc).
  - unfold bind, read_coord.
    destruct (get2 (load (st_heap s) hd) j d); cbn; [| discriminate].
    destruct (get2 (load (st_heap s) tl) k d); cbn; [| discriminate].
    intros H. injection H as <-. apply clip_bound. discriminate.
  - cbn. intros H. injection H as <-. cbn. discriminate.
Qed.

Lemma pure_repulse_grad_d (hd tl : aref) (gc : Q) (j k d : nat) :
  pure (repulse_grad_d hd tl gc j k d).
Proof.
  unfold repulse_grad_d. destruct (Qgt0 gc); [| apply pure_ret].
  apply pure_bind; [apply pure_read_coord |]. intros cur.
  apply pure_bind; [apply pure_read_coord |]. intros oth. apply pure_ret.
Qed.

Lemma pure_attract_coeff (pow : Q -> Q -> Q) (a b d2 : Q) :
  pure (attract_coeff pow a b d2).
Proof.
  unfold attract_coeff. destruct (Qgt0 d2); [apply pure_fdiv | apply pure_ret].
Qed.

Lemma pure_repulse_coeff (pow : Q -> Q -> Q) (a b gamma d2 : Q) :
  pure (repulse_coeff pow a b gamma d2).
Proof. apply pure_fdiv. Qed.

Section KernelTrace.

Variable pow : Q -> Q -> Q.
Variable tau_rand_int : list Z -> Z * list Z.
Variable fuel : nat.
Variable fl : Q -> xfloat.
Variable int_of_unrepresentable : xfloat -> Z.
Variable head_embedding : aref.
Variable tail_embedding : aref.
Variable head : list nat.
Variable tail : list nat.
Variable hub_info : list Z.
Variable n_vertices : nat.
Variable epochs_per_sample : list Q.
Variable a : Q.
Variable b : Q.
Variable gamma : Q.
Variable dim : nat.
Variable move_other : bool.
Variable alpha : Q.
Variable epochs_per_negative_sample : list xfloat.
Variable n : nat.

Variable P : update -> Prop.
Hypothesis P_update :
  forall kind r j d g scale,
    Qabs g <= 10 -> P (mkUpdate kind n r j d g alpha scale).

Variable t0 : list update.

Let Ext (s : state) : Prop := extends_with P t0 (trace s).

Lemma hoare_trace_keep {A : Type} (m : M A) :
  preserves trace m -> hoare Ext m (fun _ => Ext) Ext.
Proof. intros H. apply (hoare_preserves trace (extends_with P t0)), H. Qed.

Lemma hoare_trace_pure {A : Type} (m : M A) :
  pure m -> hoare Ext m (fun _ => Ext) Ext.
Proof. intros H. apply hoare_trace_keep, pure_preserves, H. Qed.

Lemma trace_attract_dim (j k : nat) (gc : Q) (d : nat) :
  hoare Ext
    (attract_dim head_embedding tail_embedding hub_info move_other alpha n
                 j k gc d)
    (fun _ => Ext) Ext.
Proof.
  unfold attract_dim.
  eapply hoare_bind; [apply hoare_trace_pure, pure_read_coord |]. intros cur.
  eapply hoare_bind; [apply hoare_trace_pure, pure_read_coord |]. intros oth.
  eapply hoare_bind; [apply hoare_trace_pure, pure_index |]. intros label.
  eapply hoare_bind.
  - apply hoare_iadd_coord_trace, P_update, clip_bound. discriminate.
  - intros ?. destruct move_other.
    + apply hoare_iadd_coord_trace, P_update. rewrite Qabs_opp.
      apply clip_bound. discriminate.
    + apply hoare_ret. auto.
Qed.

Lemma trace_repulse_dim (j k : nat) (gc : Q) (d : nat) :
  hoare Ext (repulse_dim head_embedding tail_embedding alpha n j k gc d)
        (fun _ => Ext) Ext.
Proof.
  unfold repulse_dim. eapply hoare_bind.
  - apply hoare_pure, pure_repulse_grad_d.
  - intros g. cbn beta.
    intros s [Hs Hg]. apply repulse_grad_d_bound in Hg.
    apply (hoare_iadd_coord_trace P t0); [apply P_update, Hg | exact Hs].
Qed.

Lemma trace_repulse (j k : nat) :
  hoare Ext
    (repulse pow head_embedding tail_embedding a b gamma dim alpha n j k)
    (fun _ => Ext) Ext.
Proof.
  unfold repulse.
  eapply hoare_bind; [apply hoare_trace_pure, pure_row_view |]. intros other.
  eapply hoare_bind; [apply hoare_trace_pure, pure_row_view |]. intros cur.
  destruct (Qgt0 (rdist cur other)).
  - eapply hoare_bind; [apply hoare_trace_pure, pure_repulse_coeff |].
    intros gc. apply hoare_for_each. intros d _. apply trace_repulse_dim.
  - destruct (j =? k)%nat; [apply hoare_ret; auto |].
    apply hoare_for_each. intros d _. apply trace_repulse_dim.
Qed.

Lemma trace_negative_sample (j p : nat) :
  hoare Ext
    (negative_sample pow tau_rand_int fuel head_embedding tail_embedding
       hub_info n_vertices a b gamma dim alpha n j p)
    (fun _ => Ext) Ext.
Proof.
  unfold negative_sample.
  eapply hoare_bind;
    [apply hoare_trace_keep, preserves_trace_draw_hub |].
  intros k. apply trace_repulse.
Qed.

Lemma trace_fire_edge (i : nat) :
  hoare Ext
    (fire_edge pow tau_rand_int fuel fl int_of_unrepresentable head_embedding
       tail_embedding head tail
       hub_info n_vertices epochs_per_sample a b gamma dim move_other alpha
       epochs_per_negative_sample n i)
    (fun _ => Ext) Ext.
Proof.
  unfold fire_edge.
  eapply hoare_bind; [apply hoare_trace_pure, pure_index |]. intros j.
  eapply hoare_bind; [apply hoare_trace_pure, pure_index |]. intros k.
  eapply hoare_bind; [apply hoare_trace_pure, pure_row_view |]. intros cur.
  eapply hoare_bind; [apply hoare_trace_pure, pure_row_view |]. intros oth.
  eapply hoare_bind; [apply hoare_trace_pure, pure_attract_coeff |].
  intros gc.
  eapply hoare_bind;
    [apply hoare_for_each; intros d _; apply trace_attract_dim |].
  intros ?.
  eapply hoare_bind; [apply hoare_trace_pure, pure_index |]. intros eps_i.
  eapply hoare_bind;
    [apply hoare_trace_keep, preserves_trace_iadd_next_sample |].
  intros ?.
  eapply hoare_bind;
    [apply hoare_trace_pure, pure_get_next_negative_sample |].
  intros next_neg.
  eapply hoare_bind; [apply hoare_trace_pure, pure_index |]. intros epns_i.
  eapply hoare_bind; [apply hoare_trace_pure, pure_xdiv |]. intros quo.
  cbv zeta.
  eapply hoare_bind;
    [apply hoare_for_each; intros p _; apply trace_negative_sample |].
  intros ?.
  apply hoare_trace_keep, preserves_trace_iadd_next_negative_sample.
Qed.

Lemma trace_single_epoch :
  hoare Ext
    (nn_layout_optimize_single_epoch pow tau_rand_int fuel fl
       int_of_unrepresentable head_embedding
       tail_embedding head tail hub_info n_vertices epochs_per_sample a b
       gamma dim move_other alpha epochs_per_negative_sample n)
    (fun _ => Ext) Ext.
Proof.
  unfold nn_layout_optimize_single_epoch. apply hoare_for_each.
  intros i _. unfold edge_step.
  eapply hoare_bind; [apply hoare_trace_pure, pure_get_next_sample |].
  intros next.
  destruct (xle_bool next (Fin (float_of_nat n)));
    [apply trace_fire_edge | apply hoare_ret; auto].
Qed.

End KernelTrace.


(** * The driver *)

Section Driver.

Variable pow : Q -> Q -> Q.
Variable tau_rand_int : list Z -> Z * list Z.
Variable fuel : nat.
Variable fl : Q -> xfloat.
Variable int_of_unrepresentable : xfloat -> Z.
Variable head_embedding : aref.
Variable tail_embedding : aref.
Variable head : list nat.
Variable tail : list nat.
Variable hub_info : list Z.
Variable n_vertices : nat.
Variable epochs_per_sample : list Q.
Variable a : Q.
Variable b : Q.
Variable gamma : Q.
Variable n_epochs : nat.
Variable initial_alpha : Q.
Variable negative_sample_rate : Q.
Variable verbose : bool.

Local Abbreviation kernel :=
  (nn_layout_optimize_single_epoch pow tau_rand_int fuel fl
     int_of_unrepresentable head_embedding
     tail_embedding head tail hub_info n_vertices epochs_per_sample a b
     gamma).

Local Abbreviation loop :=
  (epoch_loop pow tau_rand_int fuel fl int_of_unrepresentable head_embedding
     tail_embedding head tail
     hub_info n_vertices epochs_per_sample a b gamma n_epochs initial_alpha
     negative_sample_rate verbose).

Local Abbreviation driver :=
  (nn_layout_optimize pow tau_rand_int fuel fl int_of_unrepresentable
     head_embedding tail_embedding
     head tail hub_info n_vertices epochs_per_sample a b gamma n_epochs
     initial_alpha negative_sample_rate verbose).

Local Abbreviation reset :=
  (reset_counters fl epochs_per_sample negative_sample_rate).

Local Abbreviation epochs :=
  (run_epochs pow tau_rand_int fuel fl int_of_unrepresentable head_embedding
     tail_embedding head tail
     hub_info n_vertices epochs_per_sample a b gamma n_epochs initial_alpha
     negative_sample_rate verbose).

(** With [verbose] off the name [plot_tmptmp] is never bound. *)
Lemma epoch_loop_unbound (dim : nat) (move_other : bool) (ns : list nat) :
  verbose = false ->
  forall (alpha : Q) (s : state) (r : Q * bool) (s' : state),
    loop dim move_other ns alpha false s = (Ok r, s') -> snd r = false.
Proof.
  generalize verbose. intros v ->.
  induction ns as [| n ns IH]; intros alpha s r s'.
  - cbn. intros H. injection H as <- _. reflexivity.
  - cbn [epoch_loop]. unfold bind at 1.
    destruct (kernel dim move_other alpha _ n s) as [[u | e | ] s1];
      try discriminate.
    cbn [andb orb]. apply IH.
Qed.

Section DriverTrace.

Let Pd (e : update) : Prop :=
  kernel_update (alpha_used initial_alpha n_epochs (u_epoch e)) (u_epoch e) e
  /\ (u_epoch e < n_epochs)%nat.

Variable t0 : list update.

Let Ext (s : state) : Prop := extends_with Pd t0 (trace s).

Lemma trace_epoch_loop (dim : nat) (move_other : bool) (m : nat) :
  forall (k : nat) (alpha : Q) (bound : bool),
    alpha = alpha_used initial_alpha n_epochs k ->
    (k + m <= n_epochs)%nat ->
    hoare Ext (loop dim move_other (seq k m) alpha bound) (fun _ => Ext) Ext.
Proof.
  induction m as [| m IH]; intros k alpha bound Ha Hk.
  - apply hoare_ret. auto.
  - cbn [seq epoch_loop]. eapply hoare_bind.
    + apply trace_single_epoch.
      intros kind r j d g scale Hg. subst alpha.
      unfold Pd, kernel_update. cbn. repeat split; [exact Hg | lia].
    + intros ?. apply IH; [reflexivity | lia].
Qed.

Lemma trace_run_epochs :
  hoare Ext epochs (fun _ => Ext) Ext.
Proof.
  intros s Hs. unfold run_epochs, run_first_epochs. cbv zeta.
  set (dim := snd (shape _)). set (mo := (_ =? _)%nat).
  assert (H : hoare Ext (reset ;; loop dim mo (range n_epochs)
                                     initial_alpha false)
                    (fun _ => Ext) Ext).
  { eapply hoare_bind.
    - apply (hoare_preserves trace (extends_with Pd t0)).
      intros s1. reflexivity.
    - intros ?. apply trace_epoch_loop; [reflexivity | lia]. }
  exact (H s Hs).
Qed.

Lemma trace_nn_layout_optimize :
  hoare Ext driver (fun _ => Ext) Ext.
Proof.
  unfold nn_layout_optimize. eapply hoare_bind; [apply trace_run_epochs |].
  intros r. destruct (snd r); [apply hoare_ret | apply hoare_raise]; auto.
Qed.

End DriverTrace.

End Driver.


(** * Arrays *)

Lemma length_list_set {A : Type} (l : list A) (i : nat) (v : A) :
  length (list_set l i v) = length l.
Proof.
  revert i. induction l as [| x l IH]; intros [| i]; cbn; auto.
Qed.

Lemma nth_error_list_set_eq {A : Type} (l : list A) (i : nat) (v : A) :
  (i < length l)%nat -> nth_error (list_set l i v) i = Some v.
Proof.
  revert i. induction l as [| x l IH]; intros [| i] H; cbn in *;
    try lia; auto. apply IH. lia.
Qed.

Lemma nth_error_list_set_neq {A : Type} (l : list A) (i i' : nat) (v : A) :
  i <> i' -> nth_error (list_set l i v) i' = nth_error l i'.
Proof.
  revert i i'. induction l as [| x l IH]; intros [| i] [| i'] H; cbn;
    try congruence; auto.
Qed.

Lemma nth_error_list_set {A : Type} (l : list A) (i i' : nat) (v : A) :
  nth_error (list_set l i v) i' =
  if (i =? i')%nat then
    match nth_error l i' with Some _ => Some v | None => None end
  else nth_error l i'.
Proof.
  destruct (Nat.eqb_spec i i') as [<- | Hne].
  - destruct (nth_error l i) eqn:H.
    + apply nth_error_list_set_eq. apply nth_error_Some. congruence.
    + apply nth_error_None. rewrite length_list_set.
      now apply nth_error_None.
  - now apply nth_error_list_set_neq.
Qed.

Lemma list_set_same {A : Type} (l : list A) (i : nat) (v : A) :
  nth_error l i = Some v -> list_set l i v = l.
Proof.
  revert i. induction l as [| x l IH]; intros [| i] H; cbn in *;
    try congruence.
  f_equal. auto.
Qed.

(** Writing one coordinate keeps every coordinate in range. *)
Lemma get2_set2_some (m : matrix) (j d j' d' : nat) (v x : Q) :
  get2 m j' d' = Some x ->
  exists y, get2 (set2 m j d v) j' d' = Some y.
Proof.
  unfold get2, set2. intros H.
  destruct (nth_error m j) as [row |] eqn:Hj; [| eauto].
  rewrite nth_error_list_set.
  destruct (Nat.eqb_spec j j') as [<- | Hne]; [| eauto].
  rewrite Hj in *. rewrite nth_error_list_set.
  destruct (d =? d')%nat; [rewrite H |]; eauto.
Qed.

Lemma load_store_same (h : heap) (r : aref) (m : matrix) :
  load (store h r m) r = m.
Proof. destruct r; reflexivity. Qed.

Lemma load_store_other (h : heap) (r r' : aref) (m : matrix) :
  r <> r' -> load (store h r m) r' = load h r'.
Proof. destruct r, r'; cbn; congruence. Qed.

Lemma get2_heap_set_some (h : heap) (r r' : aref) (j d j' d' : nat)
    (v x : Q) :
  get2 (load h r') j' d' = Some x ->
  exists y, get2 (load (heap_set h r j d v) r') j' d' = Some y.
Proof.
  unfold heap_set. intros H.
  destruct r, r'; cbn in *; eauto using get2_set2_some.
Qed.

Lemma Forall2_Qeq_refl (l : list Q) : Forall2 Qeq l l.
Proof. induction l; constructor; auto. reflexivity. Qed.

Lemma matrix_equiv_refl (m : matrix) : matrix_equiv m m.
Proof. induction m; constructor; auto using Forall2_Qeq_refl. Qed.

Lemma Forall2_Qeq_trans (l1 l2 l3 : list Q) :
  Forall2 Qeq l1 l2 -> Forall2 Qeq l2 l3 -> Forall2 Qeq l1 l3.
Proof.
  intros H. revert l3. induction H; intros l3 H3; inversion H3; subst;
    constructor; eauto. etransitivity; eauto.
Qed.

Lemma matrix_equiv_trans (m1 m2 m3 : matrix) :
  matrix_equiv m1 m2 -> matrix_equiv m2 m3 -> matrix_equiv m1 m3.
Proof.
  intros H. revert m3. induction H; intros m3 H3; inversion H3; subst;
    constructor; eauto using Forall2_Qeq_trans.
  now apply IHForall2.
Qed.

Lemma heap_equiv_refl (h : heap) : heap_equiv h h.
Proof. split; apply matrix_equiv_refl. Qed.

Lemma heap_equiv_trans (h1 h2 h3 : heap) :
  heap_equiv h1 h2 -> heap_equiv h2 h3 -> heap_equiv h1 h3.
Proof.
  intros [A1 B1] [A2 B2]. split; eapply matrix_equiv_trans; eauto.
Qed.

Lemma list_set_Qeq (l : list Q) (d : nat) (v old : Q) :
  nth_error l d = Some old -> v == old -> Forall2 Qeq (list_set l d v) l.
Proof.
  revert d. induction l as [| x l IH]; intros [| d] H Hv; cbn in *;
    try discriminate.
  - injection H as ->. constructor; [exact Hv | apply Forall2_Qeq_refl].
  - constructor; [reflexivity | eauto].
Qed.

Lemma list_set_row_equiv (m : matrix) (j : nat) (row row' : vec) :
  nth_error m j = Some row -> Forall2 Qeq row' row ->
  matrix_equiv (list_set m j row') m.
Proof.
  revert j. induction m as [| r m IH]; intros [| j] H Hr; cbn in *;
    try discriminate.
  - injection H as ->. constructor; [exact Hr | apply matrix_equiv_refl].
  - constructor; [apply Forall2_Qeq_refl | exact (IH j H Hr)].
Qed.

Lemma set2_equiv (m : matrix) (j d : nat) (v old : Q) :
  get2 m j d = Some old -> v == old -> matrix_equiv (set2 m j d v) m.
Proof.
  unfold get2, set2. destruct (nth_error m j) as [row |] eqn:Hj;
    [| discriminate].
  intros Hd Hv. eapply list_set_row_equiv; eauto using list_set_Qeq.
Qed.

Lemma heap_iadd_zero_equiv (h : heap) (r : aref) (j d : nat) (v : Q) :
  v == 0 -> heap_equiv (heap_iadd h r j d v) h.
Proof.
  intros Hv. unfold heap_iadd.
  destruct (get2 (load h r) j d) as [old |] eqn:Hg; [| apply heap_equiv_refl].
  unfold heap_set, heap_equiv.
  assert (He : matrix_equiv (set2 (load h r) j d (old + v)) (load h r)).
  { eapply set2_equiv; eauto. rewrite Hv. ring. }
  destruct r; cbn in *; split; auto using matrix_equiv_refl.
Qed.

Lemma Forall_nth_error {A : Type} (P : A -> Prop) (l : list A) (i : nat)
    (x : A) :
  Forall P l -> nth_error l i = Some x -> P x.
Proof.
  intros H Hi. rewrite Forall_forall in H. eapply H, nth_error_In, Hi.
Qed.

(** * The row lengths of an array *)

Lemma skeleton_set2 (m : matrix) (j d : nat) (v : Q) :
  skeleton (set2 m j d v) = skeleton m.
Proof.
  unfold set2. destruct (nth_error m j) as [row |] eqn:Hj; [| reflexivity].
  unfold skeleton. revert j Hj.
  induction m as [| r m IH]; intros [| j] Hj; cbn in *; try discriminate.
  - injection Hj as ->. now rewrite length_list_set.
  - f_equal. now apply IH.
Qed.

Lemma skeleton_heap_set (h : heap) (r r' : aref) (j d : nat) (v : Q) :
  skeleton (load (heap_set h r j d v) r') = skeleton (load h r').
Proof.
  unfold heap_set. destruct r, r'; cbn; auto using skeleton_set2.
Qed.

Lemma skeleton_length (m m0 : matrix) :
  skeleton m = skeleton m0 -> length m = length m0.
Proof.
  intros H. apply (f_equal (@length nat)) in H.
  unfold skeleton in H. now rewrite !length_map in H.
Qed.

(** Arrays with the same row lengths have the same indices in range. *)
Lemma row_in_range (m m0 : matrix) (j : nat) :
  skeleton m = skeleton m0 -> (j < length m0)%nat ->
  exists row, nth_error m j = Some row.
Proof.
  intros H Hj. apply skeleton_length in H.
  destruct (nth_error m j) as [row |] eqn:Hr; [eauto |].
  apply nth_error_None in Hr. lia.
Qed.

Lemma get2_in_range (m m0 : matrix) (dim j d : nat) :
  skeleton m = skeleton m0 -> (j < length m0)%nat ->
  Forall (fun row => (dim <= length row)%nat) m0 -> (d < dim)%nat ->
  exists x, get2 m j d = Some x.
Proof.
  intros H Hj Hrows Hd.
  destruct (row_in_range m m0 j H Hj) as [row Hrow].
  destruct (nth_error m0 j) as [row0 |] eqn:Hrow0;
    [| apply nth_error_None in Hrow0; lia].
  assert (Hlen : length row = length row0).
  { assert (Hs : nth_error (skeleton m) j = nth_error (skeleton m0) j)
      by now rewrite H.
    unfold skeleton in Hs. rewrite !nth_error_map in Hs.
    unfold matrix, vec in *. rewrite Hrow, Hrow0 in Hs.
    cbn in Hs. now injection Hs. }
  pose proof (Forall_nth_error _ _ _ _ Hrows Hrow0) as Hdim.
  unfold get2. rewrite Hrow.
  destruct (nth_error row d) as [x |] eqn:Hx; [eauto |].
  apply nth_error_None in Hx. cbn in Hdim. lia.
Qed.


(** * Running single operations *)

Lemma bind_ok {A B : Type} (m : M A) (f : A -> M B) (s s1 : state) (x : A) :
  m s = (Ok x, s1) -> bind m f s = f x s1.
Proof. intros H. unfold bind. now rewrite H. Qed.

Lemma bind_out_of_fuel {A B : Type} (m : M A) (f : A -> M B)
    (s s1 : state) :
  m s = (OutOfFuel, s1) -> bind m f s = (OutOfFuel, s1).
Proof. intros H. unfold bind. now rewrite H. Qed.

Lemma read_coord_ok (r : aref) (j d : nat) (s : state) (x : Q) :
  get2 (load (st_heap s) r) j d = Some x -> read_coord r j d s = (Ok x, s).
Proof. intros H. unfold read_coord. now rewrite H. Qed.

Lemma row_view_ok (r : aref) (j : nat) (s : state) (row : vec) :
  nth_error (load (st_heap s) r) j = Some row ->
  row_view r j s = (Ok row, s).
Proof. intros H. unfold row_view. now rewrite H. Qed.

Lemma iadd_coord_ok (kind : update_kind) (n : nat) (r : aref) (j d : nat)
    (g alpha scale old : Q) (s : state) :
  get2 (load (st_heap s) r) j d = Some old ->
  iadd_coord kind n r j d g alpha scale s =
  (Ok tt,
   mkState (heap_iadd (st_heap s) r j d (g * alpha * scale))
           (epoch_of_next_sample s) (epoch_of_next_negative_sample s)
           (rng_state s)
           (trace s ++ [mkUpdate kind n r j d g alpha scale])).
Proof. intros H. unfold iadd_coord, heap_iadd. now rewrite H. Qed.

(** * The rejection loop without an eligible vertex *)

Lemma no_hub_label (hub_info : list Z) (k : nat) (label : Z) :
  no_hub hub_info -> nth_error hub_info k = Some label ->
  (label >? 0)%Z = false.
Proof.
  intros H Hk. apply nth_error_In in Hk.
  unfold no_hub in H. rewrite Forall_forall in H. specialize (H _ Hk).
  rewrite Z.gtb_ltb. apply Z.ltb_ge. exact H.
Qed.

Lemma draw_hub_never_returns (tau : list Z -> Z * list Z)
    (hub_info : list Z) (n_vertices steps : nat) :
  no_hub hub_info ->
  forall s k, fst (draw_hub tau hub_info n_vertices steps s) <> Ok k.
Proof.
  intros Hhub. induction steps as [| steps IH]; intros s k.
  - cbn. discriminate.
  - cbn [draw_hub]. unfold bind at 1. unfold draw.
    destruct (tau (rng_state s)) as [r rng'].
    destruct (n_vertices =? 0)%nat; [cbn; discriminate |].
    unfold bind, index.
    destruct (nth_error hub_info _) as [label |] eqn:Hl;
      [| cbn; discriminate].
    cbn [ret]. rewrite (no_hub_label _ _ _ Hhub Hl). apply IH.
Qed.

Lemma draw_hub_diverges (tau : list Z -> Z * list Z) (hub_info : list Z)
    (n_vertices steps : nat) :
  no_hub hub_info ->
  (0 < n_vertices <= length hub_info)%nat ->
  forall s, fst (draw_hub tau hub_info n_vertices steps s) = OutOfFuel.
Proof.
  intros Hhub Hn. induction steps as [| steps IH]; intros s.
  - reflexivity.
  - cbn [draw_hub]. unfold bind at 1. unfold draw.
    destruct (tau (rng_state s)) as [r rng'].
    destruct (Nat.eqb_spec n_vertices 0) as [H0 | _]; [lia |].
    unfold bind, index.
    destruct (nth_error hub_info _) as [label |] eqn:Hl.
    + cbn [ret]. rewrite (no_hub_label _ _ _ Hhub Hl). apply IH.
    + exfalso. apply nth_error_None in Hl.
      assert (0 <= r mod Z.of_nat n_vertices < Z.of_nat n_vertices)%Z
        by (apply Z.mod_pos_bound; lia).
      lia.
Qed.

Lemma preserves_heap_draw_hub (tau : list Z -> Z * list Z)
    (hub_info : list Z) (n_vertices steps : nat) :
  preserves st_heap (draw_hub tau hub_info n_vertices steps).
Proof.
  induction steps as [| steps IH]; cbn [draw_hub].
  - apply pure_preserves, pure_diverge.
  - apply preserves_bind.
    + intros s. unfold draw. destruct (tau (rng_state s)). reflexivity.
    + intros r.
      destruct (n_vertices =? 0)%nat; [apply pure_preserves, pure_raise |].
      apply preserves_bind; [apply pure_preserves, pure_index |].
      intros label.
      destruct (label >? 0)%Z; [apply pure_preserves, pure_ret | exact IH].
Qed.


(** * Which operations touch which part of the state *)

Lemma preserves_map {A B C : Type} (proj : state -> B) (g : B -> C)
    (m : M A) :
  preserves proj m -> preserves (fun s => g (proj s)) m.
Proof. intros H s. now rewrite H. Qed.

Lemma preserves_iadd_coord (kind : update_kind) (n : nat) (r : aref)
    (j d : nat) (g alpha scale : Q) :
  preserves counters_rng (iadd_coord kind n r j d g alpha scale).
Proof.
  intros s. unfold iadd_coord.
  destruct (get2 (load (st_heap s) r) j d); reflexivity.
Qed.

Lemma preserves_attract_dim (hd tl : aref) (hub : list Z) (mo : bool)
    (alpha : Q) (n j k : nat) (gc : Q) (d : nat) :
  preserves counters_rng (attract_dim hd tl hub mo alpha n j k gc d).
Proof.
  unfold attract_dim.
  apply preserves_bind; [apply pure_preserves, pure_read_coord |].
  intros cur.
  apply preserves_bind; [apply pure_preserves, pure_read_coord |].
  intros oth.
  apply preserves_bind; [apply pure_preserves, pure_index |]. intros label.
  apply preserves_bind; [apply preserves_iadd_coord |]. intros ?.
  destruct mo; [apply preserves_iadd_coord | apply pure_preserves, pure_ret].
Qed.

Lemma preserves_repulse_dim (hd tl : aref) (alpha : Q) (n j k : nat)
    (gc : Q) (d : nat) :
  preserves counters_rng (repulse_dim hd tl alpha n j k gc d).
Proof.
  unfold repulse_dim.
  apply preserves_bind; [apply pure_preserves, pure_repulse_grad_d |].
  intros g. apply preserves_iadd_coord.
Qed.

Lemma preserves_repulse (pow : Q -> Q -> Q) (hd tl : aref) (a b gamma : Q)
    (dim : nat) (alpha : Q) (n j k : nat) :
  preserves counters_rng (repulse pow hd tl a b gamma dim alpha n j k).
Proof.
  unfold repulse.
  apply preserves_bind; [apply pure_preserves, pure_row_view |]. intros oth.
  apply preserves_bind; [apply pure_preserves, pure_row_view |]. intros cur.
  destruct (Qgt0 (rdist cur oth)).
  - apply preserves_bind; [apply pure_preserves, pure_repulse_coeff |].
    intros gc. apply preserves_for_each. intros d.
    apply preserves_repulse_dim.
  - destruct (j =? k)%nat; [apply pure_preserves, pure_ret |].
    apply preserves_for_each. intros d. apply preserves_repulse_dim.
Qed.

Lemma preserves_draw (tau : list Z -> Z * list Z) :
  preserves all_but_rng (draw tau tt).
Proof. intros s. unfold draw. destruct (tau (rng_state s)). reflexivity. Qed.

Lemma preserves_draw_hub (tau : list Z -> Z * list Z) (hub : list Z)
    (nv steps : nat) :
  preserves all_but_rng (draw_hub tau hub nv steps).
Proof.
  induction steps as [| steps IH]; cbn [draw_hub].
  - apply pure_preserves, pure_diverge.
  - apply preserves_bind; [apply preserves_draw |]. intros r.
    destruct (nv =? 0)%nat; [apply pure_preserves, pure_raise |].
    apply preserves_bind; [apply pure_preserves, pure_index |]. intros label.
    destruct (label >? 0)%Z; [apply pure_preserves, pure_ret | exact IH].
Qed.

Lemma preserves_counters_negative_sample (pow : Q -> Q -> Q)
    (tau : list Z -> Z * list Z) (fuel : nat) (hd tl : aref)
    (hub : list Z) (nv : nat) (a b gamma : Q) (dim : nat) (alpha : Q)
    (n j p : nat) :
  preserves counters
    (negative_sample pow tau fuel hd tl hub nv a b gamma dim alpha n j p).
Proof.
  unfold negative_sample. apply preserves_bind.
  - apply (preserves_map all_but_rng
             (fun x => (snd (fst (fst x)), snd (fst x)))),
      preserves_draw_hub.
  - intros k.
    apply (preserves_map counters_rng fst), preserves_repulse.
Qed.

(** * Lists of counters *)

Lemma Forall2_list_set_r {A B : Type} (R : A -> B -> Prop) (l0 : list A)
    (l : list B) (i : nat) (old v : B) :
  Forall2 R l0 l ->
  nth_error l i = Some old ->
  (forall x, R x old -> R x v) ->
  Forall2 R l0 (list_set l i v).
Proof.
  intros H. revert i. induction H as [| x y l0 l Hxy H IH];
    intros [| i] Hi Hv; cbn in *; try discriminate.
  - injection Hi as ->. constructor; auto.
  - constructor; auto.
Qed.

Lemma Forall2_nth_error_r {A B : Type} (R : A -> B -> Prop) (l0 : list A)
    (l : list B) (i : nat) (y : B) :
  Forall2 R l0 l -> nth_error l i = Some y ->
  exists x, nth_error l0 i = Some x /\ R x y.
Proof.
  intros H. revert i. induction H as [| x0 y0 l0 l Hxy H IH];
    intros [| i] Hi; cbn in *; try discriminate.
  - injection Hi as ->. eauto.
  - eauto.
Qed.

Lemma xle_trans (x y z : xfloat) : xle x y -> xle y z -> xle x z.
Proof.
  destruct x, y, z; cbn; try tauto. apply Qle_trans.
Qed.

Lemma Forall2_trans {A : Type} (R : A -> A -> Prop) :
  (forall x y z, R x y -> R y z -> R x z) ->
  forall l1 l2 l3, Forall2 R l1 l2 -> Forall2 R l2 l3 -> Forall2 R l1 l3.
Proof.
  intros HR l1 l2 l3 H. revert l3.
  induction H; intros l3 H3; inversion H3; subst; constructor; eauto.
Qed.

Lemma counters_le_trans (s1 s2 s3 : state) :
  counters_le s1 s2 -> counters_le s2 s3 -> counters_le s1 s3.
Proof.
  intros [A1 B1] [A2 B2]. split.
  - eapply Forall2_trans; eauto. apply xle_trans.
  - eapply Forall2_trans; eauto. apply xle_trans.
Qed.

Lemma xle_refl (x : xfloat) : x <> NaN -> xle x x.
Proof. destruct x; cbn; try tauto. intros _. apply Qle_refl. Qed.

Lemma Forall2_xle_refl (l : list xfloat) :
  Forall (fun x => x <> NaN) l -> Forall2 xle l l.
Proof. induction 1; constructor; auto using xle_refl. Qed.

Lemma Forall_list_set {A : Type} (P : A -> Prop) (l : list A) (i : nat)
    (v : A) :
  Forall P l -> P v -> Forall P (list_set l i v).
Proof.
  intros H. revert i. induction H; intros [| i] Hv; cbn; constructor; auto.
Qed.

(** * Rounded arithmetic *)

Section Rounding.

Variable fl : Q -> xfloat.

Hypothesis fl_monotone : forall p q, p <= q -> xle (fl p) (fl q).
Hypothesis fl_idempotent : forall q r, fl q = Fin r -> fl r = Fin r.
Hypothesis fl_zero : fl 0 = Fin 0.

Lemma fl_not_nan (q : Q) : fl q <> NaN.
Proof.
  intros H. pose proof (fl_monotone q q (Qle_refl q)) as Hx.
  rewrite H in Hx. exact Hx.
Qed.

Lemma is_double_fl (q : Q) : is_double fl (fl q).
Proof. destruct (fl q) eqn:H; cbn; eauto. Qed.

Lemma is_double_xround (x : xfloat) : is_double fl (xround fl x).
Proof. destruct x; cbn; auto using is_double_fl. Qed.

Lemma fl_nonneg (q : Q) : 0 <= q -> xle (Fin 0) (fl q).
Proof. intros H. rewrite <- fl_zero. now apply fl_monotone. Qed.

(** Line 201: adding a positive period does not lower a counter. *)
Lemma fadd_positive_not_lower (old : xfloat) (e : Q) :
  is_double fl old -> old <> NaN -> 0 < e ->
  xle old (fadd fl old (Fin e))
  /\ is_double fl (fadd fl old (Fin e))
  /\ fadd fl old (Fin e) <> NaN.
Proof.
  intros Hd Hn He. split; [| split].
  - destruct old as [q | | |]; try (cbn; tauto).
    unfold fadd. cbn [xadd xround]. cbn [is_double] in Hd.
    rewrite <- Hd at 1. apply fl_monotone. lra.
  - apply is_double_xround.
  - destruct old as [q | | |]; cbn; try congruence. apply fl_not_nan.
Qed.

(** Lines 234-236: a count that is not negative does not lower a finite
    counter when the period is positive and finite. *)
Lemma next_negative_not_lower (cast : xfloat -> Z) (n : nat) (cq pq : Q) :
  fl cq = Fin cq -> 0 < pq ->
  (0 <= n_neg_samples_at fl cast n (Fin cq) (Fin pq))%Z ->
  xle (Fin cq) (next_negative_sample_after fl cast n (Fin cq) (Fin pq)).
Proof.
  intros Hc Hp Hk. unfold next_negative_sample_after.
  set (k := n_neg_samples_at fl cast n (Fin cq) (Fin pq)) in *.
  assert (Hkf : xle (Fin 0) (fl (float_of_Z k))).
  { apply fl_nonneg. unfold float_of_Z. change 0 with (inject_Z 0).
    now rewrite <- Zle_Qle. }
  assert (Ht : xle (Fin 0) (fmul fl (fl (float_of_Z k)) (Fin pq))).
  { destruct (fl (float_of_Z k)) as [kv | | |]; cbn in Hkf; try tauto.
    - unfold fmul. cbn [xmul xround]. apply fl_nonneg.
      apply Qmult_le_0_compat; lra.
    - unfold fmul. cbn [xmul xsign sign_mul].
      destruct (pq ?= 0) eqn:Hs; cbn; auto.
      + apply Qeq_alt in Hs. lra.
      + apply Qlt_alt in Hs. lra. }
  destruct (fmul fl (fl (float_of_Z k)) (Fin pq)) as [tv | | |];
    cbn in Ht; try tauto.
  unfold fadd. cbn [xadd xround]. rewrite <- Hc at 1.
  apply fl_monotone. lra.
Qed.

End Rounding.


(** * The counters of a run *)

Lemma hoare_keep_counters {A : Type} (P E : state -> Prop) (m : M A) :
  (forall s s', counters s' = counters s -> P s -> P s') ->
  preserves counters m ->
  (forall s, P s -> E s) ->
  hoare P m (fun _ => P) E.
Proof.
  intros Hdep Hm HE s Hs. specialize (Hm s).
  destruct (m s) as [[x | e | ] s1]; cbn in Hm; eauto.
Qed.

(** A loop over consecutive indices, with an invariant that knows the
    index. *)
Lemma hoare_for_each_seq (I : nat -> state -> Prop) (E : state -> Prop)
    (body : nat -> M unit) (m : nat) :
  forall k,
    (forall i, (k <= i < k + m)%nat ->
               hoare (I i) (body i) (fun _ => I (S i)) E) ->
    hoare (I k) (for_each (seq k m) body) (fun _ => I (k + m)%nat) E.
Proof.
  induction m as [| m IH]; intros k H.
  - cbn. rewrite Nat.add_0_r. apply hoare_ret. auto.
  - cbn [seq for_each]. eapply hoare_bind.
    + apply H. lia.
    + intros ?. replace (k + S m)%nat with (S k + m)%nat by lia.
      apply IH. intros i Hi. apply H. lia.
Qed.

Section CountersStep.

Variable pow : Q -> Q -> Q.
Variable tau_rand_int : list Z -> Z * list Z.
Variable fuel : nat.
Variable fl : Q -> xfloat.
Variable int_of_unrepresentable : xfloat -> Z.
Variable head_embedding : aref.
Variable tail_embedding : aref.
Variable head : list nat.
Variable tail : list nat.
Variable hub_info : list Z.
Variable n_vertices : nat.
Variable epochs_per_sample : list Q.
Variable a : Q.
Variable b : Q.
Variable gamma : Q.
Variable negative_sample_rate : Q.

Hypothesis fl_monotone : forall p q, p <= q -> xle (fl p) (fl q).
Hypothesis fl_idempotent : forall q r, fl q = Fin r -> fl r = Fin r.
Hypothesis fl_zero : fl 0 = Fin 0.
Hypothesis eps_doubles :
  Forall (fun e => 0 < e /\ fl e = Fin e) epochs_per_sample.

Local Abbreviation epns :=
  (epochs_per_negative_sample_of fl epochs_per_sample negative_sample_rate).

(** The counter arrays hold doubles, one for each edge. *)
Local Abbreviation inv :=
  (fun s : state =>
     counters_doubles fl s
     /\ length (epoch_of_next_sample s) = length epochs_per_sample
     /\ length (epoch_of_next_negative_sample s)
        = length epochs_per_sample).

Lemma eps_nth_pos (i : nat) (e : Q) :
  nth_error epochs_per_sample i = Some e -> 0 < e /\ fl e = Fin e.
Proof. intros H. exact (Forall_nth_error _ _ _ _ eps_doubles H). Qed.

Lemma inv_step_refl (n : nat) (s : state) :
  inv s -> epoch_counters_step fl int_of_unrepresentable epns n s s.
Proof.
  intros [[H1 H2] _]. split; [| split; [reflexivity |]].
  - apply Forall2_xle_refl. eapply Forall_impl; [| exact H1].
    cbn. tauto.
  - intros i c c' Hc Hc'. left. congruence.
Qed.

Lemma reset_counters_inv (s : state) :
  inv (snd (reset_counters fl epochs_per_sample negative_sample_rate s)).
Proof.
  cbn. repeat split; cbn.
  - apply Forall_map. eapply Forall_impl; [| exact eps_doubles].
    cbn. intros e [_ He]. split; [exact He | discriminate].
  - unfold epochs_per_negative_sample_of. apply Forall_map.
    rewrite Forall_forall. intros e _. unfold np_divide.
    destruct (Qeq_bool negative_sample_rate 0).
    + destruct (e ?= 0); exact I.
    + now apply is_double_fl.
  - apply length_map.
  - unfold epochs_per_negative_sample_of. apply length_map.
Qed.

Section OneEpoch.

Variable dim : nat.
Variable move_other : bool.
Variable alpha : Q.
Variable n : nat.
Variable s0 : state.

Local Abbreviation step :=
  (epoch_counters_step fl int_of_unrepresentable epns n s0).

(** The next-negative-sample counters of the edges from [m] on are those of
    the start of the epoch. *)
Local Abbreviation untouched :=
  (fun (m : nat) (s : state) =>
     forall i, (m <= i)%nat ->
               nth_error (epoch_of_next_negative_sample s) i
               = nth_error (epoch_of_next_negative_sample s0) i).

Local Abbreviation P := (fun m s => inv s /\ step s /\ untouched m s).
Local Abbreviation E := (fun s : state => inv s /\ step s).

Lemma P_counters_only (m : nat) (s s' : state) :
  counters s' = counters s -> P m s -> P m s'.
Proof.
  unfold counters. intros Hc. injection Hc as H1 H2.
  unfold counters_doubles, epoch_counters_step. now rewrite H1, H2.
Qed.

Lemma E_counters_only (s s' : state) :
  counters s' = counters s -> E s -> E s'.
Proof.
  unfold counters. intros Hc. injection Hc as H1 H2.
  unfold counters_doubles, epoch_counters_step. now rewrite H1, H2.
Qed.

Lemma P_E (m : nat) (s : state) : P m s -> E s.
Proof. intros [H1 [H2 _]]. split; assumption. Qed.

Lemma P_next (m : nat) (s : state) : P m s -> P (S m) s.
Proof.
  intros [H1 [H2 H3]]. split; [exact H1 | split; [exact H2 |]].
  intros i Hi. apply H3. lia.
Qed.

(** Line 201. *)
Lemma P_set_next_sample (m : nat) (s s' : state) (i : nat) (old : xfloat)
    (e : Q) :
  P m s ->
  nth_error (epoch_of_next_sample s) i = Some old ->
  nth_error epochs_per_sample i = Some e ->
  epoch_of_next_sample s'
  = list_set (epoch_of_next_sample s) i (fadd fl old (Fin e)) ->
  epoch_of_next_negative_sample s' = epoch_of_next_negative_sample s ->
  P m s'.
Proof.
  intros [[[D1 D2] [L1 L2]] [[S1 [S2 S3]] U]] Hold He E1 E2.
  destruct (eps_nth_pos i e He) as [Hpos _].
  destruct (Forall_nth_error _ _ _ _ D1 Hold) as [Hd Hn].
  destruct (fadd_positive_not_lower fl fl_monotone fl_idempotent old e
              Hd Hn Hpos) as [Hle [Hd' Hn']].
  unfold counters_doubles, epoch_counters_step. rewrite E1, E2.
  repeat split; auto.
  - apply Forall_list_set; auto.
  - now rewrite length_list_set.
  - eapply Forall2_list_set_r; eauto.
    intros x Hx. eapply xle_trans; eauto.
Qed.

(** Lines 234-236. *)
Lemma P_set_next_negative_sample (s s' : state) (i : nat) (c p : xfloat) :
  P i s ->
  nth_error (epoch_of_next_negative_sample s) i = Some c ->
  nth_error epns i = Some p ->
  xis_zero p = false ->
  epoch_of_next_sample s' = epoch_of_next_sample s ->
  epoch_of_next_negative_sample s'
  = list_set (epoch_of_next_negative_sample s) i
      (next_negative_sample_after fl int_of_unrepresentable n c p) ->
  P (S i) s'.
Proof.
  intros [[[D1 D2] [L1 L2]] [[S1 [S2 S3]] U]] Hc Hp Hz E1 E2.
  unfold counters_doubles, epoch_counters_step. rewrite E1, E2.
  repeat split; auto.
  - apply Forall_list_set; auto.
    unfold next_negative_sample_after, fadd.
    now apply is_double_xround.
  - now rewrite length_list_set.
  - now rewrite length_list_set.
  - intros i' c0 c' H0 H'. rewrite nth_error_list_set in H'.
    destruct (Nat.eqb_spec i i') as [<- | Hne].
    + rewrite Hc in H'. injection H' as <-.
      rewrite (U i (Nat.le_refl i)) in Hc.
      rewrite Hc in H0. injection H0 as <-.
      right. exists p. auto.
    + eapply S3; eauto.
  - intros i' Hi'. rewrite nth_error_list_set_neq by lia.
    apply U. lia.
Qed.

(** The counter part of a fired edge: lines 201-236. *)
Lemma fire_edge_tail_step (i j : nat) (eps_i : Q) :
  nth_error epochs_per_sample i = Some eps_i ->
  hoare (P i)
    (iadd_next_sample fl i eps_i ;;
     next_neg <- get_next_negative_sample i ;;
     epns_i <- index (nth_error epns i) ;;
     quo <- xdiv fl (fsub fl (Fin (float_of_nat n)) next_neg) epns_i ;;
     let n_neg_samples := int64_of_float int_of_unrepresentable quo in
     for_each (range (Z.to_nat n_neg_samples))
       (negative_sample pow tau_rand_int fuel head_embedding tail_embedding
          hub_info n_vertices a b gamma dim alpha n j) ;;
     iadd_next_negative_sample fl i
       (fmul fl (fl (float_of_Z n_neg_samples)) epns_i))
    (fun _ => P (S i)) E.
Proof.
  intros Heps s Hs.
  unfold bind at 1. unfold iadd_next_sample.
  destruct (nth_error (epoch_of_next_sample s) i) as [old |] eqn:Hold;
    [| apply (P_E i), Hs].
  set (s1 := mkState _ _ _ _ _).
  assert (H1 : P i s1).
  { apply (P_set_next_sample i s s1 i old eps_i); auto. }
  clearbody s1. clear Hs Hold s.
  unfold bind at 1. unfold get_next_negative_sample.
  destruct (nth_error (epoch_of_next_negative_sample s1) i) as [c |] eqn:Hc;
    cbn [index ret raise]; [| apply (P_E i), H1].
  unfold bind at 1.
  destruct (nth_error epns i) as [p |] eqn:Hp;
    cbn [index ret raise]; [| apply (P_E i), H1].
  unfold bind at 1. unfold xdiv.
  destruct (xis_zero p) eqn:Hz; cbn [ret raise]; [apply (P_E i), H1 |].
  cbv zeta.
  set (k := int64_of_float int_of_unrepresentable
              (fquot fl (fsub fl (Fin (float_of_nat n)) c) p)).
  unfold bind at 1.
  pose proof (preserves_for_each counters (range (Z.to_nat k))
                (negative_sample pow tau_rand_int fuel head_embedding
                   tail_embedding hub_info n_vertices a b gamma dim alpha
                   n j)
                (preserves_counters_negative_sample pow tau_rand_int fuel
                   head_embedding tail_embedding hub_info n_vertices a b
                   gamma dim alpha n j) s1) as Hk.
  destruct (for_each _ _ s1) as [[u | e | ] s2]; cbn [snd] in Hk;
    try (apply (E_counters_only s1); [exact Hk | apply (P_E i), H1]).
  assert (H2 : P i s2) by (eapply P_counters_only; eauto).
  assert (Hc2 : nth_error (epoch_of_next_negative_sample s2) i = Some c).
  { unfold counters in Hk. injection Hk as _ Hk2. now rewrite Hk2. }
  unfold iadd_next_negative_sample. rewrite Hc2.
  apply (P_set_next_negative_sample s2 _ i c p); auto.
Qed.

Lemma fire_edge_step (i : nat) :
  hoare (P i)
    (fire_edge pow tau_rand_int fuel fl int_of_unrepresentable
       head_embedding tail_embedding head tail hub_info n_vertices
       epochs_per_sample a b gamma dim move_other alpha epns n i)
    (fun _ => P (S i)) E.
Proof.
  assert (Hdep : forall s s', counters s' = counters s -> P i s -> P i s')
    by apply P_counters_only.
  assert (HE : forall s, P i s -> E s) by apply P_E.
  unfold fire_edge.
  eapply hoare_bind;
    [apply (hoare_keep_counters (P i)); auto;
     apply pure_preserves, pure_index |]. intros j.
  eapply hoare_bind;
    [apply (hoare_keep_counters (P i)); auto;
     apply pure_preserves, pure_index |]. intros k.
  eapply hoare_bind;
    [apply (hoare_keep_counters (P i)); auto;
     apply pure_preserves, pure_row_view |]. intros cur.
  eapply hoare_bind;
    [apply (hoare_keep_counters (P i)); auto;
     apply pure_preserves, pure_row_view |]. intros oth.
  eapply hoare_bind;
    [apply (hoare_keep_counters (P i)); auto;
     apply pure_preserves, pure_attract_coeff |]. intros gc.
  eapply hoare_bind.
  { apply (hoare_keep_counters (P i)); auto.
    apply preserves_for_each. intros d.
    apply (preserves_map counters_rng fst), preserves_attract_dim. }
  intros ?.
  destruct (nth_error epochs_per_sample i) as [eps_i |] eqn:Heps.
  - cbn [index]. intros s Hs. unfold bind at 1. cbn [ret].
    exact (fire_edge_tail_step i j eps_i Heps s Hs).
  - cbn [index]. intros s Hs. cbn. apply (P_E i), Hs.
Qed.

Lemma single_epoch_step :
  hoare (P 0%nat)
    (nn_layout_optimize_single_epoch pow tau_rand_int fuel fl
       int_of_unrepresentable head_embedding tail_embedding head tail
       hub_info n_vertices epochs_per_sample a b gamma dim move_other alpha
       epns n)
    (fun _ => E) E.
Proof.
  unfold nn_layout_optimize_single_epoch, range.
  eapply hoare_conseq;
    [apply (hoare_for_each_seq P E) | auto | | auto].
  - intros i _. unfold edge_step. intros s Hs.
    unfold bind at 1. unfold get_next_sample.
    destruct (nth_error (epoch_of_next_sample s) i) as [next |];
      cbn [index ret raise]; [| apply (P_E i), Hs].
    destruct (xle_bool next (Fin (float_of_nat n))).
    + apply (fire_edge_step i s Hs).
    + apply P_next, Hs.
  - intros u s Hs. eapply P_E, Hs.
Qed.

End OneEpoch.

Variable n_epochs : nat.
Variable initial_alpha : Q.
Variable verbose : bool.

Local Abbreviation kernel :=
  (nn_layout_optimize_single_epoch pow tau_rand_int fuel fl
     int_of_unrepresentable head_embedding tail_embedding head tail
     hub_info n_vertices epochs_per_sample a b gamma).

Local Abbreviation loop :=
  (epoch_loop pow tau_rand_int fuel fl int_of_unrepresentable
     head_embedding tail_embedding head tail hub_info n_vertices
     epochs_per_sample a b gamma n_epochs initial_alpha
     negative_sample_rate verbose).

Local Abbreviation run :=
  (run_first_epochs pow tau_rand_int fuel fl int_of_unrepresentable
     head_embedding tail_embedding head tail hub_info n_vertices
     epochs_per_sample a b gamma n_epochs initial_alpha
     negative_sample_rate verbose).

(** One kernel call, however it ends. *)
Lemma kernel_step (dim : nat) (move_other : bool) (alpha : Q) (n : nat)
    (s : state) :
  inv s ->
  let s' := snd (kernel dim move_other alpha epns n s) in
  inv s' /\ epoch_counters_step fl int_of_unrepresentable epns n s s'.
Proof.
  intros Hinv. cbv zeta.
  pose proof (single_epoch_step dim move_other alpha n s s) as H.
  assert (Hpre : inv s
                 /\ epoch_counters_step fl int_of_unrepresentable epns n s s
                 /\ (forall i, (0 <= i)%nat ->
                       nth_error (epoch_of_next_negative_sample s) i
                       = nth_error (epoch_of_next_negative_sample s) i)).
  { split; [exact Hinv | split; [now apply inv_step_refl | reflexivity]]. }
  specialize (H Hpre).
  destruct (kernel dim move_other alpha epns n s) as [[u | e | ] s1];
    exact H.
Qed.

Lemma epoch_loop_inv (dim : nat) (move_other : bool) (ns : list nat) :
  forall (alpha : Q) (bound : bool) (s : state),
    inv s -> inv (snd (loop dim move_other ns alpha bound s)).
Proof.
  induction ns as [| n ns IH]; intros alpha bound s Hinv;
    cbn [epoch_loop]; [exact Hinv |].
  unfold bind.
  pose proof (kernel_step dim move_other alpha n s Hinv) as [H _].
  cbv zeta in H.
  destruct (kernel dim move_other alpha epns n s) as [[u | e | ] s1];
    cbn [snd] in *; auto.
Qed.

(** The loop over [k + m] epochs is the loop over [k] epochs followed, if
    that returns, by the loop over the [m] next ones. *)
Lemma epoch_loop_split (dim : nat) (move_other : bool) (k1 m : nat) :
  forall (k0 : nat) (alpha : Q) (bound : bool) (s : state),
    loop dim move_other (seq k0 (k1 + m)) alpha bound s =
    match loop dim move_other (seq k0 k1) alpha bound s with
    | (Ok r, s1) => loop dim move_other (seq (k0 + k1) m) (fst r) (snd r) s1
    | (Raise e, s1) => (Raise e, s1)
    | (OutOfFuel, s1) => (OutOfFuel, s1)
    end.
Proof.
  induction k1 as [| k1 IH]; intros k0 alpha bound s.
  - cbn. now rewrite Nat.add_0_r.
  - cbn [Nat.add seq epoch_loop]. unfold bind.
    destruct (kernel _ _ _ _ _ s) as [[u | e | ] s1]; auto.
    rewrite IH. replace (S k0 + k1)%nat with (k0 + S k1)%nat by lia.
    reflexivity.
Qed.

(** The state after [k] epochs, and what epoch [k] makes of it. *)
Lemma run_first_epochs_step (k : nat) (s : state) :
  inv (snd (run k s))
  /\ epoch_counters_step fl int_of_unrepresentable epns k
       (snd (run k s)) (snd (run (S k) s)).
Proof.
  unfold run_first_epochs. cbv zeta.
  set (dim := snd (shape _)). set (mo := (_ =? _)%nat).
  unfold bind. unfold reset_counters.
  set (s1 := mkState _ _ _ _ _).
  assert (H1 : inv s1) by apply (reset_counters_inv s).
  unfold range. replace (S k) with (k + 1)%nat by lia.
  rewrite epoch_loop_split.
  pose proof (epoch_loop_inv dim mo (seq 0 k) initial_alpha false s1 H1)
    as Hk.
  destruct (loop dim mo (seq 0 k) initial_alpha false s1)
    as [[r | e | ] s2]; cbn [snd] in *.
  - split; [exact Hk |]. cbn [Nat.add seq epoch_loop]. unfold bind.
    pose proof (kernel_step dim mo (fst r) k s2 Hk) as [_ H].
    cbv zeta in H.
    destruct (kernel dim mo (fst r) epns k s2) as [[u | e | ] s3];
      exact H.
  - split; [exact Hk | now apply inv_step_refl].
  - split; [exact Hk | now apply inv_step_refl].
Qed.

(** No next-sample counter is lowered between two epochs of a run. *)
Lemma run_first_epochs_next_sample (k m : nat) (s : state) :
  Forall2 xle (epoch_of_next_sample (snd (run k s)))
          (epoch_of_next_sample (snd (run (k + m) s))).
Proof.
  induction m as [| m IH].
  - rewrite Nat.add_0_r.
    destruct (run_first_epochs_step k s) as [[[H _] _] _].
    apply Forall2_xle_refl. eapply Forall_impl; [| exact H]. cbn. tauto.
  - replace (k + S m)%nat with (S (k + m)) by lia.
    destruct (run_first_epochs_step (k + m) s) as [_ [H _]].
    eapply Forall2_trans; [apply xle_trans | exact IH | exact H].
Qed.

End CountersStep.


(** * A run without negative samples: [negative_sample_rate = 0] *)

Lemma hoare_conj {A : Type} (P1 P2 : state -> Prop) (m : M A)
    (Q1 Q2 : A -> state -> Prop) (E1 E2 : state -> Prop) :
  hoare P1 m Q1 E1 -> hoare P2 m Q2 E2 ->
  hoare (fun s => P1 s /\ P2 s) m (fun x s => Q1 x s /\ Q2 x s)
        (fun s => E1 s /\ E2 s).
Proof.
  intros H1 H2 s [Hs1 Hs2]. specialize (H1 s Hs1). specialize (H2 s Hs2).
  destruct (m s) as [[x | e | ] s1]; auto.
Qed.

(** The attractive loop writes no repulsive update. *)
Lemma attract_dim_no_repulse (hd tl : aref) (hub : list Z) (mo : bool)
    (alpha : Q) (n j k : nat) (gc : Q) (d : nat) (t0 : list update) :
  hoare (fun s => extends_with (fun e => u_kind e <> Repulse) t0 (trace s))
        (attract_dim hd tl hub mo alpha n j k gc d)
        (fun _ s => extends_with (fun e => u_kind e <> Repulse) t0 (trace s))
        (fun s => extends_with (fun e => u_kind e <> Repulse) t0 (trace s)).
Proof.
  set (NR := fun e => u_kind e <> Repulse).
  assert (Hp : forall A (m : M A), pure m ->
             hoare (fun s => extends_with NR t0 (trace s)) m
                   (fun _ s => extends_with NR t0 (trace s))
                   (fun s => extends_with NR t0 (trace s))).
  { intros A m Hm.
    apply (hoare_preserves trace (extends_with NR t0)), pure_preserves, Hm. }
  unfold attract_dim.
  eapply hoare_bind; [apply Hp, pure_read_coord |]. intros cur.
  eapply hoare_bind; [apply Hp, pure_read_coord |]. intros oth.
  eapply hoare_bind; [apply Hp, pure_index |]. intros label.
  eapply hoare_bind.
  - apply hoare_iadd_coord_trace. unfold NR. cbn. discriminate.
  - intros ?. destruct mo.
    + apply hoare_iadd_coord_trace. unfold NR. cbn. discriminate.
    + apply hoare_ret. auto.
Qed.

(** With a rate of zero the period of an edge is an infinity or NaN, and
    the quotient of lines 203-205 is NaN. *)
Lemma quotient_rate_zero (fl : Q -> xfloat) (e : Q) :
  xis_zero (np_divide fl e 0) = false
  /\ fquot fl (fsub fl (Fin (float_of_nat 0)) (np_divide fl e 0))
           (np_divide fl e 0) = NaN.
Proof.
  unfold np_divide. change (Qeq_bool 0 0) with true. cbv iota.
  destruct (e ?= 0); cbn; auto.
Qed.

Lemma Forall2_of_nth_error {A B : Type} (R : A -> B -> Prop) (l : list A) :
  forall (l' : list B),
    length l' = length l ->
    (forall i x y, nth_error l i = Some x -> nth_error l' i = Some y ->
                   R x y) ->
    Forall2 R l l'.
Proof.
  induction l as [| x l IH]; intros [| y l'] Hlen H; cbn in Hlen;
    try discriminate; constructor.
  - apply (H 0%nat); reflexivity.
  - apply IH; [lia |]. intros i x' y' Hx Hy. apply (H (S i)); assumption.
Qed.

(** Loops whose bodies return. *)
Lemma for_each_returns {A : Type} (J : state -> Prop) (xs : list A)
    (body : A -> M unit) :
  (forall x s, In x xs -> J s ->
               exists s', body x s = (Ok tt, s') /\ J s') ->
  forall s, J s -> exists s', for_each xs body s = (Ok tt, s') /\ J s'.
Proof.
  induction xs as [| x xs IH]; intros H s Hs; cbn [for_each].
  - exists s. split; [reflexivity | exact Hs].
  - destruct (H x s (or_introl eq_refl) Hs) as [s1 [H1 J1]].
    destruct (IH (fun y s2 Hy => H y s2 (or_intror Hy)) s1 J1)
      as [s2 [H2 J2]].
    exists s2. split; [| exact J2].
    rewrite (bind_ok _ _ _ _ _ H1). exact H2.
Qed.

Lemma for_each_seq_returns (J : nat -> state -> Prop)
    (body : nat -> M unit) (m : nat) :
  forall k,
    (forall i s, (k <= i < k + m)%nat -> J i s ->
                 exists s', body i s = (Ok tt, s') /\ J (S i) s') ->
    forall s, J k s ->
      exists s', for_each (seq k m) body s = (Ok tt, s')
                 /\ J (k + m)%nat s'.
Proof.
  induction m as [| m IH]; intros k H s Hs; cbn [seq for_each].
  - exists s. rewrite Nat.add_0_r. split; [reflexivity | exact Hs].
  - destruct (H k s ltac:(lia) Hs) as [s1 [H1 J1]].
    destruct (IH (S k) (fun i s2 Hi => H i s2 ltac:(lia)) s1 J1)
      as [s2 [H2 J2]].
    exists s2. replace (k + S m)%nat with (S k + m)%nat by lia.
    split; [| exact J2].
    rewrite (bind_ok _ _ _ _ _ H1). exact H2.
Qed.

(** Lines 177-181 divide by a positive number. *)
Lemma attract_coeff_returns (pow : Q -> Q -> Q) (a b d2 : Q) (s : state) :
  0 <= a -> (forall x, 0 < x -> 0 <= pow x b) ->
  exists gc, attract_coeff pow a b d2 s = (Ok gc, s).
Proof.
  intros Ha Hp. unfold attract_coeff.
  destruct (Qgt0 d2) eqn:Hd; [| eexists; reflexivity].
  apply Qgt0_true in Hd.
  unfold fdiv. destruct (Qeq_bool (a * pow d2 b + 1) 0) eqn:Hz;
    [| eexists; reflexivity].
  apply Qeq_bool_eq in Hz.
  assert (0 <= a * pow d2 b) by (apply Qmult_le_0_compat; auto).
  lra.
Qed.

Section NoNegativeSamples.

Variable pow : Q -> Q -> Q.
Variable tau_rand_int : list Z -> Z * list Z.
Variable fuel : nat.
Variable fl : Q -> xfloat.
Variable int_of_unrepresentable : xfloat -> Z.
Variable head_embedding : aref.
Variable tail_embedding : aref.
Variable head : list nat.
Variable tail : list nat.
Variable hub_info : list Z.
Variable n_vertices : nat.
Variable epochs_per_sample : list Q.
Variable a : Q.
Variable b : Q.
Variable gamma : Q.
Variable dim : nat.
Variable move_other : bool.
Variable alpha : Q.
Variable rng0 : list Z.
Variable t0 : list update.

Hypothesis nan_not_positive : (int_of_unrepresentable NaN <= 0)%Z.

Local Abbreviation epns0 :=
  (epochs_per_negative_sample_of fl epochs_per_sample 0).

Local Abbreviation NR := (fun e : update => u_kind e <> Repulse).

(** The counters when the edges below [m] have had their turn. *)
Local Abbreviation turn :=
  (fun (m : nat) (c : list xfloat * list xfloat * list Z) =>
     snd c = rng0
     /\ length (fst (fst c)) = length epochs_per_sample
     /\ length (snd (fst c)) = length epochs_per_sample
     /\ (forall i, (m <= i)%nat ->
                   nth_error (snd (fst c)) i = nth_error epns0 i)
     /\ (forall i e, nth_error epochs_per_sample i = Some e ->
                     nth_error (fst (fst c)) i
                     = Some (if (i <? m)%nat then advanced_if_due fl e
                             else Fin e))).

Local Abbreviation I :=
  (fun (m : nat) (s : state) =>
     turn m (counters_rng s) /\ extends_with NR t0 (trace s)).

(** What holds when the epoch stops, at its end or at a raise. *)
Local Abbreviation stopped :=
  (fun s : state =>
     rng_state s = rng0
     /\ extends_with NR t0 (trace s)
     /\ Forall2 (fun e x => x = Fin e
                            \/ (e <= 0 /\ x = fadd fl (Fin e) (Fin e)))
                epochs_per_sample (epoch_of_next_sample s)).

Lemma I_stopped (m : nat) (s : state) : I m s -> stopped s.
Proof.
  intros [[H1 [H2 [H3 [H4 H5]]]] Ht].
  unfold counters_rng in *. cbn [fst snd] in *.
  split; [exact H1 | split; [exact Ht |]].
  apply Forall2_of_nth_error; [exact H2 |].
  intros i e x He Hx. rewrite (H5 i e He) in Hx. injection Hx as <-.
  destruct (i <? m)%nat; [| now left].
  unfold advanced_if_due. destruct (Qle_bool e 0) eqn:Hle; [| now left].
  right. apply Qle_bool_iff in Hle. auto.
Qed.

Lemma I_next (m : nat) (s : state) (e : Q) (x : xfloat) :
  nth_error epochs_per_sample m = Some e ->
  nth_error (epoch_of_next_sample s) m = Some x ->
  xle_bool x (Fin (float_of_nat 0)) = false ->
  I m s -> I (S m) s.
Proof.
  intros He Hx Hle [[H1 [H2 [H3 [H4 H5]]]] Ht].
  unfold counters_rng in *. cbn [fst snd] in *.
  repeat split; auto.
  - intros i Hi. apply H4. lia.
  - intros i e' He'. rewrite (H5 i e' He').
    destruct (Nat.eq_dec i m) as [-> | Hne].
    + rewrite Nat.ltb_irrefl.
      replace (m <? S m)%nat with true by (symmetry; apply Nat.ltb_lt; lia).
      rewrite He in He'. injection He' as <-.
      rewrite (H5 m e He), Nat.ltb_irrefl in Hx. injection Hx as <-.
      unfold advanced_if_due. cbn in Hle.
      change (float_of_nat 0) with 0 in Hle. now rewrite Hle.
    + replace (i <? S m)%nat with (i <? m)%nat; [reflexivity |].
      destruct (Nat.ltb_spec i m), (Nat.ltb_spec i (S m)); auto; lia.
Qed.

Lemma I_end (s : state) :
  I (length epochs_per_sample) s ->
  epoch_of_next_sample s = map (advanced_if_due fl) epochs_per_sample.
Proof.
  intros [[H1 [H2 [H3 [H4 H5]]]] Ht].
  unfold counters_rng in *. cbn [fst snd] in *.
  apply nth_error_ext. intros i. rewrite nth_error_map.
  destruct (nth_error epochs_per_sample i) as [e |] eqn:He.
  - rewrite (H5 i e He).
    assert (i < length epochs_per_sample)%nat
      by (apply nth_error_Some; congruence).
    replace (i <? length epochs_per_sample)%nat with true
      by (symmetry; apply Nat.ltb_lt; lia).
    reflexivity.
  - apply nth_error_None. apply nth_error_None in He. lia.
Qed.

Lemma hoare_I_attract {A : Type} (m : nat) (op : M A) :
  preserves counters_rng op ->
  hoare (fun s => extends_with NR t0 (trace s)) op
        (fun _ s => extends_with NR t0 (trace s))
        (fun s => extends_with NR t0 (trace s)) ->
  hoare (I m) op (fun _ => I m) stopped.
Proof.
  intros Hp Ht.
  eapply hoare_conseq;
    [apply (hoare_conj _ _ op _ _ _ _
              (hoare_preserves counters_rng (turn m) op Hp) Ht)
    | auto | auto | apply (I_stopped m)].
Qed.

Lemma hoare_I_pure {A : Type} (m : nat) (op : M A) :
  pure op -> hoare (I m) op (fun _ => I m) stopped.
Proof.
  intros Hm. apply hoare_I_attract; [apply pure_preserves, Hm |].
  apply (hoare_preserves trace (extends_with NR t0)), pure_preserves, Hm.
Qed.

(** An edge that is due in epoch 0 draws no negative sample. *)
Lemma fire_edge_rate_zero (i : nat) (e : Q) :
  nth_error epochs_per_sample i = Some e ->
  e <= 0 ->
  hoare (I i)
    (fire_edge pow tau_rand_int fuel fl int_of_unrepresentable
       head_embedding tail_embedding head tail hub_info n_vertices
       epochs_per_sample a b gamma dim move_other alpha epns0 0 i)
    (fun _ => I (S i)) stopped.
Proof.
  intros He Hle. unfold fire_edge.
  eapply hoare_bind; [apply hoare_I_pure, pure_index |]. intros j.
  eapply hoare_bind; [apply hoare_I_pure, pure_index |]. intros k.
  eapply hoare_bind; [apply hoare_I_pure, pure_row_view |]. intros cur.
  eapply hoare_bind; [apply hoare_I_pure, pure_row_view |]. intros oth.
  eapply hoare_bind; [apply hoare_I_pure, pure_attract_coeff |].
  intros gc.
  eapply hoare_bind.
  { apply hoare_I_attract.
    - apply preserves_for_each. intros d. apply preserves_attract_dim.
    - apply hoare_for_each. intros d _. apply attract_dim_no_repulse. }
  intros ?. intros s Hs. pose proof Hs as [[H1 [H2 [H3 [H4 H5]]]] Ht].
  unfold counters_rng in H1, H2, H3, H4, H5.
  cbn [fst snd] in H1, H2, H3, H4, H5.
  rewrite He. cbn [index]. unfold bind at 1. cbn [ret].
  unfold bind at 1. unfold iadd_next_sample.
  rewrite (H5 i e He), Nat.ltb_irrefl.
  unfold bind at 1. unfold get_next_negative_sample.
  cbn [epoch_of_next_negative_sample].
  assert (Hepns : nth_error epns0 i = Some (np_divide fl e 0)).
  { unfold epochs_per_negative_sample_of.
    now rewrite nth_error_map, He. }
  rewrite (H4 i (Nat.le_refl i)), Hepns. cbn [index ret].
  unfold bind at 1. cbn [ret].
  destruct (quotient_rate_zero fl e) as [Hz Hq].
  unfold bind at 1. unfold xdiv. rewrite Hz, Hq. cbn [ret]. cbv zeta.
  cbn [int64_of_float].
  replace (Z.to_nat (int_of_unrepresentable NaN)) with 0%nat by lia.
  cbn [range seq for_each]. unfold bind at 1. cbn [ret].
  unfold iadd_next_negative_sample.
  cbn [epoch_of_next_negative_sample].
  rewrite (H4 i (Nat.le_refl i)), Hepns.
  cbn [counters_rng epoch_of_next_sample epoch_of_next_negative_sample
       rng_state trace fst snd].
  split; [| exact Ht].
  split; [exact H1 |].
  split; [now rewrite length_list_set |].
  split; [now rewrite length_list_set |].
  split.
  - intros i' Hi'. rewrite nth_error_list_set_neq by lia. apply H4. lia.
  - intros i' e' He'. rewrite nth_error_list_set.
    destruct (Nat.eqb_spec i i') as [<- | Hne].
    + rewrite (H5 i e He).
      replace (i <? S i)%nat with true by (symmetry; apply Nat.ltb_lt; lia).
      rewrite He in He'. injection He' as <-.
      unfold advanced_if_due.
      apply Qle_bool_iff in Hle. now rewrite Hle.
    + rewrite (H5 i' e' He').
      replace (i' <? S i)%nat with (i' <? i)%nat; [reflexivity |].
      destruct (Nat.ltb_spec i' i), (Nat.ltb_spec i' (S i)); auto; lia.
Qed.

Lemma edge_step_rate_zero (i : nat) :
  (i < length epochs_per_sample)%nat ->
  hoare (I i)
    (edge_step pow tau_rand_int fuel fl int_of_unrepresentable
       head_embedding tail_embedding head tail hub_info n_vertices
       epochs_per_sample a b gamma dim move_other alpha epns0 0 i)
    (fun _ => I (S i)) stopped.
Proof.
  intros Hi. unfold edge_step. intros s Hs.
  pose proof Hs as [[H1 [H2 [H3 [H4 H5]]]] Ht].
  unfold counters_rng in H1, H2, H3, H4, H5.
  cbn [fst snd] in H1, H2, H3, H4, H5.
  destruct (nth_error epochs_per_sample i) as [e |] eqn:He;
    [| apply nth_error_None in He; lia].
  unfold bind at 1. unfold get_next_sample.
  pose proof (H5 i e He) as Hx. rewrite Nat.ltb_irrefl in Hx.
  rewrite Hx. cbn [index ret].
  destruct (xle_bool (Fin e) (Fin (float_of_nat 0))) eqn:Hle.
  - cbn in Hle. apply Qle_bool_iff in Hle.
    apply (fire_edge_rate_zero i e He Hle s Hs).
  - cbn [ret]. apply (I_next i s e (Fin e)); auto.
Qed.

Lemma single_epoch_rate_zero :
  hoare (I 0%nat)
    (nn_layout_optimize_single_epoch pow tau_rand_int fuel fl
       int_of_unrepresentable head_embedding tail_embedding head tail
       hub_info n_vertices epochs_per_sample a b gamma dim move_other alpha
       epns0 0)
    (fun _ => I (length epochs_per_sample)) stopped.
Proof.
  unfold nn_layout_optimize_single_epoch, range.
  apply (hoare_for_each_seq I stopped). intros i Hi.
  apply edge_step_rate_zero. lia.
Qed.

(** ** The epoch returns on inputs that are in range *)

Variable h0 : heap.

Hypothesis inputs_ok :
  indices_in_range h0 head_embedding tail_embedding head tail hub_info
    (length epochs_per_sample).
Hypothesis dim_ok : dim = snd (shape (load h0 head_embedding)).
Hypothesis a_nonneg : 0 <= a.
Hypothesis pow_nonneg : forall x, 0 < x -> 0 <= pow x b.

(** The arrays have the row lengths they had in [h0]. *)
Local Abbreviation Sk :=
  (fun s : state =>
     skeleton (load (st_heap s) head_embedding)
     = skeleton (load h0 head_embedding)
     /\ skeleton (load (st_heap s) tail_embedding)
        = skeleton (load h0 tail_embedding)).

Lemma iadd_coord_returns (kind : update_kind) (n : nat) (r : aref)
    (j d : nat) (g scale x : Q) (s : state) :
  Sk s ->
  get2 (load (st_heap s) r) j d = Some x ->
  exists s', iadd_coord kind n r j d g alpha scale s = (Ok tt, s')
             /\ Sk s'.
Proof.
  intros [S1 S2] Hx. eexists.
  split; [exact (iadd_coord_ok kind n r j d g alpha scale x s Hx) |].
  cbn [st_heap]. unfold heap_iadd. rewrite Hx.
  now rewrite !skeleton_heap_set.
Qed.

Lemma attract_dim_returns (j k : nat) (gc : Q) (d : nat) (s : state) :
  (j < length (load h0 head_embedding))%nat ->
  (k < length (load h0 tail_embedding))%nat ->
  (k < length hub_info)%nat ->
  (d < dim)%nat ->
  Sk s ->
  exists s',
    attract_dim head_embedding tail_embedding hub_info move_other alpha 0
      j k gc d s = (Ok tt, s')
    /\ Sk s'.
Proof.
  intros Hj Hk Hhub Hd HS. pose proof HS as [S1 S2].
  destruct inputs_ok as [_ [_ [_ [_ [R1 R2]]]]].
  rewrite <- dim_ok in R1, R2.
  destruct (get2_in_range _ _ dim j d S1 Hj R1 Hd) as [cur Hcur].
  destruct (get2_in_range _ _ dim k d S2 Hk R2 Hd) as [oth Hoth].
  destruct (nth_error hub_info k) as [label |] eqn:Hl;
    [| apply nth_error_None in Hl; lia].
  unfold attract_dim.
  rewrite (bind_ok _ _ _ _ _ (read_coord_ok _ _ _ _ _ Hcur)).
  rewrite (bind_ok _ _ _ _ _ (read_coord_ok _ _ _ _ _ Hoth)).
  rewrite Hl. cbn [index]. unfold bind at 1. cbn [ret].
  destruct (iadd_coord_returns AttractHead 0 head_embedding j d
              (attract_grad_d gc cur oth) (fst (hub_scale label)) cur s
              HS Hcur) as [s1 [H1 HS1]].
  rewrite (bind_ok _ _ _ _ _ H1).
  destruct move_other; [| exists s1; split; [reflexivity | exact HS1]].
  destruct (get2_in_range _ _ dim k d (proj2 HS1) Hk R2 Hd) as [oth1 Hoth1].
  apply (iadd_coord_returns AttractTail 0 tail_embedding k d _ _ oth1 s1
           HS1 Hoth1).
Qed.

(** A due edge returns. *)
Lemma fire_edge_returns (i : nat) (e : Q) (s : state) :
  nth_error epochs_per_sample i = Some e ->
  I i s -> Sk s ->
  exists s',
    fire_edge pow tau_rand_int fuel fl int_of_unrepresentable
      head_embedding tail_embedding head tail hub_info n_vertices
      epochs_per_sample a b gamma dim move_other alpha epns0 0 i s
    = (Ok tt, s')
    /\ Sk s'.
Proof.
  intros He HI HS.
  assert (Hi : (i < length epochs_per_sample)%nat)
    by (apply nth_error_Some; congruence).
  destruct inputs_ok as [L1 [L2 [F1 [F2 _]]]].
  destruct (nth_error head i) as [j |] eqn:Hj;
    [| apply nth_error_None in Hj; lia].
  destruct (nth_error tail i) as [k |] eqn:Hk;
    [| apply nth_error_None in Hk; lia].
  pose proof (Forall_nth_error _ _ _ _ F1 Hj) as Hjr. cbn in Hjr.
  pose proof (Forall_nth_error _ _ _ _ F2 Hk) as [Hkr Hkh].
  destruct (row_in_range _ _ j (proj1 HS) Hjr) as [cur Hcur].
  destruct (row_in_range _ _ k (proj2 HS) Hkr) as [oth Hoth].
  destruct (attract_coeff_returns pow a b (rdist cur oth) s a_nonneg
              pow_nonneg) as [gc Hgc].
  unfold fire_edge. rewrite Hj, Hk. cbn [index].
  unfold bind at 1. cbn [ret]. unfold bind at 1. cbn [ret].
  rewrite (bind_ok _ _ _ _ _ (row_view_ok _ _ _ _ Hcur)).
  rewrite (bind_ok _ _ _ _ _ (row_view_ok _ _ _ _ Hoth)).
  rewrite (bind_ok _ _ _ _ _ Hgc).
  destruct (for_each_returns Sk (range dim)
              (attract_dim head_embedding tail_embedding hub_info
                 move_other alpha 0 j k gc)
              (fun d s1 Hd HS1 =>
                 attract_dim_returns j k gc d s1 Hjr Hkr Hkh
                   (proj2 (proj1 (in_seq dim 0 d) Hd)) HS1)
              s HS) as [s1 [Hloop HS1]].
  assert (Hc : counters_rng s1 = counters_rng s).
  { pose proof (preserves_for_each counters_rng (range dim)
                  (attract_dim head_embedding tail_embedding hub_info
                     move_other alpha 0 j k gc)
                  (preserves_attract_dim head_embedding tail_embedding
                     hub_info move_other alpha 0 j k gc) s) as H.
    now rewrite Hloop in H. }
  rewrite (bind_ok _ _ _ _ _ Hloop).
  destruct HI as [[H1 [H2 [H3 [H4 H5]]]] _]. rewrite <- Hc in *.
  unfold counters_rng in H1, H2, H3, H4, H5.
  cbn [fst snd] in H1, H2, H3, H4, H5.
  rewrite He. cbn [index]. unfold bind at 1. cbn [ret].
  unfold bind at 1. unfold iadd_next_sample.
  rewrite (H5 i e He), Nat.ltb_irrefl.
  unfold bind at 1. unfold get_next_negative_sample.
  cbn [epoch_of_next_negative_sample].
  assert (Hepns : nth_error epns0 i = Some (np_divide fl e 0)).
  { unfold epochs_per_negative_sample_of.
    now rewrite nth_error_map, He. }
  rewrite (H4 i (Nat.le_refl i)), Hepns. cbn [index ret].
  unfold bind at 1. cbn [ret].
  destruct (quotient_rate_zero fl e) as [Hz Hq].
  unfold bind at 1. unfold xdiv. rewrite Hz, Hq. cbn [ret]. cbv zeta.
  cbn [int64_of_float].
  replace (Z.to_nat (int_of_unrepresentable NaN)) with 0%nat by lia.
  cbn [range seq for_each]. unfold bind at 1. cbn [ret].
  unfold iadd_next_negative_sample.
  cbn [epoch_of_next_negative_sample].
  rewrite (H4 i (Nat.le_refl i)), Hepns.
  eexists. split; [reflexivity | exact HS1].
Qed.

Lemma edge_step_returns (i : nat) (s : state) :
  (i < length epochs_per_sample)%nat ->
  I i s /\ Sk s ->
  exists s',
    edge_step pow tau_rand_int fuel fl int_of_unrepresentable
      head_embedding tail_embedding head tail hub_info n_vertices
      epochs_per_sample a b gamma dim move_other alpha epns0 0 i s
    = (Ok tt, s')
    /\ (I (S i) s' /\ Sk s').
Proof.
  intros Hi [HI HS].
  pose proof (edge_step_rate_zero i Hi s HI) as HA.
  assert (HB : exists s',
             edge_step pow tau_rand_int fuel fl int_of_unrepresentable
               head_embedding tail_embedding head tail hub_info n_vertices
               epochs_per_sample a b gamma dim move_other alpha epns0 0 i s
             = (Ok tt, s') /\ Sk s').
  { destruct (nth_error epochs_per_sample i) as [e |] eqn:He;
      [| apply nth_error_None in He; lia].
    pose proof HI as [[_ [_ [_ [_ H5]]]] _].
    unfold counters_rng in H5. cbn [fst snd] in H5.
    pose proof (H5 i e He) as Hx. rewrite Nat.ltb_irrefl in Hx.
    unfold edge_step. unfold bind at 1. unfold get_next_sample.
    rewrite Hx. cbn [index ret].
    destruct (xle_bool (Fin e) (Fin (float_of_nat 0)));
      [apply (fire_edge_returns i e s He HI HS) |].
    exists s. split; [reflexivity | exact HS]. }
  destruct HB as [s' [Hrun HS']]. exists s'. rewrite Hrun in HA.
  split; [exact Hrun | split; [exact HA | exact HS']].
Qed.

Lemma single_epoch_returns (s : state) :
  I 0%nat s -> Sk s ->
  exists s',
    nn_layout_optimize_single_epoch pow tau_rand_int fuel fl
      int_of_unrepresentable head_embedding tail_embedding head tail
      hub_info n_vertices epochs_per_sample a b gamma dim move_other alpha
      epns0 0 s
    = (Ok tt, s').
Proof.
  intros HI HS. unfold nn_layout_optimize_single_epoch, range.
  destruct (for_each_seq_returns (fun i s1 => I i s1 /\ Sk s1)
              (edge_step pow tau_rand_int fuel fl int_of_unrepresentable
                 head_embedding tail_embedding head tail hub_info
                 n_vertices epochs_per_sample a b gamma dim move_other
                 alpha epns0 0)
              (length epochs_per_sample) 0%nat
              (fun i s1 Hi HJ => edge_step_returns i s1 ltac:(lia) HJ)
              s (conj HI HS)) as [s' [H _]].
  exists s'. exact H.
Qed.

End NoNegativeSamples.


(** * numpy operations on arrays given by their entries *)

Lemma range_length (n : nat) : length (range n) = n.
Proof. apply length_seq. Qed.

Lemma in_range (n i : nat) : In i (range n) <-> (i < n)%nat.
Proof. unfold range. rewrite in_seq. lia. Qed.

Lemma map_as_range {A B : Type} (g : A -> B) (l : list A) (d : A) :
  map g l = map (fun i => g (nth i l d)) (range (length l)).
Proof.
  unfold range. induction l as [| x l IH]; [reflexivity |].
  cbn [length seq map nth]. f_equal.
  rewrite IH, <- seq_shift, map_map. reflexivity.
Qed.

Lemma list_as_range {A : Type} (l : list A) (d : A) :
  l = map (fun i => nth i l d) (range (length l)).
Proof. rewrite <- (map_as_range (fun x => x)). now rewrite map_id. Qed.

Lemma zip_with_map {A B C D : Type} (f : B -> C -> D) (g : A -> B)
    (h : A -> C) (l : list A) :
  zip_with f (map g l) (map h l) = map (fun x => f (g x) (h x)) l.
Proof. induction l; cbn; congruence. Qed.

Lemma zip_with_length {A B C : Type} (f : A -> B -> C) (xs : list A)
    (ys : list B) :
  length xs = length ys -> length (zip_with f xs ys) = length xs.
Proof.
  revert ys. induction xs as [| x xs IH]; intros [| y ys] H; cbn in *;
    try discriminate; auto.
Qed.

Lemma broadcast_zip {A B C : Type} (f : A -> B -> C) (xs : list A)
    (ys : list B) :
  length xs = length ys -> broadcast f xs ys = zip_with f xs ys.
Proof.
  intros H. destruct xs as [| x [| x' xs]], ys as [| y [| y' ys]];
    cbn in *; try discriminate; reflexivity.
Qed.

Lemma broadcast_single_r {A B C : Type} (f : A -> B -> C) (xs : list A)
    (y : B) :
  broadcast f xs [y] = map (fun x => f x y) xs.
Proof. destruct xs as [| x [| x' xs]]; reflexivity. Qed.

Lemma broadcast_map {A B C D : Type} (f : B -> C -> D) (g : A -> B)
    (h : A -> C) (l : list A) :
  broadcast f (map g l) (map h l) = map (fun x => f (g x) (h x)) l.
Proof.
  rewrite broadcast_zip by now rewrite !length_map. apply zip_with_map.
Qed.

Lemma tabulate_ext (rows cols : nat) (F G : nat -> nat -> Q) :
  (forall i j, (i < rows)%nat -> (j < cols)%nat -> F i j = G i j) ->
  tabulate rows cols F = tabulate rows cols G.
Proof.
  intros H. unfold tabulate. apply map_ext_in. intros i Hi.
  apply map_ext_in. intros j Hj. apply H; now apply in_range.
Qed.

Lemma nth_map_range {A : Type} (f : nat -> A) (n i : nat) (d : A) :
  (i < n)%nat -> nth i (map f (range n)) d = f i.
Proof.
  intros H. rewrite (nth_indep _ d (f 0%nat)) by now rewrite length_map,
    range_length.
  rewrite (map_nth f). unfold range. now rewrite seq_nth.
Qed.

Lemma at2_tabulate (rows cols : nat) (F : nat -> nat -> Q) (i j : nat) :
  (i < rows)%nat -> (j < cols)%nat -> at2 (tabulate rows cols F) i j = F i j.
Proof.
  intros Hi Hj. unfold at2, tabulate.
  rewrite nth_map_range by exact Hi. now apply nth_map_range.
Qed.

Lemma tabulate_of_shape (rows cols : nat) (m : matrix) :
  has_shape rows cols m -> m = tabulate rows cols (at2 m).
Proof.
  intros [Hr Hc]. unfold tabulate, at2. subst rows.
  rewrite (list_as_range m []) at 1. apply map_ext_in. intros i Hi.
  apply in_range in Hi.
  assert (Hlen : length (nth i m []) = cols).
  { rewrite Forall_forall in Hc. apply Hc. now apply nth_In. }
  rewrite (list_as_range (nth i m []) 0) at 1. now rewrite Hlen.
Qed.

Lemma smap_tabulate (f : Q -> Q) (rows cols : nat) (F : nat -> nat -> Q) :
  smap f (tabulate rows cols F) = tabulate rows cols (fun i j => f (F i j)).
Proof.
  unfold smap, tabulate. rewrite map_map. apply map_ext. intros i.
  now rewrite map_map.
Qed.

Lemma bop2_tabulate (f : Q -> Q -> Q) (rows cols : nat)
    (F G : nat -> nat -> Q) :
  bop2 f (tabulate rows cols F) (tabulate rows cols G)
  = tabulate rows cols (fun i j => f (F i j) (G i j)).
Proof.
  unfold bop2, tabulate. rewrite broadcast_map. apply map_ext. intros i.
  apply broadcast_map.
Qed.

Lemma bop2_tabulate_column (f : Q -> Q -> Q) (rows cols : nat)
    (F G : nat -> nat -> Q) :
  bop2 f (tabulate rows cols F) (tabulate rows 1 G)
  = tabulate rows cols (fun i j => f (F i j) (G i 0%nat)).
Proof.
  unfold bop2, tabulate. rewrite broadcast_map. apply map_ext. intros i.
  cbn [range seq map]. rewrite broadcast_single_r. now rewrite map_map.
Qed.

Lemma expand_dims_2_tabulate (rows cols : nat) (F : nat -> nat -> Q) :
  expand_dims_2 (tabulate rows cols F)
  = tabulate3 rows cols 1 (fun i j _ => F i j).
Proof.
  unfold expand_dims_2, tabulate3, tabulate. rewrite map_map.
  apply map_ext. intros i. now rewrite map_map.
Qed.

Lemma bop3_tabulate_l1 (f : Q -> Q -> Q) (rows cols depth : nat)
    (G F : nat -> nat -> nat -> Q) :
  bop3 f (tabulate3 rows cols 1 G) (tabulate3 rows cols depth F)
  = tabulate3 rows cols depth (fun i j d => f (G i j 0%nat) (F i j d)).
Proof.
  unfold bop3, tabulate3, tabulate. rewrite broadcast_map.
  apply map_ext. intros i. rewrite broadcast_map.
  apply map_ext. intros j. cbn [range seq map broadcast].
  now rewrite map_map.
Qed.

Lemma bop3_tabulate_r1 (f : Q -> Q -> Q) (rows cols depth : nat)
    (F G : nat -> nat -> nat -> Q) :
  bop3 f (tabulate3 rows cols depth F) (tabulate3 rows cols 1 G)
  = tabulate3 rows cols depth (fun i j d => f (F i j d) (G i j 0%nat)).
Proof.
  unfold bop3, tabulate3, tabulate. rewrite broadcast_map.
  apply map_ext. intros i. rewrite broadcast_map.
  apply map_ext. intros j. cbn [range seq map].
  rewrite broadcast_single_r. now rewrite map_map.
Qed.

(** Line 47: the displacement of every ordered pair of rows. *)
Lemma z_diff_tabulate (f : Q -> Q -> Q) (rows cols : nat)
    (F : nat -> nat -> Q) :
  bop3 f (expand_dims_1 (tabulate rows cols F))
         (expand_dims_0 (tabulate rows cols F))
  = tabulate3 rows rows cols (fun i j d => f (F i d) (F j d)).
Proof.
  unfold bop3, expand_dims_1, expand_dims_0.
  rewrite broadcast_single_r, map_map. cbn [broadcast].
  transitivity
    (map (fun i =>
            map (fun j => broadcast f (map (F i) (range cols))
                                    (map (F j) (range cols)))
                (range rows))
         (range rows)).
  - unfold tabulate. rewrite map_map. apply map_ext. intros i.
    now rewrite map_map.
  - unfold tabulate3, tabulate. apply map_ext. intros i.
    apply map_ext. intros j. apply broadcast_map.
Qed.

Lemma list_set_map_seq (f : nat -> Q) (k n i : nat) (v : Q) :
  list_set (map f (seq k n)) i v
  = map (fun j => if (k + i =? j)%nat then v else f j) (seq k n).
Proof.
  revert k i. induction n as [| n IH]; intros k i; [reflexivity |].
  cbn [seq map]. destruct i as [| i]; cbn [list_set].
  - rewrite Nat.add_0_r, Nat.eqb_refl. f_equal.
    apply map_ext_in. intros j Hj. apply in_seq in Hj.
    destruct (Nat.eqb_spec k j); [lia | reflexivity].
  - destruct (Nat.eqb_spec (k + S i) k); [lia |]. f_equal.
    rewrite IH. apply map_ext. intros j.
    now replace (S k + i)%nat with (k + S i)%nat by lia.
Qed.

Lemma fill_diagonal_tabulate (n : nat) (F : nat -> nat -> Q) (v : Q) :
  fill_diagonal (tabulate n n F) v
  = tabulate n n (fun i j => if (i =? j)%nat then v else F i j).
Proof.
  unfold fill_diagonal, tabulate. rewrite length_map, range_length.
  rewrite <- (map_id (range n)) at 1. rewrite zip_with_map.
  apply map_ext. intros i. unfold range. now rewrite list_set_map_seq.
Qed.

Lemma hd_tabulate (rows cols : nat) (F : nat -> nat -> Q) :
  (0 < rows)%nat -> length (hd [] (tabulate rows cols F)) = cols.
Proof.
  intros H. destruct rows; [lia |]. cbn. now rewrite length_map, range_length.
Qed.

Lemma column_tabulate (rows cols : nat) (F : nat -> nat -> Q) (j : nat) :
  (j < cols)%nat ->
  column (tabulate rows cols F) j = map (fun i => F i j) (range rows).
Proof.
  intros Hj. unfold column, tabulate. rewrite map_map.
  apply map_ext. intros i. now apply nth_map_range.
Qed.

Lemma dot_tabulate (n : nat) (F G : nat -> nat -> Q) :
  dot (tabulate n n F) (tabulate n n G)
  = tabulate n n
      (fun i j => sumQ (map (fun k => F i k * G k j) (range n))).
Proof.
  destruct (Nat.eq_dec n 0) as [-> | Hn]; [reflexivity |].
  unfold dot. rewrite hd_tabulate by lia.
  set (TG := tabulate n n G). unfold tabulate. rewrite map_map.
  apply map_ext. intros i.
  apply map_ext_in. intros j Hj. apply in_range in Hj. subst TG.
  rewrite column_tabulate by exact Hj. now rewrite zip_with_map.
Qed.

Lemma sum_axis1_keepdims_tabulate (rows cols : nat) (F : nat -> nat -> Q) :
  sum_axis1_keepdims (tabulate rows cols F)
  = tabulate rows 1 (fun i _ => sumQ (map (F i) (range cols))).
Proof.
  unfold sum_axis1_keepdims, tabulate. rewrite map_map. reflexivity.
Qed.

Lemma sum_axis1_tabulate3 (n depth : nat) (F : nat -> nat -> nat -> Q) :
  sum_axis1 (tabulate3 n n depth F)
  = tabulate n depth
      (fun i d => sumQ (map (fun j => F i j d) (range n))).
Proof.
  destruct (Nat.eq_dec n 0) as [-> | Hn]; [reflexivity |].
  unfold sum_axis1, tabulate3. rewrite map_map.
  unfold tabulate at 3. apply map_ext. intros i.
  rewrite hd_tabulate by lia. apply map_ext_in. intros d Hd.
  apply in_range in Hd. now rewrite column_tabulate.
Qed.


(** * Round to nearest, ties to even *)

(** ** Rounding to an integer *)

Lemma Qround_even_comp (x y : Q) :
  x == y -> Qround_even x = Qround_even y.
Proof.
  intros H. unfold Qround_even. cbv zeta.
  rewrite (Qfloor_comp x y H).
  assert (Hc : (x - inject_Z (Qfloor y) ?= 1 # 2)
               = (y - inject_Z (Qfloor y) ?= 1 # 2)).
  { apply Qcompare_comp; [| reflexivity]. now rewrite H. }
  now rewrite Hc.
Qed.

Lemma Qround_even_Z (z : Z) : Qround_even (inject_Z z) = z.
Proof.
  unfold Qround_even. cbv zeta. rewrite Qfloor_Z.
  assert (H : inject_Z z - inject_Z z < 1 # 2).
  { setoid_replace (inject_Z z - inject_Z z) with 0 by ring. reflexivity. }
  destruct (inject_Z z - inject_Z z ?= 1 # 2) eqn:Hc; [| reflexivity |].
  - apply Qeq_alt in Hc. lra.
  - apply Qgt_alt in Hc. lra.
Qed.

Lemma Qround_even_floor (x : Q) :
  (Qfloor x <= Qround_even x <= Qfloor x + 1)%Z.
Proof.
  unfold Qround_even. cbv zeta.
  destruct (x - inject_Z (Qfloor x) ?= 1 # 2); [| lia | lia].
  destruct (Z.even (Qfloor x)); lia.
Qed.

Lemma Qround_even_le (x y : Q) :
  x <= y -> (Qround_even x <= Qround_even y)%Z.
Proof.
  intros H. pose proof (Qfloor_resp_le x y H) as Hf.
  destruct (Z.eq_dec (Qfloor x) (Qfloor y)) as [He | Hne].
  - unfold Qround_even. cbv zeta. rewrite He.
    set (f := Qfloor y) in *.
    assert (Hxy : x - inject_Z f <= y - inject_Z f) by lra.
    generalize dependent (x - inject_Z f). intros u.
    generalize dependent (y - inject_Z f). intros v Huv.
    destruct (Qcompare_spec u (1 # 2)) as [Hu | Hu | Hu];
      destruct (Qcompare_spec v (1 # 2)) as [Hv | Hv | Hv];
      try (destruct (Z.even f); lia); try lia; lra.
  - pose proof (Qround_even_floor x). pose proof (Qround_even_floor y).
    lia.
Qed.

Lemma Qround_even_nonneg (x : Q) : 0 <= x -> (0 <= Qround_even x)%Z.
Proof.
  intros H. rewrite <- (Qround_even_Z 0). now apply Qround_even_le.
Qed.

(** ** Powers of two *)

Lemma pow2_pos (z : Z) : 0 < 2 ^ z.
Proof. apply Qpower_0_lt. reflexivity. Qed.

Lemma pow2_add (n m : Z) : 2 ^ (n + m) == 2 ^ n * 2 ^ m.
Proof. apply Qpower_plus. discriminate. Qed.

Lemma pow2_le (n m : Z) : (n <= m)%Z -> 2 ^ n <= 2 ^ m.
Proof. intros H. apply Qpower_le_compat_l; [exact H | discriminate]. Qed.

Lemma pow2_lt_inv (n m : Z) : 2 ^ n < 2 ^ m -> (n < m)%Z.
Proof. intros H. apply (Qpower_lt_compat_l_inv 2); [exact H | reflexivity]. Qed.

Lemma pow2_Z (n : Z) : (0 <= n)%Z -> inject_Z (2 ^ n) == 2 ^ n.
Proof. intros H. now rewrite Zpower_Qpower. Qed.

(** A quotient of powers of two. *)
Lemma pow2_div (n m : Z) : 2 ^ n / 2 ^ m == 2 ^ (n - m).
Proof.
  pose proof (pow2_pos m).
  replace n with ((n - m) + m)%Z at 1 by lia.
  rewrite pow2_add. field. lra.
Qed.

(** ** The exponent of a positive number *)

Lemma Qnum_den_mul (x : Q) :
  x * inject_Z (Zpos (Qden x)) == inject_Z (Qnum x).
Proof.
  destruct x as [n d]. unfold Qeq, Qmult, inject_Z. cbn [Qnum Qden].
  rewrite Pos.mul_1_r. ring.
Qed.

Lemma Qlog2_spec (x : Q) :
  0 < x -> 2 ^ Qlog2 x <= x /\ x < 2 ^ (Qlog2 x + 1).
Proof.
  intros Hx. unfold Qlog2. cbv zeta.
  set (a := Z.log2 (Qnum x)). set (b := Z.log2 (Zpos (Qden x))).
  assert (Hn : (0 < Qnum x)%Z).
  { unfold Qlt in Hx. cbn in Hx. lia. }
  assert (Ha0 : (0 <= a)%Z) by apply Z.log2_nonneg.
  assert (Hb0 : (0 <= b)%Z) by apply Z.log2_nonneg.
  destruct (Z.log2_spec (Qnum x) Hn) as [Ha1 Ha2]. fold a in Ha1, Ha2.
  destruct (Z.log2_spec (Zpos (Qden x)) (Pos2Z.is_pos _)) as [Hb1 Hb2].
  fold b in Hb1, Hb2.
  set (N := inject_Z (Qnum x)). set (D := inject_Z (Zpos (Qden x))).
  assert (HA1 : 2 ^ a <= N).
  { rewrite <- pow2_Z by exact Ha0. unfold N. now rewrite <- Zle_Qle. }
  assert (HA2 : N < 2 * 2 ^ a).
  { setoid_replace (2 * 2 ^ a) with (2 ^ (Z.succ a)).
    - rewrite <- pow2_Z by lia. unfold N. now rewrite <- Zlt_Qlt.
    - unfold Z.succ. rewrite pow2_add. ring. }
  assert (HB1 : 2 ^ b <= D).
  { rewrite <- pow2_Z by exact Hb0. unfold D. now rewrite <- Zle_Qle. }
  assert (HB2 : D < 2 * 2 ^ b).
  { setoid_replace (2 * 2 ^ b) with (2 ^ (Z.succ b)).
    - rewrite <- pow2_Z by lia. unfold D. now rewrite <- Zlt_Qlt.
    - unfold Z.succ. rewrite pow2_add. ring. }
  assert (HxD : x * D == N).
  { apply Qnum_den_mul. }
  pose proof (pow2_pos a) as PA. pose proof (pow2_pos b) as PB.
  assert (HD : 0 < D) by lra.
  assert (Hup : x < 2 ^ (a - b + 1)).
  { setoid_replace (2 ^ (a - b + 1)) with (2 * 2 ^ a / 2 ^ b).
    - apply Qlt_shift_div_l; [exact PB |].
      apply Qle_lt_trans with (x * D); [| lra].
      apply Qmult_le_l; [exact Hx | exact HB1].
    - rewrite pow2_add, <- pow2_div. field. lra. }
  assert (Hlow : 2 ^ (a - b - 1) < x).
  { setoid_replace (2 ^ (a - b - 1)) with (2 ^ a / (2 * 2 ^ b)).
    - apply Qlt_shift_div_r; [lra |].
      apply Qle_lt_trans with (x * D); [lra |].
      apply Qmult_lt_l; [exact Hx | exact HB2].
    - replace (a - b - 1)%Z with ((a - b) + (- 1))%Z by lia.
      rewrite pow2_add, <- pow2_div. change (2 ^ (- 1)) with (/ 2).
      field. lra. }
  destruct (Qle_bool (2 ^ (a - b)) x) eqn:Hc.
  - apply Qle_bool_iff in Hc. split; [exact Hc | exact Hup].
  - apply Qle_bool_false in Hc. split; [lra |].
    replace (a - b - 1 + 1)%Z with (a - b)%Z by lia. exact Hc.
Qed.

(** The exponent is the only one that brackets the number. *)
Lemma Qlog2_unique (x : Q) (e : Z) :
  2 ^ e <= x -> x < 2 ^ (e + 1) -> Qlog2 x = e.
Proof.
  intros H1 H2.
  assert (Hx : 0 < x) by (pose proof (pow2_pos e); lra).
  destruct (Qlog2_spec x Hx) as [L1 L2].
  assert (Qlog2 x < e + 1)%Z by (apply pow2_lt_inv; lra).
  assert (e < Qlog2 x + 1)%Z by (apply pow2_lt_inv; lra).
  lia.
Qed.

Lemma Qlog2_comp (x y : Q) : 0 < x -> x == y -> Qlog2 x = Qlog2 y.
Proof.
  intros Hx H. assert (Hy : 0 < y) by lra.
  destruct (Qlog2_spec y Hy) as [L1 L2].
  apply Qlog2_unique; lra.
Qed.

Lemma Qlog2_le (x y : Q) : 0 < x -> x <= y -> (Qlog2 x <= Qlog2 y)%Z.
Proof.
  intros Hx H. assert (Hy : 0 < y) by lra.
  destruct (Qlog2_spec x Hx) as [L1 _].
  destruct (Qlog2_spec y Hy) as [_ L2].
  assert (Qlog2 x < Qlog2 y + 1)%Z by (apply pow2_lt_inv; lra).
  lia.
Qed.

(** ** Rounding to 53 significant bits *)

Lemma Qround_even_le_Z (x : Q) (k : Z) :
  x <= inject_Z k -> (Qround_even x <= k)%Z.
Proof.
  intros H. rewrite <- (Qround_even_Z k). now apply Qround_even_le.
Qed.

Lemma Qround_even_ge_Z (x : Q) (k : Z) :
  inject_Z k <= x -> (k <= Qround_even x)%Z.
Proof.
  intros H. rewrite <- (Qround_even_Z k). now apply Qround_even_le.
Qed.

Lemma Qdiv_le_compat (x y u : Q) : 0 < u -> x <= y -> x / u <= y / u.
Proof.
  intros Hu H. apply Qle_shift_div_l; [exact Hu |].
  setoid_replace (x / u * u) with x by (field; lra). exact H.
Qed.

Lemma Qdiv_lt_compat (x y u : Q) : 0 < u -> x < y -> x / u < y / u.
Proof.
  intros Hu H. apply Qlt_shift_div_l; [exact Hu |].
  setoid_replace (x / u * u) with x by (field; lra). exact H.
Qed.

Lemma ulp_pos (x : Q) : 0 < ulp x.
Proof. apply pow2_pos. Qed.

Lemma nearest_double_nonneg (x : Q) : 0 < x -> 0 <= nearest_double x.
Proof.
  intros Hx. unfold nearest_double. pose proof (ulp_pos x) as Hu.
  apply Qmult_le_0_compat; [| lra].
  change 0 with (inject_Z 0). rewrite <- Zle_Qle.
  apply Qround_even_nonneg.
  apply Qle_shift_div_l; [exact Hu | lra].
Qed.

Lemma nearest_double_comp (x y : Q) :
  0 < x -> x == y -> nearest_double x == nearest_double y.
Proof.
  intros Hx H. unfold nearest_double, ulp.
  rewrite (Qlog2_comp x y Hx H).
  set (u := 2 ^ Z.max (Qlog2 y - 52) (- 1074)).
  assert (Hq : x / u == y / u) by now rewrite H.
  now rewrite (Qround_even_comp _ _ Hq).
Qed.

(** Rounding keeps the order of positive numbers. *)
Lemma nearest_double_le (p q : Q) :
  0 < p -> p <= q -> nearest_double p <= nearest_double q.
Proof.
  intros Hp Hpq. assert (Hq : 0 < q) by lra.
  pose proof (Qlog2_le p q Hp Hpq) as HL.
  destruct (Qlog2_spec p Hp) as [_ Hp2].
  destruct (Qlog2_spec q Hq) as [Hq1 _].
  unfold nearest_double, ulp.
  set (Lp := Qlog2 p) in *. set (Lq := Qlog2 q) in *.
  set (ep := Z.max (Lp - 52) (- 1074)).
  set (eq := Z.max (Lq - 52) (- 1074)).
  pose proof (pow2_pos ep) as Up. pose proof (pow2_pos eq) as Uq.
  destruct (Z.eq_dec ep eq) as [He | Hne].
  - rewrite He. apply Qmult_le_compat_r; [| lra].
    rewrite <- Zle_Qle. apply Qround_even_le.
    now apply Qdiv_le_compat.
  - assert (Heq : eq = (Lq - 52)%Z) by lia.
    assert (Hlt : (Lp < Lq)%Z) by lia.
    assert (Hmid : p <= 2 ^ Lq).
    { apply Qle_trans with (2 ^ (Lp + 1)); [lra |]. apply pow2_le. lia. }
    apply Qle_trans with (2 ^ Lq).
    + assert (Hk : (Qround_even (p / 2 ^ ep) <= 2 ^ (Lq - ep))%Z).
      { apply Qround_even_le_Z. rewrite pow2_Z by lia.
        rewrite <- pow2_div. now apply Qdiv_le_compat. }
      apply Qle_trans with (inject_Z (2 ^ (Lq - ep)) * 2 ^ ep).
      * apply Qmult_le_compat_r; [| lra]. now rewrite <- Zle_Qle.
      * rewrite pow2_Z by lia. rewrite <- pow2_div.
        setoid_replace (2 ^ Lq / 2 ^ ep * 2 ^ ep) with (2 ^ Lq)
          by (field; lra).
        apply Qle_refl.
    + assert (Hk : (2 ^ 52 <= Qround_even (q / 2 ^ eq))%Z).
      { apply Qround_even_ge_Z. rewrite pow2_Z by lia.
        replace 52%Z with (Lq - eq)%Z by lia.
        rewrite <- pow2_div. now apply Qdiv_le_compat. }
      apply Qle_trans with (inject_Z (2 ^ 52) * 2 ^ eq).
      * rewrite pow2_Z by lia.
        replace 52%Z with (Lq - eq)%Z at 1 by lia.
        rewrite <- pow2_div.
        setoid_replace (2 ^ Lq / 2 ^ eq * 2 ^ eq) with (2 ^ Lq)
          by (field; lra).
        apply Qle_refl.
      * apply Qmult_le_compat_r; [| lra]. now rewrite <- Zle_Qle.
Qed.

(** The rounded value is a significand of at most 53 bits times a power of
    two that is [2^-1074] at the least. *)
Lemma nearest_double_shape (x : Q) :
  0 < x ->
  exists (m e : Z),
    nearest_double x == inject_Z m * 2 ^ e
    /\ (0 <= m <= 2 ^ 53)%Z /\ (- 1074 <= e)%Z.
Proof.
  intros Hx. destruct (Qlog2_spec x Hx) as [_ H2].
  exists (Qround_even (x / ulp x)), (Z.max (Qlog2 x - 52) (- 1074)).
  split; [reflexivity |]. split; [| lia].
  pose proof (ulp_pos x) as Hu. split.
  - apply Qround_even_nonneg. apply Qle_shift_div_l; [exact Hu | lra].
  - apply Qround_even_le_Z. rewrite pow2_Z by lia.
    apply Qle_trans with (2 ^ (Qlog2 x + 1) / ulp x).
    + apply Qdiv_le_compat; [exact Hu | lra].
    + unfold ulp. rewrite pow2_div. apply pow2_le. lia.
Qed.

(** Such a value rounds to itself. *)
Lemma nearest_double_fixed (m e : Z) :
  (1 <= m <= 2 ^ 53)%Z -> (- 1074 <= e)%Z ->
  nearest_double (inject_Z m * 2 ^ e) == inject_Z m * 2 ^ e.
Proof.
  intros Hm He. set (x := inject_Z m * 2 ^ e).
  set (k := Z.log2 m).
  assert (Hk0 : (0 <= k)%Z) by apply Z.log2_nonneg.
  destruct (Z.log2_spec m) as [K1 K2]; [lia |]. fold k in K1, K2.
  assert (Hk53 : (k <= 53)%Z).
  { unfold k. change 53%Z with (Z.log2 (2 ^ 53)).
    apply Z.log2_le_mono. lia. }
  pose proof (pow2_pos e) as Pe.
  assert (Q1 : 2 ^ k <= inject_Z m).
  { rewrite <- pow2_Z by exact Hk0. now rewrite <- Zle_Qle. }
  assert (Q2 : inject_Z m < 2 ^ (k + 1)).
  { rewrite <- pow2_Z by lia. now rewrite <- Zlt_Qlt. }
  assert (HL : Qlog2 x = (k + e)%Z).
  { apply Qlog2_unique; unfold x.
    - rewrite pow2_add. apply Qmult_le_compat_r; [exact Q1 | lra].
    - replace (k + e + 1)%Z with ((k + 1) + e)%Z by lia.
      rewrite pow2_add. apply Qmult_lt_compat_r; [exact Pe | exact Q2]. }
  assert (HJ : exists J, x / ulp x == inject_Z J).
  { unfold ulp. rewrite HL.
    destruct (Z_le_gt_dec k 52) as [Hle | Hgt].
    - set (E := Z.max (k + e - 52) (- 1074)).
      exists (m * 2 ^ (e - E))%Z.
      rewrite inject_Z_mult, pow2_Z by lia. rewrite <- pow2_div.
      unfold x. pose proof (pow2_pos E). field. lra.
    - assert (k = 53%Z) by lia. subst k.
      assert (Hm53 : m = (2 ^ 53)%Z).
      { rewrite H in K1. lia. }
      exists (2 ^ 52)%Z. rewrite H.
      replace (Z.max (53 + e - 52) (- 1074)) with (e + 1)%Z by lia.
      unfold x. rewrite Hm53. rewrite !pow2_Z by lia.
      rewrite pow2_add. change (2 ^ 1) with 2.
      setoid_replace (2 ^ 53) with (2 * 2 ^ 52)
        by (change 53%Z with (1 + 52)%Z; rewrite pow2_add; reflexivity).
      pose proof (pow2_pos 52). field. lra. }
  destruct HJ as [J HJ]. unfold nearest_double.
  rewrite (Qround_even_comp _ _ HJ), Qround_even_Z, <- HJ.
  pose proof (ulp_pos x). field. lra.
Qed.

Lemma nearest_double_idempotent (x : Q) :
  0 < x -> 0 < nearest_double x ->
  nearest_double (nearest_double x) == nearest_double x.
Proof.
  intros Hx Hv. destruct (nearest_double_shape x Hx) as (m & e & Hs & Hm & He).
  assert (Hm1 : (1 <= m <= 2 ^ 53)%Z).
  { assert (m <> 0%Z); [| lia].
    intros ->. rewrite Hs in Hv. change (inject_Z 0) with 0 in Hv. lra. }
  apply Qeq_trans with (nearest_double (inject_Z m * 2 ^ e)).
  - apply nearest_double_comp; [exact Hv | exact Hs].
  - apply Qeq_trans with (inject_Z m * 2 ^ e).
    + now apply nearest_double_fixed.
    + apply Qeq_sym, Hs.
Qed.

(** ** binary64 *)

Lemma binary64_pos (q : Q) :
  0 < q ->
  binary64 q = if Qle_bool (2 ^ 1024) (nearest_double q) then PInf
               else Fin (Qred (nearest_double q)).
Proof.
  intros H. unfold binary64.
  destruct (Qcompare_spec q 0) as [E | E | E]; [lra | lra | reflexivity].
Qed.

Lemma binary64_neg (q : Q) :
  q < 0 ->
  binary64 q = if Qle_bool (2 ^ 1024) (nearest_double (- q)) then NInf
               else Fin (Qred (- nearest_double (- q))).
Proof.
  intros H. unfold binary64.
  destruct (Qcompare_spec q 0) as [E | E | E]; [lra | reflexivity | lra].
Qed.

Lemma binary64_null (q : Q) : q == 0 -> binary64 q = Fin 0.
Proof.
  intros H. unfold binary64.
  destruct (Qcompare_spec q 0) as [E | E | E]; [reflexivity | lra | lra].
Qed.

(** Rounding to double keeps the order. *)
Lemma binary64_monotone (p q : Q) :
  p <= q -> xle (binary64 p) (binary64 q).
Proof.
  intros H.
  destruct (Q_dec p 0) as [[Hp | Hp] | Hp];
    destruct (Q_dec q 0) as [[Hq | Hq] | Hq]; try lra.
  - rewrite (binary64_neg p Hp), (binary64_neg q Hq).
    assert (Hle : nearest_double (- q) <= nearest_double (- p))
      by (apply nearest_double_le; lra).
    destruct (Qle_bool _ (nearest_double (- p))) eqn:Ep;
      destruct (Qle_bool _ (nearest_double (- q))) eqn:Eq;
      cbn [xle]; try exact I.
    + apply Qle_bool_false in Ep. apply Qle_bool_iff in Eq. lra.
    + rewrite !Qred_correct. lra.
  - rewrite (binary64_neg p Hp), (binary64_pos q Hq).
    pose proof (nearest_double_nonneg (- p)) as Np.
    pose proof (nearest_double_nonneg q Hq) as Nq.
    destruct (Qle_bool _ (nearest_double (- p)));
      destruct (Qle_bool _ (nearest_double q));
      cbn [xle]; try exact I.
    rewrite !Qred_correct. lra.
  - rewrite (binary64_neg p Hp), (binary64_null q Hq).
    pose proof (nearest_double_nonneg (- p)) as Np.
    destruct (Qle_bool _ (nearest_double (- p))); cbn [xle];
      [exact I |].
    rewrite Qred_correct. lra.
  - rewrite (binary64_pos p Hp), (binary64_pos q Hq).
    assert (Hle : nearest_double p <= nearest_double q)
      by (apply nearest_double_le; lra).
    destruct (Qle_bool _ (nearest_double p)) eqn:Ep;
      destruct (Qle_bool _ (nearest_double q)) eqn:Eq;
      cbn [xle]; try exact I.
    + apply Qle_bool_false in Eq. apply Qle_bool_iff in Ep. lra.
    + rewrite !Qred_correct. lra.
  - rewrite (binary64_null p Hp), (binary64_pos q Hq).
    pose proof (nearest_double_nonneg q Hq) as Nq.
    destruct (Qle_bool _ (nearest_double q)); cbn [xle]; [exact I |].
    rewrite Qred_correct. lra.
  - rewrite (binary64_null p Hp), (binary64_null q Hq). cbn [xle]. lra.
Qed.

(** A double rounds to itself. *)
Lemma binary64_idempotent (q r : Q) :
  binary64 q = Fin r -> binary64 r = Fin r.
Proof.
  intros H.
  destruct (Q_dec q 0) as [[Hq | Hq] | Hq].
  - rewrite (binary64_neg q Hq) in H.
    pose proof (nearest_double_nonneg (- q)) as Nv.
    destruct (Qle_bool _ (nearest_double (- q))) eqn:Ev; [discriminate |].
    assert (Er : r = Qred (- nearest_double (- q))) by congruence.
    subst r. clear H. apply Qle_bool_false in Ev.
    assert (Hq' : 0 < - q) by lra. specialize (Nv Hq').
    set (v := nearest_double (- q)) in *.
    destruct (Qlt_le_dec 0 v) as [Hv | Hv].
    + pose proof (Qred_correct (- v)) as Hr.
      assert (Hneg : Qred (- v) < 0) by lra.
      assert (Hvv : nearest_double (- Qred (- v)) == v).
      { apply Qeq_trans with (nearest_double v).
        - apply nearest_double_comp; lra.
        - now apply nearest_double_idempotent. }
      rewrite (binary64_neg _ Hneg).
      destruct (Qle_bool _ (nearest_double (- Qred (- v)))) eqn:E2.
      * apply Qle_bool_iff in E2. lra.
      * f_equal. apply Qred_complete. lra.
    + assert (E0 : Qred (- v) = 0).
      { rewrite (Qred_complete (- v) 0); [reflexivity | lra]. }
      rewrite E0. reflexivity.
  - rewrite (binary64_pos q Hq) in H.
    pose proof (nearest_double_nonneg q Hq) as Nv.
    destruct (Qle_bool _ (nearest_double q)) eqn:Ev; [discriminate |].
    assert (Er : r = Qred (nearest_double q)) by congruence.
    subst r. clear H. apply Qle_bool_false in Ev.
    set (v := nearest_double q) in *.
    destruct (Qlt_le_dec 0 v) as [Hv | Hv].
    + pose proof (Qred_correct v) as Hr.
      assert (Hpos : 0 < Qred v) by lra.
      assert (Hvv : nearest_double (Qred v) == v).
      { apply Qeq_trans with (nearest_double v).
        - apply nearest_double_comp; lra.
        - now apply nearest_double_idempotent. }
      rewrite (binary64_pos _ Hpos).
      destruct (Qle_bool _ (nearest_double (Qred v))) eqn:E2.
      * apply Qle_bool_iff in E2. lra.
      * f_equal. apply Qred_complete. lra.
    + assert (E0 : Qred v = 0).
      { rewrite (Qred_complete v 0); [reflexivity | lra]. }
      rewrite E0. reflexivity.
  - rewrite (binary64_null q Hq) in H.
    assert (Er : r = 0) by congruence. subst r. reflexivity.
Qed.


(** * Zero iterations, and the last line of [nn_layout_optimize] *)

(** C1.  With [max_iter = 0] the Global Layout Refiner returns [Z] exactly
    as it received it.  With [n_epochs = 0] the Local Layout Optimizer
    changes no coordinate either, but it does not return: the call of
    [plot_tmptmp] on line 143 finds the name unbound and raises. *)
Theorem zero_iterations_global_returns_local_raises :
  (forall pow adjacency_matrix P a b alpha Z,
      optimize_global_layout pow adjacency_matrix P a b alpha 0 Z = Z)
  /\
  (forall pow tau_rand_int fuel fl int_of_unrepresentable head_embedding
          tail_embedding head tail
          hub_info n_vertices epochs_per_sample a b gamma initial_alpha
          negative_sample_rate verbose s,
      let r :=
        nn_layout_optimize pow tau_rand_int fuel fl int_of_unrepresentable
          head_embedding
          tail_embedding head tail hub_info n_vertices epochs_per_sample
          a b gamma 0 initial_alpha negative_sample_rate verbose s in
      fst r = Raise NameError
      /\ st_heap (snd r) = st_heap s
      /\ trace (snd r) = trace s).
Proof.
  split.
  - intros. reflexivity.
  - intros. subst r. cbn. auto.
Qed.

(** C2, as the code has it.  When [verbose] is off or [n_epochs] is 0 the
    name [plot_tmptmp] is never bound: the call never returns
    [head_embedding]; it ends in the state its epochs left, every update
    applied; and when the epochs have all run it raises NameError.  A call
    whose epochs raise, or do not end, ends as they do. *)
Theorem unbound_plot_tmptmp_raises_NameError :
  forall pow tau_rand_int fuel fl int_of_unrepresentable head_embedding
         tail_embedding head tail
         hub_info n_vertices epochs_per_sample a b gamma n_epochs
         initial_alpha negative_sample_rate verbose s,
    verbose = false \/ n_epochs = 0%nat ->
    let epochs :=
      run_epochs pow tau_rand_int fuel fl int_of_unrepresentable head_embedding
        tail_embedding head
        tail hub_info n_vertices epochs_per_sample a b gamma n_epochs
        initial_alpha negative_sample_rate verbose s in
    let r :=
      nn_layout_optimize pow tau_rand_int fuel fl int_of_unrepresentable
        head_embedding
        tail_embedding head tail hub_info n_vertices epochs_per_sample
        a b gamma n_epochs initial_alpha negative_sample_rate verbose s in
    (forall v, fst r <> Ok v)
    /\ snd r = snd epochs
    /\ (forall q, fst epochs = Ok q -> fst r = Raise NameError).
Proof.
  intros pow tau fuel fl cast hd tl head tail hub nv eps a b gamma N ia rate
         verbose s Hcase epochs r.
  assert (Hflag : forall q s', epochs = (Ok q, s') -> snd q = false).
  { subst epochs. unfold run_epochs, run_first_epochs. cbv zeta. unfold bind,
    reset_counters.
    intros q s' H. destruct Hcase as [Hv | HN].
    - eapply epoch_loop_unbound; eauto.
    - subst N. cbn in H. injection H as <- _. reflexivity. }
  subst r. unfold nn_layout_optimize, bind. fold epochs.
  destruct epochs as [[q | e | ] s1] eqn:He; cbn.
  - rewrite (Hflag q s1 eq_refl). cbn.
    split; [discriminate | split; [reflexivity | reflexivity]].
  - split; [discriminate | split; [reflexivity | discriminate]].
  - split; [discriminate | split; [reflexivity | discriminate]].
Qed.

Lemma unbound_plot_tmptmp_witness :
  (false = false \/ 2%nat = 0%nat)
  /\ fst (nn_layout_optimize pow_int rng_counter 5 fl_exact int64_indefinite
            ArrA ArrA [0%nat]
            [1%nat] [1%Z; 1%Z] 2 [1] 1 1 1 2 1 1 false state_line)
     = Raise NameError.
Proof.
  split; [left; reflexivity |].
  apply (unbound_plot_tmptmp_raises_NameError pow_int rng_counter 5 fl_exact
           int64_indefinite ArrA
           ArrA [0%nat] [1%nat] [1%Z; 1%Z] 2 [1] 1 1 1 2 1 1 false
           state_line (or_introl eq_refl)) with (q := (1 * (1 - 1 / 2), false)).
  vm_compute. reflexivity.
Defined.

(** C2 as claimed fails: not every call with [verbose] off raises
    NameError.  With [n_vertices = 0] the first negative sample, in epoch
    1, divides by zero on line 209, and the call raises ZeroDivisionError
    before it reaches line 143. *)
Lemma unbound_plot_tmptmp_counterexample :
  fst (nn_layout_optimize pow_int rng_counter 5 binary64 int64_indefinite
         ArrA ArrA [0%nat] [1%nat] [1%Z; 1%Z] 0 [1] 1 1 1 2 1 5 false
         state_line)
  = Raise ZeroDivisionError.
Proof. vm_compute. reflexivity. Qed.

(** * The learning rate of an epoch *)

(** C3, as the code has it.  Every coordinate update of a run is made in
    an epoch [n < n_epochs] and is scaled by the learning rate line 132
    computed in the epoch before, [initial_alpha * (1 - (n-1)/n_epochs)],
    and by [initial_alpha] itself in epoch 0. *)
Theorem update_scaled_by_previous_alpha :
  forall pow tau_rand_int fuel fl int_of_unrepresentable head_embedding
         tail_embedding head tail
         hub_info n_vertices epochs_per_sample a b gamma n_epochs
         initial_alpha negative_sample_rate verbose s,
    extends_with
      (fun e => (u_epoch e < n_epochs)%nat
                /\ u_alpha e = alpha_used initial_alpha n_epochs (u_epoch e))
      (trace s)
      (trace (snd (nn_layout_optimize pow tau_rand_int fuel fl
                     int_of_unrepresentable head_embedding
                     tail_embedding head tail hub_info n_vertices
                     epochs_per_sample a b gamma n_epochs initial_alpha
                     negative_sample_rate verbose s))).
Proof.
  intros pow tau fuel fl cast hd tl head tail hub nv eps a b gamma N ia rate
         verbose s.
  eapply extends_with_weaken;
    [| apply (hoare_final _ _ _ _ s
                (trace_nn_layout_optimize pow tau fuel fl cast hd tl head tail
                   hub
                   nv eps a b gamma N ia rate verbose (trace s)));
       [apply extends_with_refl | auto]].
  intros e [[_ [Ha _]] Hn]. split; assumption.
Qed.

(** C3 as claimed fails: in a run of two epochs the update of epoch 1 is
    scaled by [initial_alpha], not by [initial_alpha * (1 - 1/2)]. *)
Lemma alpha_claimed_counterexample :
  exists e,
    In e (trace (snd (nn_layout_optimize pow_int rng_counter 5 fl_exact
                        int64_indefinite ArrA ArrA
                        [0%nat] [1%nat] [1%Z; 1%Z] 2 [1] 1 1 1 2 1 1 false
                        state_line)))
    /\ ~ u_alpha e == alpha_claimed 1 2 (u_epoch e).
Proof.
  eexists. split.
  - vm_compute. left. reflexivity.
  - vm_compute. discriminate.
Qed.

(** * Clipping *)

(** C9.  Every coordinate update of a run, attractive or repulsive, has a
    displacement of absolute value at most 10 before the scale factor and
    the learning rate are applied. *)
Theorem displacement_at_most_10 :
  forall pow tau_rand_int fuel fl int_of_unrepresentable head_embedding
         tail_embedding head tail
         hub_info n_vertices epochs_per_sample a b gamma n_epochs
         initial_alpha negative_sample_rate verbose s,
    extends_with
      (fun e => Qabs (u_disp e) <= 10)
      (trace s)
      (trace (snd (nn_layout_optimize pow tau_rand_int fuel fl
                     int_of_unrepresentable head_embedding
                     tail_embedding head tail hub_info n_vertices
                     epochs_per_sample a b gamma n_epochs initial_alpha
                     negative_sample_rate verbose s))).
Proof.
  intros pow tau fuel fl cast hd tl head tail hub nv eps a b gamma N ia rate
         verbose s.
  eapply extends_with_weaken;
    [| apply (hoare_final _ _ _ _ s
                (trace_nn_layout_optimize pow tau fuel fl cast hd tl head tail
                   hub
                   nv eps a b gamma N ia rate verbose (trace s)));
       [apply extends_with_refl | auto]].
  intros e [[_ [_ Hd]] _]. exact Hd.
Qed.


(** * Hub labels without an eligible vertex *)

(** C5, as the code has it.  The optimizer makes no check of [hub_info].
    When no vertex has a label above 0 (and the draws index [hub_info]
    in range), a negative sample never ends: its rejection loop uses up any
    number of iterations, with no coordinate written and no exception. *)
Theorem no_hub_negative_sample_never_ends :
  forall pow tau_rand_int fuel head_embedding tail_embedding hub_info
         n_vertices a b gamma dim alpha n j p s,
    no_hub hub_info ->
    (0 < n_vertices <= length hub_info)%nat ->
    let r :=
      negative_sample pow tau_rand_int fuel head_embedding tail_embedding
        hub_info n_vertices a b gamma dim alpha n j p s in
    fst r = OutOfFuel
    /\ st_heap (snd r) = st_heap s
    /\ trace (snd r) = trace s.
Proof.
  intros pow tau fuel hd tl hub nv a b gamma dim alpha n j p s Hhub Hnv r.
  subst r. unfold negative_sample, bind.
  pose proof (draw_hub_diverges tau hub nv fuel Hhub Hnv s) as Hd.
  pose proof (preserves_heap_draw_hub tau hub nv fuel s) as Hh.
  pose proof (preserves_trace_draw_hub tau hub nv fuel s) as Ht.
  destruct (draw_hub tau hub nv fuel s) as [[k | e | ] s1]; cbn in *;
    try discriminate.
  auto.
Qed.

Lemma no_hub_negative_sample_witness :
  no_hub [0%Z; 0%Z]
  /\ (0 < 2 <= length [0%Z; 0%Z])%nat
  /\ fst (negative_sample pow_int rng_counter 7 ArrA ArrA [0%Z; 0%Z] 2
            1 1 1 1 1 1 0 0 state_line) = OutOfFuel.
Proof.
  assert (H1 : no_hub [0%Z; 0%Z]) by (repeat constructor; discriminate).
  assert (H2 : (0 < 2 <= length [0%Z; 0%Z])%nat) by (cbn; lia).
  split; [exact H1 | split; [exact H2 |]].
  exact (proj1 (no_hub_negative_sample_never_ends pow_int rng_counter 7
                  ArrA ArrA [0%Z; 0%Z] 2 1 1 1 1 1 1 0 0 state_line H1 H2)).
Defined.

(** With hub labels [0, 0] a run of two epochs applies the attractive
    updates of the edge that fires in epoch 1 and then stays in the
    rejection loop, whatever the number of iterations allowed. *)
Lemma no_hub_run_diverges (fuel : nat) :
  let r :=
    nn_layout_optimize pow_int rng_counter fuel fl_exact int64_indefinite
      ArrA ArrA [0%nat]
      [1%nat] [0%Z; 0%Z] 2 [1] 1 1 1 2 1 5 false state_line in
  fst r = OutOfFuel /\ length (trace (snd r)) = 2%nat.
Proof.
  intros r.
  set (s1 := mkState heap_line [Fin 1] [fl_exact (1 / 5)] [0%Z] []).
  assert (Hfire : exists s3,
    fire_edge pow_int rng_counter fuel fl_exact int64_indefinite
      ArrA ArrA [0%nat] [1%nat]
      [0%Z; 0%Z] 2 [1] 1 1 1 1 true (next_alpha 2 1 0) [fl_exact (1 / 5)] 1 0
      s1
    = (OutOfFuel, s3) /\ length (trace s3) = 2%nat).
  { unfold fire_edge.
    do 11 (erewrite bind_ok by (cbv; reflexivity)).
    cbv zeta.
    change (range (Z.to_nat (int64_of_float int64_indefinite (Fin (20 # 5)))))
      with [0; 1; 2; 3]%nat.
    cbn [for_each].
    unfold negative_sample at 1.
    match goal with
    | |- exists s3, bind _ _ ?s = _ /\ _ => set (s2 := s)
    end.
    pose proof (draw_hub_diverges rng_counter [0%Z; 0%Z] 2 fuel
                  ltac:(repeat constructor; discriminate)
                  ltac:(cbn; lia) s2) as Hd.
    pose proof (preserves_trace_draw_hub rng_counter [0%Z; 0%Z] 2 fuel s2)
      as Ht.
    destruct (draw_hub rng_counter [0%Z; 0%Z] 2 fuel s2)
      as [[k | e | ] s3] eqn:Hdraw; cbn in Hd; try discriminate.
    exists s3. split.
    - erewrite bind_out_of_fuel; [reflexivity |].
      erewrite bind_out_of_fuel; [reflexivity |].
      erewrite bind_out_of_fuel; [reflexivity | exact Hdraw].
    - cbn in Ht. now rewrite Ht. }
  destruct Hfire as [s3 [Hfire Hlen]].
  assert (Hrun :
    run_epochs pow_int rng_counter fuel fl_exact int64_indefinite
      ArrA ArrA [0%nat] [1%nat]
      [0%Z; 0%Z] 2 [1] 1 1 1 2 1 5 false state_line = (OutOfFuel, s3)).
  { unfold run_epochs, run_first_epochs. cbv zeta.
    erewrite bind_ok by (cbv; reflexivity).
    change (range 2) with [0%nat; 1%nat]. cbn [epoch_loop].
    erewrite bind_ok by (cbv; reflexivity).
    apply bind_out_of_fuel.
    unfold nn_layout_optimize_single_epoch. cbn [length range seq for_each].
    apply bind_out_of_fuel. unfold edge_step.
    erewrite bind_ok by (cbv; reflexivity).
    change (xle_bool (Fin 1) (Fin (float_of_nat 1))) with true. cbv iota.
    exact Hfire. }
  subst r. unfold nn_layout_optimize.
  rewrite (bind_out_of_fuel _ _ _ _ Hrun). cbn. auto.
Qed.

(** C5 as claimed fails: with hub labels [0, 0] a run of two epochs is not
    stopped at entry.  It applies the attractive updates of the edge that
    fires in epoch 1 and then stays in the rejection loop, whatever the
    number of iterations allowed; no exception is raised. *)
Lemma no_hub_not_rejected_at_entry :
  (forall fuel,
      fst (nn_layout_optimize pow_int rng_counter fuel fl_exact int64_indefinite
      ArrA ArrA [0%nat]
             [1%nat] [0%Z; 0%Z] 2 [1] 1 1 1 2 1 5 false state_line)
      = OutOfFuel)
  /\ length (trace (snd (nn_layout_optimize pow_int rng_counter 1000 fl_exact
                            int64_indefinite ArrA
                            ArrA [0%nat] [1%nat] [0%Z; 0%Z] 2 [1] 1 1 1 2
                            1 5 false state_line))) = 2%nat.
Proof.
  split.
  - intros fuel. apply (no_hub_run_diverges fuel).
  - apply (no_hub_run_diverges 1000).
Qed.


(** * A negative sample that hits the head vertex *)

(** C6, as the code has it.  A draw whose vertex is the head vertex of the
    edge is skipped, the state left as it was, when the squared distance
    between the two positions is not positive; that is so whenever
    [head_embedding] and [tail_embedding] are one array. *)
Theorem self_sample_skipped_at_distance_zero :
  forall pow head_embedding tail_embedding a b gamma dim alpha n j s
         current other,
    nth_error (load (st_heap s) head_embedding) j = Some current ->
    nth_error (load (st_heap s) tail_embedding) j = Some other ->
    tail_embedding = head_embedding \/ rdist current other <= 0 ->
    repulse pow head_embedding tail_embedding a b gamma dim alpha n j j s
    = (Ok tt, s).
Proof.
  intros pow hd tl a b gamma dim alpha n j s cur oth Hc Ho Hcase.
  assert (Hd : rdist cur oth <= 0).
  { destruct Hcase as [-> | H]; [| exact H].
    rewrite Hc in Ho. injection Ho as <-. rewrite rdist_self.
    apply Qle_refl. }
  unfold repulse.
  rewrite (bind_ok _ _ _ _ _ (row_view_ok _ _ _ _ Ho)).
  rewrite (bind_ok _ _ _ _ _ (row_view_ok _ _ _ _ Hc)).
  rewrite (Qgt0_false _ Hd), Nat.eqb_refl. reflexivity.
Qed.

Lemma self_sample_skipped_witness :
  nth_error (load (st_heap state_line) ArrA) 0 = Some [0]
  /\ (ArrA = ArrA \/ rdist [0] [0] <= 0)
  /\ repulse pow_int ArrA ArrA 1 1 1 1 1 0 0 0 state_line
     = (Ok tt, state_line).
Proof.
  split; [reflexivity |]. split; [left; reflexivity |].
  exact (self_sample_skipped_at_distance_zero pow_int ArrA ArrA 1 1 1 1 1
           0%nat 0%nat state_line [0] [0] eq_refl eq_refl
           (or_introl eq_refl)).
Defined.

(** C6 as claimed fails when the two embeddings are different arrays: the
    draw of vertex 0 for the head vertex 0 computes a coefficient and moves
    the head position. *)
Lemma self_sample_counterexample :
  let r := repulse pow_int ArrA ArrB 1 1 1 1 1 0 0 0 state_split in
  fst r = Ok tt
  /\ length (trace (snd r)) = 1%nat
  /\ (exists x, get2 (load (st_heap (snd r)) ArrA) 0 0 = Some x
                /\ ~ x == 0)
  /\ get2 (load (st_heap state_split) ArrA) 0 0 = Some 0.
Proof.
  vm_compute. repeat split. eexists. split; [reflexivity |]. discriminate.
Qed.

(** * The attractive step *)




(** * The counters over a run *)




(** * One epoch without negative samples *)




(** * One iteration of the Global Layout Refiner *)




(** * Further properties of the Local Layout Optimizer *)

(** ** The return with [verbose] on *)

Lemma epoch_loop_bound (pow : Q -> Q -> Q) (tau : list Z -> Z * list Z)
    (fuel : nat) (fl : Q -> xfloat) (cast : xfloat -> Z) (hd tl : aref)
    (head tail : list nat) (hub : list Z)
    (nv : nat) (eps : list Q) (a b gamma : Q) (N : nat) (ia rate : Q)
    (verbose : bool) (dim : nat) (mo : bool) (ns : list nat) :
  forall alpha s r s',
    epoch_loop pow tau fuel fl cast hd tl head tail hub nv eps a b gamma N ia
      rate
      verbose dim mo ns alpha true s = (Ok r, s') ->
    snd r = true.
Proof.
  induction ns as [| n ns IH]; intros alpha s r s'.
  - cbn. intros H. injection H as <- _. reflexivity.
  - cbn [epoch_loop]. unfold bind at 1.
    destruct (nn_layout_optimize_single_epoch _ _ _ _ _ _ _ _ _ _ _ _ _ _ _ _
                _ _ _ _ s) as [[u | e | ] s1]; try discriminate.
    cbn [orb]. apply IH.
Qed.

(** With [verbose] on and at least one epoch the import of line 135 binds
    [plot_tmptmp] in epoch 0: when the epochs have all run, the call
    returns [head_embedding], in the state the epochs left. *)
Theorem verbose_run_returns_head_embedding :
  forall pow tau_rand_int fuel fl int_of_unrepresentable head_embedding
         tail_embedding head tail
         hub_info n_vertices epochs_per_sample a b gamma n_epochs
         initial_alpha negative_sample_rate s q,
    (0 < n_epochs)%nat ->
    fst (run_epochs pow tau_rand_int fuel fl int_of_unrepresentable
           head_embedding tail_embedding
           head tail hub_info n_vertices epochs_per_sample a b gamma
           n_epochs initial_alpha negative_sample_rate true s) = Ok q ->
    nn_layout_optimize pow tau_rand_int fuel fl int_of_unrepresentable
      head_embedding tail_embedding
      head tail hub_info n_vertices epochs_per_sample a b gamma n_epochs
      initial_alpha negative_sample_rate true s
    = (Ok head_embedding,
       snd (run_epochs pow tau_rand_int fuel fl int_of_unrepresentable
              head_embedding tail_embedding
              head tail hub_info n_vertices epochs_per_sample a b gamma
              n_epochs initial_alpha negative_sample_rate true s)).
Proof.
  intros pow tau fuel fl cast hd tl head tail hub nv eps a b gamma N ia rate s q
         HN Hq.
  unfold nn_layout_optimize. unfold bind at 1.
  destruct (run_epochs _ _ _ _ _ _ _ _ _ _ _ _ _ _ _ _ _ _ _ s)
    as [[r | e | ] s1] eqn:Hrun; cbn in Hq; try discriminate.
  assert (Hb : snd r = true).
  { unfold run_epochs, run_first_epochs in Hrun. cbv zeta in Hrun.
    unfold bind in Hrun at 1. unfold reset_counters in Hrun at 1.
    destruct N as [| N]; [lia |].
    change (range (S N)) with (0%nat :: seq 1 N) in Hrun.
    cbn [epoch_loop] in Hrun. unfold bind in Hrun at 1.
    destruct (nn_layout_optimize_single_epoch _ _ _ _ _ _ _ _ _ _ _ _ _ _ _ _
                _ _ _ _ _) as [[u | e | ] s2]; try discriminate.
    cbn [orb andb Nat.modulo Nat.eqb] in Hrun.
    eapply epoch_loop_bound. exact Hrun. }
  rewrite Hb. reflexivity.
Qed.

Lemma verbose_run_witness :
  (0 < 1)%nat
  /\ fst (nn_layout_optimize pow_int rng_counter 5 fl_exact int64_indefinite
            ArrA ArrA [0%nat]
            [1%nat] [1%Z; 1%Z] 2 [1] 1 1 1 1 1 1 true state_line)
     = Ok ArrA.
Proof.
  split; [lia |].
  rewrite (verbose_run_returns_head_embedding pow_int rng_counter 5 fl_exact
             int64_indefinite ArrA
             ArrA [0%nat] [1%nat] [1%Z; 1%Z] 2 [1] 1 1 1 1 1 1 state_line
             (1 * (1 - 0 / 1), true) ltac:(lia) eq_refl).
  reflexivity.
Defined.

(** ** Epochs in which no edge is due *)

Lemma for_each_idle_edges (pow : Q -> Q -> Q) (tau : list Z -> Z * list Z)
    (fuel : nat) (fl : Q -> xfloat) (cast : xfloat -> Z) (hd tl : aref)
    (head tail : list nat) (hub : list Z)
    (nv : nat) (eps : list Q) (a b gamma : Q) (dim : nat) (mo : bool)
    (alpha : Q) (epns : list xfloat) (n : nat) (s : state) (l : list nat) :
  Forall (fun x => xle_bool x (Fin (float_of_nat n)) = false)
         (epoch_of_next_sample s) ->
  Forall (fun i => (i < length (epoch_of_next_sample s))%nat) l ->
  for_each l
    (edge_step pow tau fuel fl cast hd tl head tail hub nv eps a b gamma dim mo
       alpha epns n) s
  = (Ok tt, s).
Proof.
  intros Hlate Hl. induction Hl as [| i l Hi Hl IH]; [reflexivity |].
  cbn [for_each]. unfold bind at 1. unfold edge_step at 1.
  unfold bind at 1. unfold get_next_sample.
  destruct (nth_error (epoch_of_next_sample s) i) as [next |] eqn:Hn.
  - cbn [index ret].
    rewrite (Forall_nth_error _ _ _ _ Hlate Hn). cbn [ret]. exact IH.
  - apply nth_error_None in Hn. lia.
Qed.

(** An epoch that comes before every next-sample counter changes
    nothing. *)
Lemma single_epoch_idle (pow : Q -> Q -> Q) (tau : list Z -> Z * list Z)
    (fuel : nat) (fl : Q -> xfloat) (cast : xfloat -> Z) (hd tl : aref)
    (head tail : list nat) (hub : list Z)
    (nv : nat) (eps : list Q) (a b gamma : Q) (dim : nat) (mo : bool)
    (alpha : Q) (epns : list xfloat) (n : nat) (s : state) :
  length (epoch_of_next_sample s) = length eps ->
  Forall (fun x => xle_bool x (Fin (float_of_nat n)) = false)
         (epoch_of_next_sample s) ->
  nn_layout_optimize_single_epoch pow tau fuel fl cast hd tl head tail hub nv
    eps
    a b gamma dim mo alpha epns n s
  = (Ok tt, s).
Proof.
  intros Hlen Hlate. unfold nn_layout_optimize_single_epoch.
  apply for_each_idle_edges; [exact Hlate |].
  rewrite Forall_forall. intros i Hi. apply in_range in Hi. lia.
Qed.

(** As long as every [epochs_per_sample] value lies beyond the epoch
    number no edge is sampled: the first [k] epochs return and leave the
    coordinates, the generator, the trace and the fresh counters as they
    were. *)
Theorem idle_epochs_change_nothing :
  forall pow tau_rand_int fuel fl int_of_unrepresentable head_embedding
         tail_embedding head tail
         hub_info n_vertices epochs_per_sample a b gamma n_epochs
         initial_alpha negative_sample_rate verbose k s,
    (forall n, (n < k)%nat ->
               Forall (fun e => float_of_nat n < e) epochs_per_sample) ->
    let r :=
      run_first_epochs pow tau_rand_int fuel fl int_of_unrepresentable
        head_embedding tail_embedding
        head tail hub_info n_vertices epochs_per_sample a b gamma n_epochs
        initial_alpha negative_sample_rate verbose k s in
    (exists q, fst r = Ok q)
    /\ snd r
       = snd (reset_counters fl epochs_per_sample negative_sample_rate s).
Proof.
  intros pow tau fuel fl cast hd tl head tail hub nv eps a b gamma N ia rate
         verbose k s Hlate r.
  assert (Hrun : exists q,
            run_first_epochs pow tau fuel fl cast hd tl head tail hub nv eps a b
              gamma N ia rate verbose k s
            = (Ok q, snd (reset_counters fl eps rate s))).
  { unfold run_first_epochs. cbv zeta.
    set (dim := snd (shape _)). set (mo := (_ =? _)%nat).
    unfold bind at 1. unfold reset_counters. cbn [snd].
    set (s1 := mkState _ _ _ _ _).
    assert (Hloop : forall m k0 alpha bound,
              (k0 + m <= k)%nat ->
              exists q,
                epoch_loop pow tau fuel fl cast hd tl head tail hub nv eps a b
                  gamma N ia rate verbose dim mo (seq k0 m) alpha bound s1
                = (Ok q, s1)).
    { induction m as [| m IH]; intros k0 alpha bound Hk.
      - eexists. reflexivity.
      - cbn [seq epoch_loop]. unfold bind at 1.
        assert (Hidle : Forall
                          (fun x => xle_bool x (Fin (float_of_nat k0))
                                    = false)
                          (epoch_of_next_sample s1)).
        { cbn [epoch_of_next_sample s1]. apply Forall_map.
          eapply Forall_impl; [| exact (Hlate k0 ltac:(lia))].
          cbn. intros e He.
          destruct (Qle_bool e (float_of_nat k0)) eqn:Hle; [| reflexivity].
          apply Qle_bool_iff in Hle. lra. }
        rewrite (single_epoch_idle pow tau fuel fl cast hd tl head tail hub
                   nv eps a b gamma dim mo alpha
                   (epochs_per_negative_sample_of fl eps rate) k0 s1
                   (length_map _ _) Hidle).
        apply IH. lia. }
    exact (Hloop k 0%nat ia false ltac:(lia)). }
  destruct Hrun as [q Hq]. subst r. rewrite Hq. cbn [fst snd]. eauto.
Qed.

Lemma idle_epochs_witness :
  (forall n, (n < 1)%nat -> Forall (fun e => float_of_nat n < e) [1])
  /\ snd (run_first_epochs pow_int rng_counter 5 fl_exact int64_indefinite ArrA
            ArrA [0%nat] [1%nat]
            [1%Z; 1%Z] 2 [1] 1 1 1 1 1 5 false 1 state_line)
     = snd (reset_counters fl_exact [1] 5 state_line).
Proof.
  assert (H : forall n, (n < 1)%nat ->
                        Forall (fun e => float_of_nat n < e) [1]).
  { intros n Hn. assert (n = 0%nat) as -> by lia.
    constructor; [reflexivity | constructor]. }
  split; [exact H |].
  exact (proj2 (idle_epochs_change_nothing pow_int rng_counter 5 fl_exact
                  int64_indefinite ArrA ArrA
                  [0%nat] [1%nat] [1%Z; 1%Z] 2 [1] 1 1 1 1 1 5 false
                  1 state_line H)).
Defined.

(** ** The rejection loop *)

(** A vertex that the rejection loop returns is below [n_vertices] and has
    a hub label above 0. *)
Theorem draw_hub_returns_hub :
  forall tau_rand_int hub_info n_vertices steps s k s',
    draw_hub tau_rand_int hub_info n_vertices steps s = (Ok k, s') ->
    (k < n_vertices)%nat
    /\ exists label, nth_error hub_info k = Some label /\ (0 < label)%Z.
Proof.
  intros tau hub nv steps. induction steps as [| steps IH];
    intros s k s'; [discriminate |].
  cbn [draw_hub]. unfold bind at 1. unfold draw.
  destruct (tau (rng_state s)) as [r rng'].
  destruct (Nat.eqb_spec nv 0) as [H0 | H0]; [discriminate |].
  unfold bind at 1. unfold index.
  set (k0 := Z.to_nat (r mod Z.of_nat nv)).
  destruct (nth_error hub k0) as [label |] eqn:Hl; [| discriminate].
  cbn [ret]. destruct (label >? 0)%Z eqn:Hpos.
  - intros H. injection H as <- _. split.
    + assert (0 <= r mod Z.of_nat nv < Z.of_nat nv)%Z
        by (apply Z.mod_pos_bound; lia).
      subst k0. lia.
    + exists label. split; [exact Hl |].
      now apply Z.gtb_lt in Hpos.
  - apply IH.
Qed.

Lemma draw_hub_witness :
  draw_hub rng_counter [0%Z; 2%Z] 2 5 state_line
  = (Ok 1%nat, mkState heap_line [] [] [2%Z] [])
  /\ (1 < 2)%nat.
Proof.
  assert (H : draw_hub rng_counter [0%Z; 2%Z] 2 5 state_line
              = (Ok 1%nat, mkState heap_line [] [] [2%Z] []))
    by reflexivity.
  split; [exact H |].
  exact (proj1 (draw_hub_returns_hub rng_counter [0%Z; 2%Z] 2 5 state_line
                  1%nat _ H)).
Defined.


(** ** The gradient coefficients *)

(** With [a] and the power not negative, the divisors of lines 179 and
    218-220 are positive: neither coefficient raises ZeroDivisionError,
    and the attractive coefficient at a distance that is not positive is
    0, computed without a division. *)
Theorem coefficients_do_not_divide_by_zero :
  forall pow a b gamma dist_squared s,
    0 <= a ->
    0 <= pow dist_squared b ->
    (exists c,
        attract_coeff pow a b dist_squared s = (Ok c, s)
        /\ (dist_squared <= 0 -> c = 0))
    /\ (0 < dist_squared ->
        repulse_coeff pow a b gamma dist_squared s
        = (Ok (2 * gamma * b
               / ((0.001 + dist_squared)
                  * (a * pow dist_squared b + 1))), s)).
Proof.
  intros pow a b gamma d2 s Ha Hp.
  assert (Hden : 0 < a * pow d2 b + 1).
  { assert (0 <= a * pow d2 b) by (apply Qmult_le_0_compat; assumption).
    lra. }
  split.
  - unfold attract_coeff. destruct (Qgt0 d2) eqn:Hd.
    + unfold fdiv.
      destruct (Qeq_bool (a * pow d2 b + 1) 0) eqn:Hz.
      * apply Qeq_bool_eq in Hz. lra.
      * eexists. split; [reflexivity |]. intros Hle.
        apply Qgt0_true in Hd. lra.
    + exists 0. split; [reflexivity | reflexivity].
  - intros Hd. unfold repulse_coeff, fdiv.
    destruct (Qeq_bool _ 0) eqn:Hz; [| reflexivity].
    apply Qeq_bool_eq in Hz.
    assert (0 < (0.001 + d2) * (a * pow d2 b + 1)).
    { apply Qmult_lt_0_compat; lra. }
    lra.
Qed.

Lemma coefficients_witness :
  0 <= 1
  /\ 0 <= pow_int 4 1
  /\ exists c, attract_coeff pow_int 1 1 4 state_line = (Ok c, state_line).
Proof.
  assert (H1 : 0 <= 1) by discriminate.
  assert (H2 : 0 <= pow_int 4 1) by discriminate.
  split; [exact H1 |]. split; [exact H2 |].
  destruct (proj1 (coefficients_do_not_divide_by_zero pow_int 1 1 1 4
                     state_line H1 H2)) as [c [Hc _]].
  exists c. exact Hc.
Defined.

(** ** What a run writes *)

Section KernelFrame.

Variable pow : Q -> Q -> Q.
Variable tau_rand_int : list Z -> Z * list Z.
Variable fuel : nat.
Variable fl : Q -> xfloat.
Variable int_of_unrepresentable : xfloat -> Z.
Variable head_embedding : aref.
Variable tail_embedding : aref.
Variable head : list nat.
Variable tail : list nat.
Variable hub_info : list Z.
Variable n_vertices : nat.
Variable epochs_per_sample : list Q.
Variable a : Q.
Variable b : Q.
Variable gamma : Q.
Variable dim : nat.
Variable move_other : bool.

Variable C : Type.
Variable proj : state -> C.

Hypothesis proj_heap_only :
  forall s s', st_heap s' = st_heap s -> proj s' = proj s.

Hypothesis proj_head :
  forall kind n j d g alpha scale,
    preserves proj (iadd_coord kind n head_embedding j d g alpha scale).

Hypothesis proj_tail :
  move_other = true ->
  forall kind n k d g alpha scale,
    preserves proj (iadd_coord kind n tail_embedding k d g alpha scale).

Lemma frame_heap_kept {A : Type} (m : M A) :
  preserves st_heap m -> preserves proj m.
Proof. intros H s. apply proj_heap_only, H. Qed.

Lemma frame_pure {A : Type} (m : M A) : pure m -> preserves proj m.
Proof. intros H. apply pure_preserves, H. Qed.

Lemma frame_attract_dim (alpha : Q) (n j k : nat) (gc : Q) (d : nat) :
  preserves proj
    (attract_dim head_embedding tail_embedding hub_info move_other alpha n
       j k gc d).
Proof.
  unfold attract_dim.
  apply preserves_bind; [apply frame_pure, pure_read_coord |]. intros cur.
  apply preserves_bind; [apply frame_pure, pure_read_coord |]. intros oth.
  apply preserves_bind; [apply frame_pure, pure_index |]. intros label.
  apply preserves_bind; [apply proj_head |]. intros ?.
  destruct move_other eqn:Hmo;
    [apply proj_tail; reflexivity | apply frame_pure, pure_ret].
Qed.

Lemma frame_repulse (alpha : Q) (n j k : nat) :
  preserves proj
    (repulse pow head_embedding tail_embedding a b gamma dim alpha n j k).
Proof.
  assert (Hdim : forall gc d,
            preserves proj
              (repulse_dim head_embedding tail_embedding alpha n j k gc d)).
  { intros gc d. unfold repulse_dim.
    apply preserves_bind; [apply frame_pure, pure_repulse_grad_d |].
    intros g. apply proj_head. }
  unfold repulse.
  apply preserves_bind; [apply frame_pure, pure_row_view |]. intros oth.
  apply preserves_bind; [apply frame_pure, pure_row_view |]. intros cur.
  destruct (Qgt0 (rdist cur oth)).
  - apply preserves_bind; [apply frame_pure, pure_repulse_coeff |].
    intros gc. apply preserves_for_each. intros d. apply Hdim.
  - destruct (j =? k)%nat; [apply frame_pure, pure_ret |].
    apply preserves_for_each. intros d. apply Hdim.
Qed.

Lemma frame_fire_edge (alpha : Q) (epns : list xfloat) (n i : nat) :
  preserves proj
    (fire_edge pow tau_rand_int fuel fl int_of_unrepresentable head_embedding
       tail_embedding head tail
       hub_info n_vertices epochs_per_sample a b gamma dim move_other alpha
       epns n i).
Proof.
  unfold fire_edge.
  apply preserves_bind; [apply frame_pure, pure_index |]. intros j.
  apply preserves_bind; [apply frame_pure, pure_index |]. intros k.
  apply preserves_bind; [apply frame_pure, pure_row_view |]. intros cur.
  apply preserves_bind; [apply frame_pure, pure_row_view |]. intros oth.
  apply preserves_bind; [apply frame_pure, pure_attract_coeff |].
  intros gc.
  apply preserves_bind;
    [apply preserves_for_each; intros d; apply frame_attract_dim |].
  intros ?.
  apply preserves_bind; [apply frame_pure, pure_index |]. intros eps_i.
  apply preserves_bind.
  { apply frame_heap_kept. intros s. unfold iadd_next_sample.
    destruct (nth_error (epoch_of_next_sample s) i); reflexivity. }
  intros ?.
  apply preserves_bind;
    [apply frame_pure, pure_get_next_negative_sample |].
  intros next_neg.
  apply preserves_bind; [apply frame_pure, pure_index |]. intros epns_i.
  apply preserves_bind; [apply frame_pure, pure_xdiv |]. intros quo.
  cbv zeta.
  apply preserves_bind.
  { apply preserves_for_each. intros p. unfold negative_sample.
    apply preserves_bind;
      [apply frame_heap_kept, preserves_heap_draw_hub |].
    intros k'. apply frame_repulse. }
  intros ?.
  apply frame_heap_kept. intros s. unfold iadd_next_negative_sample.
  destruct (nth_error (epoch_of_next_negative_sample s) i); reflexivity.
Qed.

Lemma frame_single_epoch (alpha : Q) (epns : list xfloat) (n : nat) :
  preserves proj
    (nn_layout_optimize_single_epoch pow tau_rand_int fuel fl
       int_of_unrepresentable head_embedding
       tail_embedding head tail hub_info n_vertices epochs_per_sample a b
       gamma dim move_other alpha epns n).
Proof.
  unfold nn_layout_optimize_single_epoch. apply preserves_for_each.
  intros i. unfold edge_step.
  apply preserves_bind; [apply frame_pure, pure_get_next_sample |].
  intros next.
  destruct (xle_bool next (Fin (float_of_nat n)));
    [apply frame_fire_edge | apply frame_pure, pure_ret].
Qed.

Lemma frame_epoch_loop (n_epochs : nat) (initial_alpha rate : Q)
    (verbose : bool) (ns : list nat) :
  forall alpha bound,
    preserves proj
      (epoch_loop pow tau_rand_int fuel fl int_of_unrepresentable
         head_embedding tail_embedding head
         tail hub_info n_vertices epochs_per_sample a b gamma n_epochs
         initial_alpha rate verbose dim move_other ns alpha bound).
Proof.
  induction ns as [| n ns IH]; intros alpha bound; cbn [epoch_loop].
  - apply frame_pure, pure_ret.
  - apply preserves_bind; [apply frame_single_epoch |]. intros ?.
    apply IH.
Qed.

End KernelFrame.

(** The driver keeps a part of the state that its kernel, called with the
    driver's [dim] and [move_other], keeps. *)
Lemma frame_nn_layout_optimize (pow : Q -> Q -> Q)
    (tau : list Z -> Z * list Z) (fuel : nat) (fl : Q -> xfloat)
    (cast : xfloat -> Z) (hd tl : aref)
    (head tail : list nat) (hub : list Z) (nv : nat) (eps : list Q)
    (a b gamma : Q) (N : nat) (ia rate : Q) (verbose : bool)
    (C : Type) (proj : state -> C) (s : state) :
  (forall s1 s2, st_heap s2 = st_heap s1 -> proj s2 = proj s1) ->
  (forall kind n j d g alpha scale,
      preserves proj (iadd_coord kind n hd j d g alpha scale)) ->
  ((length (load (st_heap s) hd) =? length (load (st_heap s) tl))%nat
   = true ->
   forall kind n k d g alpha scale,
     preserves proj (iadd_coord kind n tl k d g alpha scale)) ->
  proj (snd (nn_layout_optimize pow tau fuel fl cast hd tl head tail hub nv eps
               a b
               gamma N ia rate verbose s)) = proj s.
Proof.
  intros Hheap Hhead Htail.
  unfold nn_layout_optimize. unfold bind at 1.
  assert (Hrun : proj (snd (run_epochs pow tau fuel fl cast hd tl head tail hub
                              nv
                              eps a b gamma N ia rate verbose s))
                 = proj s).
  { unfold run_epochs, run_first_epochs. cbv zeta.
    unfold bind at 1. unfold reset_counters at 1.
    rewrite (frame_epoch_loop pow tau fuel fl cast hd tl head tail hub nv eps a
               b
               gamma _ _ C proj Hheap Hhead Htail N ia rate verbose).
    apply Hheap. reflexivity. }
  destruct (run_epochs _ _ _ _ _ _ _ _ _ _ _ _ _ _ _ _ _ _ _ s)
    as [[r | e | ] s1]; cbn [snd] in *; auto.
  destruct (snd r); exact Hrun.
Qed.

(** A run changes the coordinates of an array only in place: the number of
    rows of either array and the length of every row stay as they were. *)
Theorem run_keeps_array_shapes :
  forall pow tau_rand_int fuel fl int_of_unrepresentable head_embedding
         tail_embedding head tail
         hub_info n_vertices epochs_per_sample a b gamma n_epochs
         initial_alpha negative_sample_rate verbose s r,
    skeleton
      (load (st_heap
               (snd (nn_layout_optimize pow tau_rand_int fuel fl
                       int_of_unrepresentable head_embedding
                       tail_embedding head tail hub_info n_vertices
                       epochs_per_sample a b gamma n_epochs initial_alpha
                       negative_sample_rate verbose s))) r)
    = skeleton (load (st_heap s) r).
Proof.
  intros pow tau fuel fl cast hd tl head tail hub nv eps a b gamma N ia rate
         verbose s r.
  assert (Hw : forall r' kind n j d g alpha scale,
            preserves (fun s0 => skeleton (load (st_heap s0) r))
                      (iadd_coord kind n r' j d g alpha scale)).
  { intros r' kind n j d g alpha scale s0. unfold iadd_coord.
    destruct (get2 (load (st_heap s0) r') j d); [| reflexivity].
    cbn. unfold heap_set.
    destruct r, r'; cbn; auto using skeleton_set2. }
  apply (frame_nn_layout_optimize pow tau fuel fl cast hd tl head tail hub nv
           eps a
           b gamma N ia rate verbose _
           (fun s0 => skeleton (load (st_heap s0) r)) s).
  - intros s1 s2 H. now rewrite H.
  - apply Hw.
  - intros _. apply Hw.
Qed.

(** When the two embeddings differ in their number of rows,
    [move_other] is false and a run writes [head_embedding] only:
    [tail_embedding] holds the rows it held before. *)
Theorem uneven_run_leaves_tail_embedding :
  forall pow tau_rand_int fuel fl int_of_unrepresentable head_embedding
         tail_embedding head tail
         hub_info n_vertices epochs_per_sample a b gamma n_epochs
         initial_alpha negative_sample_rate verbose s,
    fst (shape (load (st_heap s) head_embedding))
    <> fst (shape (load (st_heap s) tail_embedding)) ->
    load (st_heap
            (snd (nn_layout_optimize pow tau_rand_int fuel fl
                    int_of_unrepresentable head_embedding
                    tail_embedding head tail hub_info n_vertices
                    epochs_per_sample a b gamma n_epochs initial_alpha
                    negative_sample_rate verbose s))) tail_embedding
    = load (st_heap s) tail_embedding.
Proof.
  intros pow tau fuel fl cast hd tl head tail hub nv eps a b gamma N ia rate
         verbose s Hne.
  assert (Hdiff : hd <> tl) by (intros ->; now apply Hne).
  apply (frame_nn_layout_optimize pow tau fuel fl cast hd tl head tail hub nv
           eps a
           b gamma N ia rate verbose _
           (fun s0 => load (st_heap s0) tl) s).
  - intros s1 s2 H. now rewrite H.
  - intros kind n j d g alpha scale s0. unfold iadd_coord.
    destruct (get2 (load (st_heap s0) hd) j d); [| reflexivity].
    cbn. unfold heap_set. now apply load_store_other.
  - intros Heq. apply Nat.eqb_eq in Heq. cbn in Hne. contradiction.
Qed.

Lemma uneven_run_witness :
  fst (shape (load (st_heap state_uneven) ArrA))
  <> fst (shape (load (st_heap state_uneven) ArrB))
  /\ load (st_heap
             (snd (nn_layout_optimize pow_int rng_counter 5 fl_exact
                     int64_indefinite ArrA ArrB
                     [0%nat] [0%nat] [1%Z] 1 [1] 1 1 1 2 1 1 false
                     state_uneven))) ArrB
     = [[1]].
Proof.
  assert (H : fst (shape (load (st_heap state_uneven) ArrA))
              <> fst (shape (load (st_heap state_uneven) ArrB)))
    by (cbn; discriminate).
  split; [exact H |].
  exact (uneven_run_leaves_tail_embedding pow_int rng_counter 5 fl_exact
           int64_indefinite ArrA ArrB
           [0%nat] [0%nat] [1%Z] 1 [1] 1 1 1 2 1 1 false state_uneven H).
Defined.


(** ** The array and the scale factor of every update *)

Section KernelTraceKinds.

Variable pow : Q -> Q -> Q.
Variable tau_rand_int : list Z -> Z * list Z.
Variable fuel : nat.
Variable fl : Q -> xfloat.
Variable int_of_unrepresentable : xfloat -> Z.
Variable head_embedding : aref.
Variable tail_embedding : aref.
Variable head : list nat.
Variable tail : list nat.
Variable hub_info : list Z.
Variable n_vertices : nat.
Variable epochs_per_sample : list Q.
Variable a : Q.
Variable b : Q.
Variable gamma : Q.
Variable dim : nat.
Variable move_other : bool.

Variable P : update -> Prop.

Hypothesis P_head :
  forall n j d g alpha label,
    P (mkUpdate AttractHead n head_embedding j d g alpha
                (fst (hub_scale label))).

Hypothesis P_tail :
  move_other = true ->
  forall n k d g alpha label,
    P (mkUpdate AttractTail n tail_embedding k d g alpha
                (snd (hub_scale label))).

Hypothesis P_repulse :
  forall n j d g alpha,
    P (mkUpdate Repulse n head_embedding j d g alpha 0.001).

Variable t0 : list update.

Local Abbreviation Ext := (fun s : state => extends_with P t0 (trace s)).

Lemma kinds_keep {A : Type} (m : M A) :
  preserves trace m -> hoare Ext m (fun _ => Ext) Ext.
Proof. intros H. apply (hoare_preserves trace (extends_with P t0)), H. Qed.

Lemma kinds_pure {A : Type} (m : M A) :
  pure m -> hoare Ext m (fun _ => Ext) Ext.
Proof. intros H. apply kinds_keep, pure_preserves, H. Qed.

Lemma kinds_attract_dim (alpha : Q) (n j k : nat) (gc : Q) (d : nat) :
  hoare Ext
    (attract_dim head_embedding tail_embedding hub_info move_other alpha n
       j k gc d)
    (fun _ => Ext) Ext.
Proof.
  unfold attract_dim.
  eapply hoare_bind; [apply kinds_pure, pure_read_coord |]. intros cur.
  eapply hoare_bind; [apply kinds_pure, pure_read_coord |]. intros oth.
  eapply hoare_bind; [apply kinds_pure, pure_index |]. intros label.
  eapply hoare_bind; [apply hoare_iadd_coord_trace, P_head |].
  intros ?. destruct move_other eqn:Hmo.
  - apply hoare_iadd_coord_trace, P_tail. reflexivity.
  - apply hoare_ret. auto.
Qed.

Lemma kinds_repulse (alpha : Q) (n j k : nat) :
  hoare Ext
    (repulse pow head_embedding tail_embedding a b gamma dim alpha n j k)
    (fun _ => Ext) Ext.
Proof.
  assert (Hdim : forall gc d,
            hoare Ext
              (repulse_dim head_embedding tail_embedding alpha n j k gc d)
              (fun _ => Ext) Ext).
  { intros gc d. unfold repulse_dim.
    eapply hoare_bind; [apply kinds_pure, pure_repulse_grad_d |].
    intros g. apply hoare_iadd_coord_trace, P_repulse. }
  unfold repulse.
  eapply hoare_bind; [apply kinds_pure, pure_row_view |]. intros oth.
  eapply hoare_bind; [apply kinds_pure, pure_row_view |]. intros cur.
  destruct (Qgt0 (rdist cur oth)).
  - eapply hoare_bind; [apply kinds_pure, pure_repulse_coeff |].
    intros gc. apply hoare_for_each. intros d _. apply Hdim.
  - destruct (j =? k)%nat; [apply hoare_ret; auto |].
    apply hoare_for_each. intros d _. apply Hdim.
Qed.

Lemma kinds_single_epoch (alpha : Q) (epns : list xfloat) (n : nat) :
  hoare Ext
    (nn_layout_optimize_single_epoch pow tau_rand_int fuel fl
       int_of_unrepresentable head_embedding
       tail_embedding head tail hub_info n_vertices epochs_per_sample a b
       gamma dim move_other alpha epns n)
    (fun _ => Ext) Ext.
Proof.
  unfold nn_layout_optimize_single_epoch. apply hoare_for_each.
  intros i _. unfold edge_step.
  eapply hoare_bind; [apply kinds_pure, pure_get_next_sample |].
  intros next.
  destruct (xle_bool next (Fin (float_of_nat n))); [| apply hoare_ret; auto].
  unfold fire_edge.
  eapply hoare_bind; [apply kinds_pure, pure_index |]. intros j.
  eapply hoare_bind; [apply kinds_pure, pure_index |]. intros k.
  eapply hoare_bind; [apply kinds_pure, pure_row_view |]. intros cur.
  eapply hoare_bind; [apply kinds_pure, pure_row_view |]. intros oth.
  eapply hoare_bind; [apply kinds_pure, pure_attract_coeff |]. intros gc.
  eapply hoare_bind;
    [apply hoare_for_each; intros d _; apply kinds_attract_dim |].
  intros ?.
  eapply hoare_bind; [apply kinds_pure, pure_index |]. intros eps_i.
  eapply hoare_bind;
    [apply kinds_keep, preserves_trace_iadd_next_sample |].
  intros ?.
  eapply hoare_bind;
    [apply kinds_pure, pure_get_next_negative_sample |].
  intros next_neg.
  eapply hoare_bind; [apply kinds_pure, pure_index |]. intros epns_i.
  eapply hoare_bind; [apply kinds_pure, pure_xdiv |]. intros quo.
  cbv zeta.
  eapply hoare_bind.
  { apply hoare_for_each. intros p _. unfold negative_sample.
    eapply hoare_bind; [apply kinds_keep, preserves_trace_draw_hub |].
    intros k'. apply kinds_repulse. }
  intros ?.
  apply kinds_keep, preserves_trace_iadd_next_negative_sample.
Qed.

Lemma kinds_epoch_loop (n_epochs : nat) (initial_alpha rate : Q)
    (verbose : bool) (ns : list nat) :
  forall alpha bound,
    hoare Ext
      (epoch_loop pow tau_rand_int fuel fl int_of_unrepresentable
         head_embedding tail_embedding head
         tail hub_info n_vertices epochs_per_sample a b gamma n_epochs
         initial_alpha rate verbose dim move_other ns alpha bound)
      (fun _ => Ext) Ext.
Proof.
  induction ns as [| n ns IH]; intros alpha bound; cbn [epoch_loop].
  - apply hoare_ret. auto.
  - eapply hoare_bind; [apply kinds_single_epoch |]. intros ?. apply IH.
Qed.

End KernelTraceKinds.

Lemma hub_scale_values (label : Z) :
  (fst (hub_scale label) = 0.01 \/ fst (hub_scale label) = 0)
  /\ (snd (hub_scale label) = 0.01 \/ snd (hub_scale label) = 0.001
      \/ snd (hub_scale label) = 0).
Proof.
  unfold hub_scale. destruct (label =? 1)%Z; [cbn; auto |].
  destruct (label =? 2)%Z; cbn; auto.
Qed.

(** Every update of a run is written where lines 196, 199 and 232 write
    it: an attractive head update and a repulsive update to
    [head_embedding], the latter scaled by 0.001; an attractive tail update
    to [tail_embedding], and only when the two embeddings have the same
    number of rows.  The attractive scale factors are 0.01, 0.001 or 0. *)
Theorem updates_written_by_kind :
  forall pow tau_rand_int fuel fl int_of_unrepresentable head_embedding
         tail_embedding head tail
         hub_info n_vertices epochs_per_sample a b gamma n_epochs
         initial_alpha negative_sample_rate verbose s,
    extends_with
      (update_target head_embedding tail_embedding
         (fst (shape (load (st_heap s) head_embedding))
          =? fst (shape (load (st_heap s) tail_embedding)))%nat)
      (trace s)
      (trace (snd (nn_layout_optimize pow tau_rand_int fuel fl
                     int_of_unrepresentable head_embedding
                     tail_embedding head tail hub_info n_vertices
                     epochs_per_sample a b gamma n_epochs initial_alpha
                     negative_sample_rate verbose s))).
Proof.
  intros pow tau fuel fl cast hd tl head tail hub nv eps a b gamma N ia rate
         verbose s.
  set (mo := (_ =? _)%nat).
  set (dim := snd (shape (load (st_heap s) hd))).
  assert (Hloop :
    hoare (fun s0 => extends_with (update_target hd tl mo) (trace s)
                       (trace s0))
      (reset_counters fl eps rate ;;
       epoch_loop pow tau fuel fl cast hd tl head tail hub nv eps a b gamma N ia
         rate verbose dim mo (range N) ia false)
      (fun _ s0 => extends_with (update_target hd tl mo) (trace s)
                     (trace s0))
      (fun s0 => extends_with (update_target hd tl mo) (trace s)
                   (trace s0))).
  { eapply hoare_bind.
    - apply (hoare_preserves trace
               (extends_with (update_target hd tl mo) (trace s))).
      intros s1. reflexivity.
    - intros ?. apply kinds_epoch_loop.
      + intros n j d g alpha label. unfold update_target. cbn.
        split; [reflexivity | apply hub_scale_values].
      + intros Hmo n k d g alpha label. unfold update_target. cbn.
        split; [reflexivity |]. split; [exact Hmo |].
        apply hub_scale_values.
      + intros n j d g alpha. unfold update_target. cbn. auto. }
  specialize (Hloop s (extends_with_refl _ _)).
  unfold nn_layout_optimize. unfold bind at 1.
  unfold run_epochs, run_first_epochs. cbv zeta. fold dim. fold mo.
  destruct ((reset_counters fl eps rate ;;
             epoch_loop pow tau fuel fl cast hd tl head tail hub nv eps a b
               gamma N
               ia rate verbose dim mo (range N) ia false) s)
    as [[r | e | ] s1]; cbn [snd]; auto.
  destruct (snd r); exact Hloop.
Qed.


(** * Further properties of the Global Layout Refiner *)

(** ** Sums *)

Lemma fold_left_Qplus_acc (l : list Q) (acc : Q) :
  fold_left Qplus l acc == acc + sumQ l.
Proof.
  unfold sumQ. revert acc. induction l as [| x l IH]; intros acc; cbn.
  - ring.
  - rewrite (IH (acc + x)), (IH (0 + x)). ring.
Qed.

Lemma sumQ_cons (x : Q) (l : list Q) : sumQ (x :: l) == x + sumQ l.
Proof. unfold sumQ. cbn. rewrite fold_left_Qplus_acc. unfold sumQ. ring. Qed.

Lemma sumQ_map_div {A : Type} (f : A -> Q) (c : Q) (l : list A) :
  sumQ (map (fun x => f x / c) l) == sumQ (map f l) / c.
Proof.
  induction l as [| x l IH]; cbn [map].
  - unfold sumQ. cbn. unfold Qdiv. ring.
  - rewrite !sumQ_cons, IH. unfold Qdiv. ring.
Qed.

Lemma sumQ_zero (l : list Q) : Forall (fun x => x == 0) l -> sumQ l == 0.
Proof.
  induction 1 as [| x l Hx H IH]; [reflexivity |].
  rewrite sumQ_cons, Hx, IH. ring.
Qed.

Lemma sumQ_nonneg (l : list Q) : Forall (fun x => 0 <= x) l -> 0 <= sumQ l.
Proof.
  induction 1 as [| x l Hx H IH]; [apply Qle_refl |].
  rewrite sumQ_cons. lra.
Qed.

Lemma sumQ_Forall2 (l l' : list Q) : Forall2 Qeq l l' -> sumQ l == sumQ l'.
Proof.
  induction 1 as [| x y l l' Hxy H IH]; [reflexivity |].
  rewrite !sumQ_cons, Hxy, IH. reflexivity.
Qed.

(** ** The rows of [Q] *)

Lemma pressure_of_tabulate (pow : Q -> Q -> Q) (n : nat)
    (FP FD : nat -> nat -> Q) :
  pressure_of pow (tabulate n n FP) (tabulate n n FD)
  = tabulate n n
      (fun i j =>
         sumQ (map (fun k => (1 - FP i k)
                             * (if (k =? j)%nat then 0
                                else pow (0.001 + FD k j) (-1)))
                   (range n))).
Proof.
  unfold pressure_of, np_power.
  now rewrite !smap_tabulate, fill_diagonal_tabulate, dot_tabulate.
Qed.

(** Line 54: every row of [Q] whose sum was not zero before the division
    sums to 1. *)
Theorem Q_rows_sum_to_one :
  forall pow P d_squared N i,
    has_shape N N P ->
    has_shape N N d_squared ->
    (i < N)%nat ->
    ~ sumQ (nth i (pressure_of pow P d_squared) []) == 0 ->
    sumQ (nth i (Q_of pow P d_squared) []) == 1.
Proof.
  intros pow P d2 N i HP HD Hi Hsum.
  assert (HQ : Q_of pow P d2
               = bop2 Qdiv (pressure_of pow P d2)
                      (sum_axis1_keepdims (pressure_of pow P d2)))
    by reflexivity.
  rewrite HQ. clear HQ.
  rewrite (tabulate_of_shape _ _ _ HP), (tabulate_of_shape _ _ _ HD) in *.
  rewrite pressure_of_tabulate in *.
  set (U := fun i j : nat => sumQ _) in *.
  rewrite sum_axis1_keepdims_tabulate, bop2_tabulate_column.
  unfold tabulate in *. rewrite nth_map_range in * by exact Hi.
  rewrite (sumQ_map_div (U i)). field. exact Hsum.
Qed.

Lemma Q_rows_witness :
  has_shape 2 2 P_pair
  /\ has_shape 2 2 [[0; 1]; [1; 0]]
  /\ (0 < 2)%nat
  /\ ~ sumQ (nth 0 (pressure_of pow_int P_pair [[0; 1]; [1; 0]]) []) == 0
  /\ sumQ (nth 0 (Q_of pow_int P_pair [[0; 1]; [1; 0]]) []) == 1.
Proof.
  assert (H1 : has_shape 2 2 P_pair)
    by (split; [reflexivity | repeat constructor]).
  assert (H2 : has_shape 2 2 [[0; 1]; [1; 0]])
    by (split; [reflexivity | repeat constructor]).
  assert (H3 : (0 < 2)%nat) by lia.
  assert (H4 : ~ sumQ (nth 0 (pressure_of pow_int P_pair
                                [[0; 1]; [1; 0]]) []) == 0)
    by (vm_compute; discriminate).
  split; [exact H1 |]. split; [exact H2 |]. split; [exact H3 |].
  split; [exact H4 |].
  exact (Q_rows_sum_to_one pow_int P_pair [[0; 1]; [1; 0]] 2 0 H1 H2 H3 H4).
Defined.

(** ** Iterating *)

Lemma fold_left_ignore {A B : Type} (f : A -> A) (l : list B) (x : A) :
  fold_left (fun y _ => f y) l x = Nat.iter (length l) f x.
Proof.
  revert x. induction l as [| b l IH]; intros x; [reflexivity |].
  cbn [fold_left length]. rewrite IH. apply Nat.iter_swap.
Qed.

Lemma optimize_global_layout_iter (pow : Q -> Q -> Q)
    (adj : matrix -> matrix) (P : matrix) (a b alpha : Q) (m : nat)
    (Z : matrix) :
  optimize_global_layout pow adj P a b alpha m Z
  = Nat.iter m (global_iteration pow adj P a b alpha) Z.
Proof.
  unfold optimize_global_layout. rewrite fold_left_ignore.
  now rewrite range_length.
Qed.

Lemma has_shape_tabulate (rows cols : nat) (F : nat -> nat -> Q) :
  has_shape rows cols (tabulate rows cols F).
Proof.
  unfold has_shape, tabulate. split.
  - now rewrite length_map, range_length.
  - rewrite Forall_forall. intros r Hr. apply in_map_iff in Hr.
    destruct Hr as [i [<- _]]. now rewrite length_map, range_length.
Qed.

Lemma global_iteration_shape (pow : Q -> Q -> Q) (adj : matrix -> matrix)
    (P : matrix) (a b alpha : Q) (Z : matrix) (N dim : nat) :
  has_shape N dim Z -> has_shape N N P -> has_shape N N (adj Z) ->
  has_shape N dim (global_iteration pow adj P a b alpha Z).
Proof.
  intros HZ HP HA.
  unfold global_iteration, d_squared_of, z_diff_of, d_inverse_of, Q_of,
    grad_of, np_power, np_square.
  cbv zeta.
  rewrite (tabulate_of_shape _ _ _ HA).
  generalize (at2 (adj Z)). intros FA.
  rewrite (tabulate_of_shape _ _ _ HZ).
  generalize (at2 Z). intros FZ.
  rewrite (tabulate_of_shape _ _ _ HP).
  generalize (at2 P). intros FP.
  repeat rewrite ?smap_tabulate, ?fill_diagonal_tabulate, ?dot_tabulate,
    ?sum_axis1_keepdims_tabulate, ?bop2_tabulate_column, ?bop2_tabulate,
    ?expand_dims_2_tabulate, ?z_diff_tabulate, ?bop3_tabulate_l1,
    ?bop3_tabulate_r1, ?sum_axis1_tabulate3.
  apply has_shape_tabulate.
Qed.

(** With a similarity matrix and distance matrices of [N] rows and [N]
    columns, the refiner returns a layout of the shape of the one it
    received, after any number of iterations. *)
Theorem optimize_global_layout_keeps_shape :
  forall pow adjacency_matrix P a b alpha max_iter Z N dim,
    (forall Z', has_shape N dim Z' -> has_shape N N (adjacency_matrix Z')) ->
    has_shape N N P ->
    has_shape N dim Z ->
    has_shape N dim
      (optimize_global_layout pow adjacency_matrix P a b alpha max_iter Z).
Proof.
  intros pow adj P a b alpha m Z N dim Hadj HP HZ.
  rewrite optimize_global_layout_iter.
  induction m as [| m IH]; [exact HZ |].
  cbn [Nat.iter]. apply global_iteration_shape; auto.
Qed.

Lemma adjacency_l1_shape (Z : matrix) :
  has_shape (length Z) (length Z) (adjacency_l1 Z).
Proof.
  unfold adjacency_l1, has_shape. split; [now rewrite length_map |].
  rewrite Forall_forall. intros r Hr. apply in_map_iff in Hr.
  destruct Hr as [zi [<- _]]. now rewrite length_map.
Qed.

Lemma optimize_global_layout_shape_witness :
  (forall Z', has_shape 2 1 Z' -> has_shape 2 2 (adjacency_l1 Z'))
  /\ has_shape 2 2 P_pair
  /\ has_shape 2 1 Z_pair
  /\ has_shape 2 1
       (optimize_global_layout pow_int adjacency_l1 P_pair 1 1 0.01 3
          Z_pair).
Proof.
  assert (H1 : forall Z', has_shape 2 1 Z' ->
                          has_shape 2 2 (adjacency_l1 Z')).
  { intros Z' [Hl _]. rewrite <- Hl. apply adjacency_l1_shape. }
  assert (H2 : has_shape 2 2 P_pair)
    by (split; [reflexivity | repeat constructor]).
  assert (H3 : has_shape 2 1 Z_pair)
    by (split; [reflexivity | repeat constructor]).
  split; [exact H1 |]. split; [exact H2 |]. split; [exact H3 |].
  exact (optimize_global_layout_keeps_shape pow_int adjacency_l1 P_pair 1 1
           0.01 3 Z_pair 2 1 H1 H2 H3).
Defined.


(** ** The density cost *)

Lemma calc_DTM_density (exp : Q -> Q) (adj : matrix) (sigma : Q) :
  calc_DTM exp adj sigma
  = map (fun x => x / sumQ (density_of exp adj sigma))
        (density_of exp adj sigma).
Proof. reflexivity. Qed.

Lemma calc_DTM_length (exp : Q -> Q) (adj : matrix) (sigma : Q) :
  length (calc_DTM exp adj sigma) = length adj.
Proof.
  rewrite calc_DTM_density. unfold density_of, smap.
  now rewrite !length_map.
Qed.

(** [calc_DTM] returns densities that sum to 1, when [sigma] and the total
    of line 27 are not zero. *)
Theorem calc_DTM_sums_to_one :
  forall exp adj sigma,
    ~ sigma == 0 ->
    ~ sumQ (density_of exp adj sigma) == 0 ->
    sumQ (calc_DTM exp adj sigma) == 1.
Proof.
  intros exp adj sigma _ Hs. rewrite calc_DTM_density.
  rewrite (sumQ_map_div (fun x => x)), map_id. field. exact Hs.
Qed.

Lemma calc_DTM_witness :
  ~ 0.1 == 0
  /\ ~ sumQ (density_of exp_one [[0; 1]; [1; 0]] 0.1) == 0
  /\ sumQ (calc_DTM exp_one [[0; 1]; [1; 0]] 0.1) == 1.
Proof.
  assert (H0 : ~ 0.1 == 0) by (vm_compute; discriminate).
  assert (H : ~ sumQ (density_of exp_one [[0; 1]; [1; 0]] 0.1) == 0)
    by (vm_compute; discriminate).
  split; [exact H0 |]. split; [exact H |].
  exact (calc_DTM_sums_to_one exp_one [[0; 1]; [1; 0]] 0.1 H0 H).
Defined.

Lemma abs_diff_nonneg (u v : vec) :
  Forall (fun x => 0 <= x) (map Qabs (zip_with Qminus u v)).
Proof.
  revert v. induction u as [| x u IH]; intros [| y v];
    cbn [zip_with map]; constructor; auto. apply Qabs_nonneg.
Qed.

Lemma abs_diff_sym (u v : vec) :
  Forall2 Qeq (map Qabs (zip_with Qminus u v))
          (map Qabs (zip_with Qminus v u)).
Proof.
  revert v. induction u as [| x u IH]; intros [| y v];
    cbn [zip_with map]; constructor; auto.
  rewrite Qabs_Qminus. reflexivity.
Qed.

Lemma abs_diff_self (u : vec) :
  Forall (fun x => x == 0) (map Qabs (zip_with Qminus u u)).
Proof.
  induction u as [| x u IH]; cbn [zip_with map]; constructor; auto.
  setoid_replace (x - x) with 0 by ring. reflexivity.
Qed.

(** [get_DTM] of two distance matrices with the same number of rows, a
    non-zero [sigma] and densities of non-zero total is not negative, does not
      depend on the
    order of its two matrices, and is 0 when the two are the same. *)
Theorem get_DTM_is_a_distance :
  forall exp adj_x adj_z sigma,
    length adj_x = length adj_z ->
    ~ sigma == 0 ->
    ~ sumQ (density_of exp adj_x sigma) == 0 ->
    ~ sumQ (density_of exp adj_z sigma) == 0 ->
    0 <= get_DTM exp adj_x adj_z sigma
    /\ get_DTM exp adj_x adj_z sigma == get_DTM exp adj_z adj_x sigma
    /\ get_DTM exp adj_x adj_x sigma == 0.
Proof.
  intros exp x z sigma Hlen _ _ _. unfold get_DTM. cbv zeta.
  rewrite !broadcast_zip
    by (rewrite !calc_DTM_length; auto).
  split; [| split].
  - apply sumQ_nonneg, abs_diff_nonneg.
  - apply sumQ_Forall2, abs_diff_sym.
  - apply sumQ_zero, abs_diff_self.
Qed.

Lemma get_DTM_witness :
  length [[0; 1]; [1; 0]] = length [[0; 2]; [2; 0]]
  /\ ~ 0.1 == 0
  /\ ~ sumQ (density_of exp_one [[0; 1]; [1; 0]] 0.1) == 0
  /\ ~ sumQ (density_of exp_one [[0; 2]; [2; 0]] 0.1) == 0
  /\ 0 <= get_DTM exp_one [[0; 1]; [1; 0]] [[0; 2]; [2; 0]] 0.1.
Proof.
  assert (H1 : length [[0; 1]; [1; 0]] = length [[0; 2]; [2; 0]])
    by reflexivity.
  assert (H0 : ~ 0.1 == 0) by (vm_compute; discriminate).
  assert (H2 : ~ sumQ (density_of exp_one [[0; 1]; [1; 0]] 0.1) == 0)
    by (vm_compute; discriminate).
  assert (H3 : ~ sumQ (density_of exp_one [[0; 2]; [2; 0]] 0.1) == 0)
    by (vm_compute; discriminate).
  split; [exact H1 |]. split; [exact H0 |]. split; [exact H2 |].
  split; [exact H3 |].
  exact (proj1 (get_DTM_is_a_distance exp_one [[0; 1]; [1; 0]]
                  [[0; 2]; [2; 0]] 0.1 H1 H0 H2 H3)).
Defined.
